(** * SVG path to CSS clip-path converter: a shallow embedding of
      [src/frontend/src/lib/pathConverter.ts] and the properties of its
      tokenizer, path interpreter, flattener and normalizer.

    Conventions of the embedding.
    - A JavaScript string is a sequence of UTF-16 code units: [jsstring] is
      [list N], and [str] turns a Rocq string literal into one.
    - A JavaScript Number is an IEEE 754 binary64 value: Rocq's primitive
      [float], whose operations are the correctly rounded ones.
    - A thrown [Error] is [Throw message]; a loop that has not finished within
      the given number of iterations is [Spin]. *)

From Stdlib Require Import ZArith NArith List Bool Ascii String Floats Lia.
From Stdlib Require Import DecimalString.
Import ListNotations.

Local Open Scope list_scope.

(** ** Strings *)

Definition jsstring := list N.

Fixpoint str (s : string) : jsstring :=
  match s with
  | EmptyString => []
  | String a s' => N_of_ascii a :: str s'
  end.

Definition ch (a : ascii) : N := N_of_ascii a.

(** The double quote that the error messages put around the offending text. *)
Definition dquote : N := 34%N.

(** [`${i}`] for a non-negative integer index. *)
Definition decimal (i : nat) : jsstring :=
  str (NilEmpty.string_of_uint (Nat.to_uint i)).

Definition oneOf (set : jsstring) (c : N) : bool := existsb (N.eqb c) set.

(** ECMAScript WhiteSpace and LineTerminator code units, as [String.prototype.trim]
    removes them. *)
Definition isWhiteSpace (c : N) : bool :=
  oneOf [9; 10; 11; 12; 13; 32; 160; 5760; 8232; 8233; 8239; 8287; 12288; 65279]%N c
  || ((8192 <=? c) && (c <=? 8202))%N.

Fixpoint trimStart (s : jsstring) : jsstring :=
  match s with
  | [] => []
  | c :: s' => if isWhiteSpace c then trimStart s' else s
  end.

Definition trimEnd (s : jsstring) : jsstring := rev (trimStart (rev s)).

Definition trim (s : jsstring) : jsstring := trimEnd (trimStart s).

Fixpoint startsWith (prefix s : jsstring) : bool :=
  match prefix, s with
  | [], _ => true
  | p :: prefix', c :: s' => (p =? c)%N && startsWith prefix' s'
  | _ :: _, [] => false
  end.

Fixpoint jsstring_eqb (a b : jsstring) : bool :=
  match a, b with
  | [], [] => true
  | x :: a', y :: b' => (x =? y)%N && jsstring_eqb a' b'
  | _, _ => false
  end.

(** [parts.join(sep)] *)
Fixpoint join (sep : jsstring) (parts : list jsstring) : jsstring :=
  match parts with
  | [] => []
  | [p] => p
  | p :: rest => p ++ sep ++ join sep rest
  end.

(** ** Results of a call *)

Inductive result (A : Type) : Type :=
| Ret (a : A)
| Throw (message : jsstring)
| Spin.
Arguments Ret {A} a.
Arguments Throw {A} message.
Arguments Spin {A}.

Definition bind {A B : Type} (r : result A) (k : A -> result B) : result B :=
  match r with
  | Ret a => k a
  | Throw m => Throw m
  | Spin => Spin
  end.

(** ** Numbers *)

Module Num.

Local Open Scope float_scope.

(** An integer loop counter used as a Number (exact below 2^53). *)
Definition of_Z (z : Z) : float :=
  let a := of_uint63 (Uint63.of_Z (Z.abs z)) in
  if (z <? 0)%Z then - a else a.

Definition of_nat (n : nat) : float := of_Z (Z.of_nat n).

(** [Number.isFinite]: neither NaN nor an infinity. *)
Definition is_finite (x : float) : bool :=
  match Prim2SF x with
  | S754_zero _ | S754_finite _ _ _ => true
  | _ => false
  end.

(** [Math.min] and [Math.max] of two arguments: NaN is contagious and
    [-0] is below [+0]. *)
Definition Math_min (a b : float) : float :=
  if is_nan a || is_nan b then nan
  else if a <? b then a
  else if b <? a then b
  else if is_zero a && get_sign a then a else b.

Definition Math_max (a b : float) : float :=
  if is_nan a || is_nan b then nan
  else if b <? a then a
  else if a <? b then b
  else if is_zero a && negb (get_sign a) then a else b.

(** [Math.round]: the nearest integer, a tie going towards +Infinity;
    NaN, the infinities, the zeros and the integers are returned unchanged,
    and a negative argument that rounds to zero gives [-0]. *)
Definition Math_round (x : float) : float :=
  match Prim2SF x with
  | S754_finite s m e =>
      if (0 <=? e)%Z then x
      else
        let den := (2 ^ (- e))%Z in
        let num := (if s then Z.neg m else Z.pos m) in
        let n := ((2 * num + den) / (2 * den))%Z in
        if (n =? 0)%Z then (if s then neg_zero else zero) else of_Z n
  | _ => x
  end.

(** [Math.PI] *)
Definition Math_PI : float := 0x1.921fb54442d18p+1.

(** The Number value of [m * 10^e10] for [0 <= m]: round to nearest, ties to
    even, overflow to Infinity, as StringNumericValue prescribes. *)
Definition round_decimal (m e10 : Z) : float :=
  if (m <=? 0)%Z then zero
  else
    let num := (if 0 <=? e10 then m * 10 ^ e10 else m)%Z in
    let den := (if 0 <=? e10 then 1 else 10 ^ (- e10))%Z in
    let lg := (Z.log2 num - Z.log2 den)%Z in
    let below :=
      (if 0 <=? lg then num <? den * 2 ^ lg else num * 2 ^ (- lg) <? den)%Z in
    let e := (if below then lg - 1 else lg)%Z in
    let k := Z.max (e - 52) (-1074) in
    let N := (if 0 <=? k then num else num * 2 ^ (- k))%Z in
    let D := (if 0 <=? k then den * 2 ^ k else den)%Z in
    let q := (N / D)%Z in
    let r := (N mod D)%Z in
    let q' :=
      (if (D <? 2 * r) || ((D =? 2 * r) && Z.odd q) then q + 1 else q)%Z in
    if (q' =? 0)%Z then zero
    else if (1024 <=? Z.log2 q' + k)%Z then infinity
    else Z.ldexp (of_uint63 (Uint63.of_Z q')) k.

End Num.

(** *** [parseFloat] *)

Definition isDigit (c : N) : bool := ((48 <=? c) && (c <=? 57))%N.

(** Reads a run of decimal digits: its value, its length and what follows. *)
Fixpoint scanDigits (cs : jsstring) (acc : Z) (count : nat) : Z * nat * jsstring :=
  match cs with
  | c :: cs' =>
      if isDigit c then scanDigits cs' (10 * acc + (Z.of_N c - 48))%Z (S count)
      else (acc, count, cs)
  | [] => (acc, count, [])
  end.

(** The ExponentPart of the longest StrDecimalLiteral prefix, if there is one. *)
Definition scanExponent (cs : jsstring) : Z :=
  match cs with
  | c :: cs' =>
      if oneOf (str "eE") c then
        match cs' with
        | s :: cs'' =>
            if oneOf (str "+-") s then
              let '(v, n, _) := scanDigits cs'' 0%Z 0 in
              match n with
              | O => 0%Z
              | _ => if (s =? ch "-")%N then (- v)%Z else v
              end
            else
              let '(v, _, _) := scanDigits cs' 0%Z 0 in v
        | [] => 0%Z
        end
      else 0%Z
  | [] => 0%Z
  end.

(** [parseFloat(s)]: the Number value of the longest prefix of the trimmed
    text that is a StrDecimalLiteral, NaN when there is none. *)
Definition parseFloat (s : jsstring) : float :=
  let s0 := trimStart s in
  let '(negative, s1) :=
    match s0 with
    | c :: s' =>
        if (c =? ch "-")%N then (true, s')
        else if (c =? ch "+")%N then (false, s') else (false, s0)
    | [] => (false, s0)
    end in
  let signed (x : float) := if negative then (- x)%float else x in
  if startsWith (str "Infinity") s1 then signed infinity
  else
    let '(mi, ni, s2) := scanDigits s1 0%Z 0 in
    let '(mf, nf, s3) :=
      match s2 with
      | c :: s' => if (c =? ch ".")%N then scanDigits s' mi 0 else (mi, 0, s2)
      | [] => (mi, 0, s2)
      end in
    match (ni + nf)%nat with
    | O => nan
    | _ => signed (Num.round_decimal mf (scanExponent s3 - Z.of_nat nf))
    end.

(** ** Tokens and the tokenizer *)

Inductive Token : Type :=
| Command (value : jsstring)
| Number (value : float).

Definition commandLetters : jsstring := str "MmLlHhVvCcSsQqTtAaZz".

(** [/[MmLlHhVvCcSsQqTtAaZz]/.test(char)] *)
Definition isCommandLetter (c : N) : bool := oneOf commandLetters c.

(** [char === ' ' || char === '\t' || char === '\n' || char === '\r' || char === ','] *)
Definition isSeparator (c : N) : bool := oneOf [32; 9; 10; 13; 44]%N c.

(** [/[0-9+\-.]/.test(char)] *)
Definition isNumberStart (c : N) : bool := isDigit c || oneOf (str "+-.") c.

Definition isSign (c : N) : bool := oneOf (str "+-") c.

(** The inner [while] of the number branch. [cs] is [path.slice(i)]. *)
Fixpoint scanNumber (cs : jsstring) (i : nat) (numStr : jsstring)
    (hasDecimal hasExponent : bool) : jsstring * nat * jsstring :=
  match cs with
  | [] => (numStr, i, [])
  | c :: cs' =>
      if isDigit c then scanNumber cs' (S i) (numStr ++ [c]) hasDecimal hasExponent
      else if (c =? ch ".")%N && negb hasDecimal && negb hasExponent then
        scanNumber cs' (S i) (numStr ++ [c]) true hasExponent
      else if oneOf (str "eE") c && negb hasExponent && (0 <? List.length numStr) then
        match cs' with
        | s :: cs'' =>
            if isSign s then scanNumber cs'' (S (S i)) (numStr ++ [c; s]) hasDecimal true
            else scanNumber cs' (S i) (numStr ++ [c]) hasDecimal true
        | [] => scanNumber cs' (S i) (numStr ++ [c]) hasDecimal true
        end
      else (numStr, i, cs)
  end.

(** [numStr === '' || numStr === '.' || ... || /[eE]$/.test(numStr)] *)
Definition isInvalidNumStr (numStr : jsstring) : bool :=
  existsb (jsstring_eqb numStr)
    [ []; str "."; str "-"; str "+"; str "-."; str "+." ]
  || match rev numStr with
     | c :: _ => oneOf (str "eE") c
     | [] => false
     end.

Definition quoted (s : jsstring) : jsstring := [dquote] ++ s ++ [dquote].

Definition invalidNumberFormat (numStr : jsstring) : jsstring :=
  str "Invalid number format: " ++ quoted numStr.

Definition invalidNumericValue (numStr : jsstring) : jsstring :=
  str "Invalid numeric value: " ++ quoted numStr.

Definition unexpectedCharacter (char : N) (i : nat) : jsstring :=
  str "Unexpected character " ++ quoted [char] ++ str " at position " ++ decimal i.

(** The outer [while (i < path.length)]; [cs] is [path.slice(i)]. *)
Fixpoint tokenizeLoop (fuel : nat) (cs : jsstring) (i : nat) (tokens : list Token)
    : result (list Token) :=
  match fuel with
  | O => Spin
  | S fuel' =>
      match cs with
      | [] => Ret tokens
      | char :: cs' =>
          if isSeparator char then tokenizeLoop fuel' cs' (S i) tokens
          else if isCommandLetter char then
            tokenizeLoop fuel' cs' (S i) (tokens ++ [Command [char]])
          else if isNumberStart char then
            let '(numStr, j, rest) :=
              if isSign char then scanNumber cs' (S i) [char] false false
              else scanNumber cs i [] false false in
            if isInvalidNumStr numStr then Throw (invalidNumberFormat numStr)
            else
              let num := parseFloat numStr in
              if is_nan num then Throw (invalidNumericValue numStr)
              else tokenizeLoop fuel' rest j (tokens ++ [Number num])
          else Throw (unexpectedCharacter char i)
      end
  end.

(** Every iteration consumes a character or throws, so [length path] iterations
    and the final test suffice. *)
Definition tokenizePath (path : jsstring) : result (list Token) :=
  tokenizeLoop (S (List.length path)) path 0 [].

(** ** Options *)

Record PolygonConversionOptions : Type := {
  curveSegments : option nat;
  arcSegments : option nat
}.

(** [options = {}] *)
Definition defaultOptions : PolygonConversionOptions :=
  {| curveSegments := None; arcSegments := None |}.

(** [a ?? b] *)
Definition orDefault {A : Type} (a : option A) (b : A) : A :=
  match a with
  | Some v => v
  | None => b
  end.

(** ** Points and curve evaluation *)

Module Point.
Record t : Type := mk { x : float; y : float }.
End Point.

Section Curves.
Local Open Scope float_scope.

Definition cubicBezier (x0 y0 x1 y1 x2 y2 x3 y3 t : float) : Point.t :=
  let mt := 1 - t in
  let mt2 := mt * mt in
  let mt3 := mt2 * mt in
  let t2 := t * t in
  let t3 := t2 * t in
  Point.mk
    (mt3 * x0 + 3 * mt2 * t * x1 + 3 * mt * t2 * x2 + t3 * x3)
    (mt3 * y0 + 3 * mt2 * t * y1 + 3 * mt * t2 * y2 + t3 * y3).

Definition quadraticBezier (x0 y0 x1 y1 x2 y2 t : float) : Point.t :=
  let mt := 1 - t in
  let mt2 := mt * mt in
  let t2 := t * t in
  Point.mk
    (mt2 * x0 + 2 * mt * t * x1 + t2 * x2)
    (mt2 * y0 + 2 * mt * t * y1 + t2 * y2).

(** [for (let t = 1; t <= segments; t++) { const ratio = t / segments; push(f(ratio)) }] *)
Definition sampleCurve (segments : nat) (f : float -> Point.t) : list Point.t :=
  map (fun t => f (Num.of_nat t / Num.of_nat segments)) (seq 1 segments).

End Curves.

(** ** The interpreter's state

    The local variables of [extractPointsFromPath]: the token index [i]
    (kept together with [rest], the tokens from index [i] on), the cursor,
    the subpath start, the last control point, the last command letter and
    the points collected so far. *)

Module St.
Record t : Type := mk {
  i : nat;
  rest : list Token;
  currentX : float;
  currentY : float;
  subpathStartX : float;
  subpathStartY : float;
  lastControlX : float;
  lastControlY : float;
  lastCommand : jsstring;
  absolutePoints : list Point.t
}.

Definition init (tokens : list Token) : t :=
  mk 0 tokens 0 0 0 0 0 0 [] [].

Definition setTokens (i' : nat) (rest' : list Token) (s : t) : t :=
  mk i' rest' (currentX s) (currentY s) (subpathStartX s) (subpathStartY s)
     (lastControlX s) (lastControlY s) (lastCommand s) (absolutePoints s).

Definition setCurrentX (v : float) (s : t) : t :=
  mk (i s) (rest s) v (currentY s) (subpathStartX s) (subpathStartY s)
     (lastControlX s) (lastControlY s) (lastCommand s) (absolutePoints s).

Definition setCurrentY (v : float) (s : t) : t :=
  mk (i s) (rest s) (currentX s) v (subpathStartX s) (subpathStartY s)
     (lastControlX s) (lastControlY s) (lastCommand s) (absolutePoints s).

Definition setSubpathStart (vx vy : float) (s : t) : t :=
  mk (i s) (rest s) (currentX s) (currentY s) vx vy
     (lastControlX s) (lastControlY s) (lastCommand s) (absolutePoints s).

Definition setLastControl (vx vy : float) (s : t) : t :=
  mk (i s) (rest s) (currentX s) (currentY s) (subpathStartX s) (subpathStartY s)
     vx vy (lastCommand s) (absolutePoints s).

Definition setLastCommand (c : jsstring) (s : t) : t :=
  mk (i s) (rest s) (currentX s) (currentY s) (subpathStartX s) (subpathStartY s)
     (lastControlX s) (lastControlY s) c (absolutePoints s).

(** [absolutePoints.push(...ps)] *)
Definition push (ps : list Point.t) (s : t) : t :=
  mk (i s) (rest s) (currentX s) (currentY s) (subpathStartX s) (subpathStartY s)
     (lastControlX s) (lastControlY s) (lastCommand s) (absolutePoints s ++ ps).
End St.

(** A step of the interpreter: it reads and updates the state, or throws. *)
Definition M (A : Type) : Type := St.t -> result (A * St.t).

Definition ret {A : Type} (a : A) : M A := fun s => Ret (a, s).

Definition mbind {A B : Type} (m : M A) (k : A -> M B) : M B :=
  fun s => bind (m s) (fun '(a, s') => k a s').

Definition get : M St.t := fun s => Ret (s, s).

Definition modify (f : St.t -> St.t) : M unit := fun s => Ret (tt, f s).

Definition throw {A : Type} (message : jsstring) : M A := fun _ => Throw message.

Declare Scope interp_scope.
Delimit Scope interp_scope with interp.
Notation "x <- m ;; k" := (mbind m (fun x => k))
  (at level 61, m at next level, right associativity) : interp_scope.
Notation "m ;; k" := (mbind m (fun _ => k))
  (at level 61, right associativity) : interp_scope.

(** The closure [getNumber(context)]: the next token must be a number. *)
Definition getNumber (context : jsstring) : M float :=
  fun s =>
    match St.rest s with
    | Number value :: rest' => Ret (value, St.setTokens (S (St.i s)) rest' s)
    | _ => Throw (str "Expected number for " ++ context)
    end.

Definition pushCurrent : M unit :=
  modify (fun s => St.push [Point.mk (St.currentX s) (St.currentY s)] s).

Definition cmdIs (command : jsstring) (letter : string) : bool :=
  jsstring_eqb command (str letter).

(** ** Normalization to percentages *)

Local Open Scope float_scope.

Module Box.
Record t : Type := mk { minX : float; minY : float; maxX : float; maxY : float }.

Definition empty : t := mk infinity infinity neg_infinity neg_infinity.

Definition add (b : t) (point : Point.t) : t :=
  mk (Num.Math_min (minX b) (Point.x point))
     (Num.Math_min (minY b) (Point.y point))
     (Num.Math_max (maxX b) (Point.x point))
     (Num.Math_max (maxY b) (Point.y point)).

Definition width (b : t) : float := maxX b - minX b.
Definition height (b : t) : float := maxY b - minY b.
End Box.

Definition boundingBox (points : list Point.t) : Box.t :=
  fold_left Box.add points Box.empty.

(** [extent > 0 ? ((v - min) / extent) * 100 : 50] *)
Definition normalizeCoord (v min extent : float) : float :=
  if 0 <? extent then ((v - min) / extent) * 100 else 50.

(** [Math.round(v * 100) / 100] *)
Definition round2 (v : float) : float := Num.Math_round (v * 100) / 100.

Definition normalizePoint (b : Box.t) (point : Point.t) : Point.t :=
  Point.mk
    (round2 (normalizeCoord (Point.x point) (Box.minX b) (Box.width b)))
    (round2 (normalizeCoord (Point.y point) (Box.minY b) (Box.height b))).

Definition normalize (absolutePoints : list Point.t) : list Point.t :=
  map (normalizePoint (boundingBox absolutePoints)) absolutePoints.

Local Close Scope float_scope.

(** ** A sample engine

    Concrete stand-ins for the engine's functions, used only to run the
    embedded code on concrete inputs: low-order approximations of the
    trigonometric functions, and a conversion to text that is the decimal
    notation of a Number with at most two decimals (as the normalizer
    produces them). No theorem on the code depends on them. *)

Module SampleEngine.
Local Open Scope float_scope.

Definition cos (x : float) : float :=
  let x2 := x * x in
  1 - x2 / 2 + x2 * x2 / 24 - x2 * x2 * x2 / 720.

Definition sin (x : float) : float :=
  let x2 := x * x in
  x - x * x2 / 6 + x * x2 * x2 / 120 - x * x2 * x2 * x2 / 5040.

(** arctangent on [-1, 1] *)
Definition atan_unit (t : float) : float := t / (1 + 0.28125 * t * t).

Definition atan2 (y x : float) : float :=
  let half_pi := Num.Math_PI / 2 in
  if abs y <=? abs x then
    let a := atan_unit (y / x) in
    if 0 <=? x then a
    else if 0 <=? y then a + Num.Math_PI else a - Num.Math_PI
  else
    let a := atan_unit (x / y) in
    if 0 <=? y then half_pi - a else - half_pi - a.

Definition digits (n : Z) : jsstring :=
  str (NilEmpty.string_of_uint (N.to_uint (Z.to_N n))).

(** The integer nearest to [100 * x], for a finite [x]. *)
Definition hundredths (x : float) : Z :=
  match Prim2SF (Num.Math_round (x * 100)) with
  | S754_finite s m e =>
      let v := (if 0 <=? e then Z.pos m * 2 ^ e else Z.pos m / 2 ^ (- e))%Z in
      if s then (- v)%Z else v
  | _ => 0%Z
  end.

Definition toString (x : float) : jsstring :=
  if is_nan x then str "NaN"
  else if is_infinity x then (if x <? 0 then str "-Infinity" else str "Infinity")
  else
    let h := hundredths x in
    let a := Z.abs h in
    let whole := (a / 100)%Z in
    let cents := (a mod 100)%Z in
    (if (h <? 0)%Z then str "-" else [])
    ++ digits whole
    ++ (if (cents =? 0)%Z then []
        else if (cents mod 10 =? 0)%Z then str "." ++ digits (cents / 10)
        else if (cents <? 10)%Z then str ".0" ++ digits cents
        else str "." ++ digits cents).

End SampleEngine.

(** ** The converter panel

    The quality presets of [ConverterSection], its six state variables and
    their setters. *)

Module Quality.
Inductive t : Type := low | medium | high.
End Quality.

(** [qualityMap[quality]] *)
Definition qualityMap (quality : Quality.t) : PolygonConversionOptions :=
  match quality with
  | Quality.low => {| curveSegments := Some 4%nat; arcSegments := Some 8%nat |}
  | Quality.medium => {| curveSegments := Some 8%nat; arcSegments := Some 16%nat |}
  | Quality.high => {| curveSegments := Some 16%nat; arcSegments := Some 32%nat |}
  end.

Module Panel.
Record t : Type := mk {
  svgPath : jsstring;
  clipPathPath : jsstring;
  clipPathPolygon : jsstring;
  pathError : jsstring;
  polygonError : jsstring;
  polygonQuality : Quality.t
}.

(** [useState('')] five times and [useState('medium')] *)
Definition init : t := mk [] [] [] [] [] Quality.medium.

Definition setSvgPath (v : jsstring) (p : t) : t :=
  mk v (clipPathPath p) (clipPathPolygon p) (pathError p) (polygonError p)
     (polygonQuality p).

Definition setClipPathPath (v : jsstring) (p : t) : t :=
  mk (svgPath p) v (clipPathPolygon p) (pathError p) (polygonError p)
     (polygonQuality p).

Definition setClipPathPolygon (v : jsstring) (p : t) : t :=
  mk (svgPath p) (clipPathPath p) v (pathError p) (polygonError p)
     (polygonQuality p).

Definition setPathError (v : jsstring) (p : t) : t :=
  mk (svgPath p) (clipPathPath p) (clipPathPolygon p) v (polygonError p)
     (polygonQuality p).

Definition setPolygonError (v : jsstring) (p : t) : t :=
  mk (svgPath p) (clipPathPath p) (clipPathPolygon p) (pathError p) v
     (polygonQuality p).

Definition setPolygonQuality (v : Quality.t) (p : t) : t :=
  mk (svgPath p) (clipPathPath p) (clipPathPolygon p) (pathError p)
     (polygonError p) v.
End Panel.

(** ** The engine's part

    [Math.cos], [Math.sin], [Math.atan2] and the conversion of a Number to
    text belong to the JavaScript engine, which approximates the first three
    as it sees fit; the code is embedded over any choice of them. *)

Section Engine.

Variable Math_cos : float -> float.
Variable Math_sin : float -> float.
Variable Math_atan2 : float -> float -> float.
Variable Number_toString : float -> jsstring.

Local Open Scope float_scope.

Definition approximateArc (x1 y1 rx ry xAxisRotation : float)
    (largeArcFlag sweepFlag : bool) (x2 y2 : float) (segments : nat)
    : list Point.t :=
  if (rx =? 0) || (ry =? 0) then [Point.mk x2 y2]
  else
    let rx := abs rx in
    let ry := abs ry in
    let phi := (xAxisRotation * Num.Math_PI) / 180 in
    let cosPhi := Math_cos phi in
    let sinPhi := Math_sin phi in
    let dx := (x1 - x2) / 2 in
    let dy := (y1 - y2) / 2 in
    let x1p := cosPhi * dx + sinPhi * dy in
    let y1p := (- sinPhi) * dx + cosPhi * dy in
    let lambda := (x1p * x1p) / (rx * rx) + (y1p * y1p) / (ry * ry) in
    let rx := if 1 <? lambda then rx * sqrt lambda else rx in
    let ry := if 1 <? lambda then ry * sqrt lambda else ry in
    let sq :=
      Num.Math_max 0
        ((rx * rx * ry * ry - rx * rx * y1p * y1p - ry * ry * x1p * x1p) /
         (rx * rx * y1p * y1p + ry * ry * x1p * x1p)) in
    let sign := if xorb largeArcFlag sweepFlag then 1 else -1 in
    let cxp := sign * sqrt sq * (rx * y1p) / ry in
    let cyp := sign * sqrt sq * (- (ry * x1p)) / rx in
    let cx := cosPhi * cxp - sinPhi * cyp + (x1 + x2) / 2 in
    let cy := sinPhi * cxp + cosPhi * cyp + (y1 + y2) / 2 in
    let theta1 := Math_atan2 ((y1p - cyp) / ry) ((x1p - cxp) / rx) in
    let theta2 := Math_atan2 (((- y1p) - cyp) / ry) (((- x1p) - cxp) / rx) in
    let dTheta := theta2 - theta1 in
    let dTheta :=
      if sweepFlag && (dTheta <? 0) then dTheta + 2 * Num.Math_PI
      else if negb sweepFlag && (0 <? dTheta) then dTheta - 2 * Num.Math_PI
      else dTheta in
    sampleCurve segments (fun t =>
      let theta := theta1 + t * dTheta in
      let cosTheta := Math_cos theta in
      let sinTheta := Math_sin theta in
      Point.mk
        (cosPhi * rx * cosTheta - sinPhi * ry * sinTheta + cx)
        (sinPhi * rx * cosTheta + cosPhi * ry * sinTheta + cy)).

(** ** The path interpreter *)

Local Open Scope interp_scope.

Definition setCurrent (vx vy : float) : M unit :=
  modify (St.setCurrentX vx) ;; modify (St.setCurrentY vy).

(** The [for] loop and the four assignments that close each cubic case
    ([C], [c], [S], [s]); the curve starts at the cursor. *)
Definition cubicTo (segments : nat) (x1 y1 x2 y2 x y : float) : M unit :=
  s <- get ;;
  modify (St.push (sampleCurve segments
            (cubicBezier (St.currentX s) (St.currentY s) x1 y1 x2 y2 x y))) ;;
  modify (St.setLastControl x2 y2) ;;
  setCurrent x y.

(** The same for each quadratic case ([Q], [q], [T], [t]). *)
Definition quadraticTo (segments : nat) (x1 y1 x y : float) : M unit :=
  s <- get ;;
  modify (St.push (sampleCurve segments
            (quadraticBezier (St.currentX s) (St.currentY s) x1 y1 x y))) ;;
  modify (St.setLastControl x1 y1) ;;
  setCurrent x y.

(** The call of [approximateArc] and what follows it in the cases [A] and [a]. *)
Definition arcTo (segments : nat) (rx ry xAxisRotation largeArcFlag sweepFlag x y : float)
    : M unit :=
  s <- get ;;
  modify (St.push (approximateArc (St.currentX s) (St.currentY s) rx ry xAxisRotation
            (negb (largeArcFlag =? 0)) (negb (sweepFlag =? 0)) x y segments)) ;;
  setCurrent x y.

(** [lastCommand === 'C' || lastCommand === 'c' || ...]: the reflected control
    point of a smooth curve, or the cursor itself. *)
Definition reflected (family : list string) (s : St.t) : float * float :=
  if existsb (cmdIs (St.lastCommand s)) family
  then (2 * St.currentX s - St.lastControlX s, 2 * St.currentY s - St.lastControlY s)
  else (St.currentX s, St.currentY s).

Definition cubicFamily : list string := ["C"; "c"; "S"; "s"]%string.
Definition quadraticFamily : list string := ["Q"; "q"; "T"; "t"]%string.

(** The [switch (command)] of the loop body. *)
Definition execCommand (curveSegments arcSegments : nat) (command : jsstring)
    (isFirstCoordSet : bool) : M unit :=
  if cmdIs command "M" then
    vx <- getNumber (str "M command x-coordinate") ;;
    modify (St.setCurrentX vx) ;;
    vy <- getNumber (str "M command y-coordinate") ;;
    modify (St.setCurrentY vy) ;;
    (if isFirstCoordSet
     then modify (fun s => St.setSubpathStart (St.currentX s) (St.currentY s) s)
     else ret tt) ;;
    pushCurrent
  else if cmdIs command "m" then
    dx <- getNumber (str "m command x-coordinate") ;;
    dy <- getNumber (str "m command y-coordinate") ;;
    modify (fun s => St.setCurrentX (St.currentX s + dx) s) ;;
    modify (fun s => St.setCurrentY (St.currentY s + dy) s) ;;
    (if isFirstCoordSet
     then modify (fun s => St.setSubpathStart (St.currentX s) (St.currentY s) s)
     else ret tt) ;;
    pushCurrent
  else if cmdIs command "L" then
    vx <- getNumber (str "L command x-coordinate") ;;
    modify (St.setCurrentX vx) ;;
    vy <- getNumber (str "L command y-coordinate") ;;
    modify (St.setCurrentY vy) ;;
    pushCurrent
  else if cmdIs command "l" then
    dx <- getNumber (str "l command x-coordinate") ;;
    modify (fun s => St.setCurrentX (St.currentX s + dx) s) ;;
    dy <- getNumber (str "l command y-coordinate") ;;
    modify (fun s => St.setCurrentY (St.currentY s + dy) s) ;;
    pushCurrent
  else if cmdIs command "H" then
    vx <- getNumber (str "H command x-coordinate") ;;
    modify (St.setCurrentX vx) ;;
    pushCurrent
  else if cmdIs command "h" then
    dx <- getNumber (str "h command x-coordinate") ;;
    modify (fun s => St.setCurrentX (St.currentX s + dx) s) ;;
    pushCurrent
  else if cmdIs command "V" then
    vy <- getNumber (str "V command y-coordinate") ;;
    modify (St.setCurrentY vy) ;;
    pushCurrent
  else if cmdIs command "v" then
    dy <- getNumber (str "v command y-coordinate") ;;
    modify (fun s => St.setCurrentY (St.currentY s + dy) s) ;;
    pushCurrent
  else if cmdIs command "C" then
    x1 <- getNumber (str "C command control point 1 x") ;;
    y1 <- getNumber (str "C command control point 1 y") ;;
    x2 <- getNumber (str "C command control point 2 x") ;;
    y2 <- getNumber (str "C command control point 2 y") ;;
    x <- getNumber (str "C command end x") ;;
    y <- getNumber (str "C command end y") ;;
    cubicTo curveSegments x1 y1 x2 y2 x y
  else if cmdIs command "c" then
    dx1 <- getNumber (str "c command control point 1 x") ;;
    dy1 <- getNumber (str "c command control point 1 y") ;;
    dx2 <- getNumber (str "c command control point 2 x") ;;
    dy2 <- getNumber (str "c command control point 2 y") ;;
    dx <- getNumber (str "c command end x") ;;
    dy <- getNumber (str "c command end y") ;;
    s <- get ;;
    cubicTo curveSegments
      (St.currentX s + dx1) (St.currentY s + dy1)
      (St.currentX s + dx2) (St.currentY s + dy2)
      (St.currentX s + dx) (St.currentY s + dy)
  else if cmdIs command "S" then
    x2 <- getNumber (str "S command control point 2 x") ;;
    y2 <- getNumber (str "S command control point 2 y") ;;
    x <- getNumber (str "S command end x") ;;
    y <- getNumber (str "S command end y") ;;
    s <- get ;;
    let '(x1, y1) := reflected cubicFamily s in
    cubicTo curveSegments x1 y1 x2 y2 x y
  else if cmdIs command "s" then
    dx2 <- getNumber (str "s command control point 2 x") ;;
    dy2 <- getNumber (str "s command control point 2 y") ;;
    dx <- getNumber (str "s command end x") ;;
    dy <- getNumber (str "s command end y") ;;
    s <- get ;;
    let '(x1, y1) := reflected cubicFamily s in
    cubicTo curveSegments x1 y1
      (St.currentX s + dx2) (St.currentY s + dy2)
      (St.currentX s + dx) (St.currentY s + dy)
  else if cmdIs command "Q" then
    x1 <- getNumber (str "Q command control point x") ;;
    y1 <- getNumber (str "Q command control point y") ;;
    x <- getNumber (str "Q command end x") ;;
    y <- getNumber (str "Q command end y") ;;
    quadraticTo curveSegments x1 y1 x y
  else if cmdIs command "q" then
    dx1 <- getNumber (str "q command control point x") ;;
    dy1 <- getNumber (str "q command control point y") ;;
    dx <- getNumber (str "q command end x") ;;
    dy <- getNumber (str "q command end y") ;;
    s <- get ;;
    quadraticTo curveSegments
      (St.currentX s + dx1) (St.currentY s + dy1)
      (St.currentX s + dx) (St.currentY s + dy)
  else if cmdIs command "T" then
    x <- getNumber (str "T command end x") ;;
    y <- getNumber (str "T command end y") ;;
    s <- get ;;
    let '(x1, y1) := reflected quadraticFamily s in
    quadraticTo curveSegments x1 y1 x y
  else if cmdIs command "t" then
    dx <- getNumber (str "t command end x") ;;
    dy <- getNumber (str "t command end y") ;;
    s <- get ;;
    let '(x1, y1) := reflected quadraticFamily s in
    quadraticTo curveSegments x1 y1 (St.currentX s + dx) (St.currentY s + dy)
  else if cmdIs command "A" then
    rx <- getNumber (str "A command rx") ;;
    ry <- getNumber (str "A command ry") ;;
    xAxisRotation <- getNumber (str "A command x-axis-rotation") ;;
    largeArcFlag <- getNumber (str "A command large-arc-flag") ;;
    sweepFlag <- getNumber (str "A command sweep-flag") ;;
    x <- getNumber (str "A command end x") ;;
    y <- getNumber (str "A command end y") ;;
    arcTo arcSegments rx ry xAxisRotation largeArcFlag sweepFlag x y
  else if cmdIs command "a" then
    rx <- getNumber (str "a command rx") ;;
    ry <- getNumber (str "a command ry") ;;
    xAxisRotation <- getNumber (str "a command x-axis-rotation") ;;
    largeArcFlag <- getNumber (str "a command large-arc-flag") ;;
    sweepFlag <- getNumber (str "a command sweep-flag") ;;
    dx <- getNumber (str "a command end x") ;;
    dy <- getNumber (str "a command end y") ;;
    s <- get ;;
    arcTo arcSegments rx ry xAxisRotation largeArcFlag sweepFlag
      (St.currentX s + dx) (St.currentY s + dy)
  else if cmdIs command "Z" || cmdIs command "z" then
    s <- get ;;
    if negb (St.currentX s =? St.subpathStartX s)
       || negb (St.currentY s =? St.subpathStartY s)
    then
      modify (St.push [Point.mk (St.subpathStartX s) (St.subpathStartY s)]) ;;
      setCurrent (St.subpathStartX s) (St.subpathStartY s)
    else ret tt
  else throw (str "Unsupported command: " ++ command).

(** [i < tokens.length && tokens[i].type === 'number'] *)
Definition nextIsNumber (s : St.t) : bool :=
  match St.rest s with
  | Number _ :: _ => true
  | _ => false
  end.

Definition isMoveTo (command : jsstring) : bool :=
  cmdIs command "M" || cmdIs command "m".

(** The [do { ... } while (true)] that repeats one command. What the body
    throws is rethrown as it is, [isFirstCoordSet] is false from the first
    pass on, and each [continue] starts the body again. *)
Fixpoint commandLoop (fuel curveSegments arcSegments : nat) (command : jsstring)
    (isFirstCoordSet : bool) (s : St.t) : result St.t :=
  match fuel with
  | O => Spin
  | S fuel' =>
      bind (execCommand curveSegments arcSegments command isFirstCoordSet s)
        (fun '(_, s1) =>
           let s2 := St.setLastCommand command s1 in
           let isFirstCoordSet := false in
           if isMoveTo command && negb isFirstCoordSet then
             commandLoop fuel' curveSegments arcSegments command isFirstCoordSet s2
           else if nextIsNumber s2 then
             commandLoop fuel' curveSegments arcSegments command isFirstCoordSet s2
           else Ret s2)
  end.

(** The [while (i < tokens.length)] over the command groups. *)
Fixpoint tokenLoop (fuel curveSegments arcSegments : nat) (s : St.t) : result St.t :=
  match fuel with
  | O => Spin
  | S fuel' =>
      match St.rest s with
      | [] => Ret s
      | Number _ :: _ =>
          Throw (str "Expected command, got number at token " ++ decimal (St.i s))
      | Command command :: rest' =>
          bind (commandLoop fuel' curveSegments arcSegments command true
                  (St.setTokens (S (St.i s)) rest' s))
               (tokenLoop fuel' curveSegments arcSegments)
      end
  end.

(** ** The exported functions *)

Definition extractPointsFromPath (fuel : nat) (path : jsstring)
    (options : PolygonConversionOptions) : result (list Point.t) :=
  let curveSegments := orDefault (curveSegments options) 8%nat in
  let arcSegments := orDefault (arcSegments options) 16%nat in
  bind (tokenizePath path) (fun tokens =>
  bind (tokenLoop fuel curveSegments arcSegments (St.init tokens)) (fun s =>
    match St.absolutePoints s with
    | [] => Throw (str "No points extracted from path")
    | absolutePoints => Ret (normalize absolutePoints)
    end)).

(** [pathCommandRegex.test(path)] *)
Definition isValidSvgPath (path : jsstring) : bool := existsb isCommandLetter path.

Definition isEmpty (s : jsstring) : bool :=
  match s with
  | [] => true
  | _ :: _ => false
  end.

Definition convertSvgPathToClipPath (svgPath : jsstring) : result jsstring :=
  if isEmpty svgPath || isEmpty (trim svgPath) then
    Throw (str "SVG path cannot be empty")
  else
    let cleanPath := trim svgPath in
    if negb (isValidSvgPath cleanPath) then Throw (str "Invalid SVG path format")
    else Ret (str "clip-path: path('" ++ cleanPath ++ str "');").

(** [`${point.x}% ${point.y}%`] *)
Definition pointText (point : Point.t) : jsstring :=
  Number_toString (Point.x point) ++ str "% " ++ Number_toString (Point.y point) ++ str "%".

Definition insufficientPoints : jsstring :=
  str "Path must contain at least 3 points to create a polygon".

Definition conversionFailed (message : jsstring) : jsstring :=
  str "Failed to convert path to polygon: " ++ message.

Definition convertSvgPathToPolygon (fuel : nat) (svgPath : jsstring)
    (options : PolygonConversionOptions) : result jsstring :=
  if isEmpty svgPath || isEmpty (trim svgPath) then
    Throw (str "SVG path cannot be empty")
  else
    let cleanPath := trim svgPath in
    if negb (isValidSvgPath cleanPath) then Throw (str "Invalid SVG path format")
    else
      match
        bind (extractPointsFromPath fuel cleanPath options) (fun points =>
          if (List.length points <? 3)%nat then Throw insufficientPoints
          else
            let polygonPoints := join (str ", ") (map pointText points) in
            Ret (str "clip-path: polygon(" ++ polygonPoints ++ str ");"))
      with
      | Ret text => Ret text
      | Throw message => Throw (conversionFailed message)
      | Spin => Spin
      end.

(** ** The caller: [ConverterSection]

    [convertPath] runs the two converters in two [try] blocks of their own,
    the polygon one with the options of the quality preset. Whatever the
    converters throw is an [Error], so each [catch] shows the message. *)
Definition convertPath (fuel : nat) (path : jsstring) (quality : Quality.t)
    (panel : Panel.t) : result Panel.t :=
  if isEmpty (trim path) then
    Ret (Panel.setPolygonError []
           (Panel.setPathError []
              (Panel.setClipPathPolygon [] (Panel.setClipPathPath [] panel))))
  else
    bind
      (match convertSvgPathToClipPath path with
       | Ret pathResult =>
           Ret (Panel.setPathError [] (Panel.setClipPathPath pathResult panel))
       | Throw message =>
           Ret (Panel.setClipPathPath [] (Panel.setPathError message panel))
       | Spin => Spin
       end)
      (fun panel =>
         match convertSvgPathToPolygon fuel path (qualityMap quality) with
         | Ret polygonResult =>
             Ret (Panel.setPolygonError []
                    (Panel.setClipPathPolygon polygonResult panel))
         | Throw message =>
             Ret (Panel.setClipPathPolygon [] (Panel.setPolygonError message panel))
         | Spin => Spin
         end).

(** [setSvgPath(path); convertPath(path, polygonQuality)] *)
Definition handlePathChange (fuel : nat) (path : jsstring) (panel : Panel.t)
    : result Panel.t :=
  convertPath fuel path (Panel.polygonQuality panel) (Panel.setSvgPath path panel).

(** [setPolygonQuality(quality); if (svgPath.trim()) convertPath(svgPath, quality)] *)
Definition handleQualityChange (fuel : nat) (quality : Quality.t) (panel : Panel.t)
    : result Panel.t :=
  let panel' := Panel.setPolygonQuality quality panel in
  if negb (isEmpty (trim (Panel.svgPath panel)))
  then convertPath fuel (Panel.svgPath panel) quality panel'
  else Ret panel'.

(** * Properties *)

Arguments parseFloat : simpl never.
Arguments decimal : simpl never.
Arguments str : simpl never.
Arguments isSeparator : simpl never.
Arguments isCommandLetter : simpl never.
Arguments isNumberStart : simpl never.
Arguments isSign : simpl never.
Arguments isDigit : simpl never.
Arguments isInvalidNumStr : simpl never.
Arguments invalidNumberFormat : simpl never.
Arguments invalidNumericValue : simpl never.
Arguments unexpectedCharacter : simpl never.
Arguments isWhiteSpace : simpl never.
Arguments oneOf : simpl never.

(** Case analysis on the test of the conditional that hypothesis [H] starts with. *)
Ltac case_if H :=
  match type of H with
  | context [if ?b then _ else _] => destruct b eqn:?
  end.

(** ** Strings and the pass-through validator *)

Lemma trimStart_incl (s : jsstring) (c : N) : In c (trimStart s) -> In c s.
Proof.
  induction s as [|a s IH]; simpl; [tauto|].
  destruct (isWhiteSpace a); simpl; auto.
Qed.

Lemma trim_incl (s : jsstring) (c : N) : In c (trim s) -> In c s.
Proof.
  unfold trim, trimEnd. intros H.
  apply trimStart_incl. apply in_rev.
  apply trimStart_incl. now apply in_rev in H.
Qed.

Lemma trimStart_whitespace (s : jsstring) :
  forallb isWhiteSpace s = true -> trimStart s = [].
Proof.
  induction s as [|a s IH]; simpl; [reflexivity|].
  intros H. apply andb_prop in H as [-> H]. auto.
Qed.

Lemma trim_whitespace (s : jsstring) : forallb isWhiteSpace s = true -> trim s = [].
Proof.
  intros H. unfold trim, trimEnd. now rewrite (trimStart_whitespace s H).
Qed.

Lemma isValidSvgPath_iff (path : jsstring) :
  isValidSvgPath path = true <-> exists c, In c path /\ isCommandLetter c = true.
Proof. apply existsb_exists. Qed.

Lemma isEmpty_false (s : jsstring) (c : N) : In c s -> isEmpty s = false.
Proof. destruct s; simpl; [tauto | reflexivity]. Qed.

Lemma clipPath_of_valid (svgPath : jsstring) :
  (exists c, In c (trim svgPath) /\ isCommandLetter c = true) ->
  convertSvgPathToClipPath svgPath
  = Ret (str "clip-path: path('" ++ trim svgPath ++ str "');").
Proof.
  intros Hc. unfold convertSvgPathToClipPath.
  destruct Hc as (c & Hin & Hc).
  rewrite (isEmpty_false _ c (trim_incl _ _ Hin)), (isEmpty_false _ c Hin).
  simpl. replace (isValidSvgPath (trim svgPath)) with true; [reflexivity|].
  symmetry. apply isValidSvgPath_iff. eauto.
Qed.

Lemma clipPath_of_blank (svgPath : jsstring) :
  forallb isWhiteSpace svgPath = true ->
  convertSvgPathToClipPath svgPath = Throw (str "SVG path cannot be empty").
Proof.
  intros H. unfold convertSvgPathToClipPath.
  rewrite (trim_whitespace _ H). simpl. now rewrite orb_true_r.
Qed.

Lemma clipPath_of_letterless (svgPath : jsstring) :
  (forall c, In c svgPath -> isCommandLetter c = false) ->
  exists message, convertSvgPathToClipPath svgPath = Throw message.
Proof.
  intros H. unfold convertSvgPathToClipPath.
  destruct (isEmpty svgPath || isEmpty (trim svgPath)); [eauto|].
  destruct (isValidSvgPath (trim svgPath)) eqn:Hv; simpl; [|eauto].
  apply isValidSvgPath_iff in Hv as (c & Hin & Hc).
  rewrite (H c (trim_incl _ _ Hin)) in Hc. discriminate.
Qed.

(** C4. Whenever the trimmed input holds a command letter,
    [convertSvgPathToClipPath] returns the declaration with the trimmed input
    embedded unchanged; it throws on an empty or whitespace-only input and on
    an input without any command letter. *)
Theorem clipPath_passthrough (svgPath : jsstring) :
  ((exists c, In c (trim svgPath) /\ In c commandLetters) ->
   convertSvgPathToClipPath svgPath
   = Ret (str "clip-path: path('" ++ trim svgPath ++ str "');"))
  /\ (forallb isWhiteSpace svgPath = true ->
      exists message, convertSvgPathToClipPath svgPath = Throw message)
  /\ ((forall c, In c svgPath -> ~ In c commandLetters) ->
      exists message, convertSvgPathToClipPath svgPath = Throw message).
Proof.
  assert (Hletter : forall c, isCommandLetter c = true <-> In c commandLetters).
  { intros c. unfold isCommandLetter, oneOf. rewrite existsb_exists. split.
    - intros (x & Hx & Heq). apply N.eqb_eq in Heq. now subst.
    - intros Hc. exists c. split; [assumption | apply N.eqb_refl]. }
  repeat split.
  - intros (c & Hin & Hc). apply clipPath_of_valid. exists c. split; [assumption|].
    now apply Hletter.
  - intros H. rewrite (clipPath_of_blank _ H). eauto.
  - intros H. apply clipPath_of_letterless. intros c Hin.
    destruct (isCommandLetter c) eqn:Hc; [|reflexivity].
    apply Hletter in Hc. now apply H in Hc.
Qed.

(** ** The tokenizer *)

(* The literal -0.0005 below stands for the binary64 value nearest to it,
   -0x1.0624dd2f1a9fcp-11, as it does in JavaScript. *)
Set Warnings "-inexact-float".

(** C5. ["-.5e-3"] is one Number token of value -0.0005, ["1."] is the
    Number 1, and ["."] alone is rejected as an invalid number. *)
Theorem tokenize_number_formats :
  tokenizePath (str "-.5e-3") = Ret [Number (-0.0005)%float]
  /\ tokenizePath (str "1.") = Ret [Number 1%float]
  /\ tokenizePath (str ".") = Throw (str "Invalid number format: " ++ quoted (str ".")).
Proof.
  split; [|split]; vm_compute; reflexivity.
Qed.

Set Warnings "+inexact-float".

(** What [scanNumber] returns: the characters it took are appended to
    [numStr], the rest is what follows them, and [i] advanced by their count. *)
Lemma scanNumber_spec (n : nat) :
  forall cs i numStr hasDecimal hasExponent numStr' j rest,
    (List.length cs <= n)%nat ->
    scanNumber cs i numStr hasDecimal hasExponent = (numStr', j, rest) ->
    exists taken,
      numStr' = numStr ++ taken /\ cs = taken ++ rest
      /\ j = (i + List.length taken)%nat.
Proof.
  induction n as [|n IH]; intros cs i numStr hd he numStr' j rest Hlen H.
  - destruct cs; [|simpl in Hlen; lia]. simpl in H. inversion H; subst.
    exists []. rewrite app_nil_r. auto.
  - destruct cs as [|c cs']; simpl in H.
    { inversion H; subst. exists []. rewrite app_nil_r. auto. }
    simpl in Hlen.
    assert (Hone : forall hd' he',
      scanNumber cs' (S i) (numStr ++ [c]) hd' he' = (numStr', j, rest) ->
      exists taken, numStr' = numStr ++ taken /\ c :: cs' = taken ++ rest
                    /\ j = (i + List.length taken)%nat).
    { intros hd' he' H'. apply IH in H' as (taken & -> & -> & ->); [|lia].
      exists (c :: taken). rewrite <- app_assoc. simpl. repeat split. lia. }
    case_if H; [eauto|].
    case_if H; [eauto|].
    case_if H.
    + destruct cs' as [|s cs'']; [eauto|].
      case_if H; [|eauto].
      apply IH in H as (taken & -> & -> & ->); [|simpl in Hlen; lia].
      exists (c :: s :: taken). rewrite <- app_assoc. simpl. repeat split. lia.
    + inversion H; subst. exists []. rewrite app_nil_r. auto.
Qed.

(** A number never starts with a character the scan leaves in place. *)
Lemma scanNumber_progress (c : N) (cs : jsstring) (i : nat) :
  isNumberStart c = true -> isSign c = false ->
  exists hasDecimal,
    scanNumber (c :: cs) i [] false false = scanNumber cs (S i) [c] hasDecimal false.
Proof.
  unfold isNumberStart. intros Hs Hn. cbn [scanNumber].
  destruct (isDigit c) eqn:Hd; [now exists false|]. exists true.
  cbn [orb] in Hs.
  assert (Hdot : (c =? ch ".")%N = true).
  { unfold isSign, oneOf in *.
    change (str "+-.") with [ch "+"; ch "-"; ch "."] in Hs.
    change (str "+-") with [ch "+"; ch "-"] in Hn.
    cbn [existsb] in Hs, Hn.
    destruct (c =? ch "+")%N, (c =? ch "-")%N, (c =? ch ".")%N;
      try discriminate; reflexivity. }
  now rewrite Hdot.
Qed.

Lemma tokenizeLoop_total (fuel : nat) :
  forall cs i tokens, (List.length cs < fuel)%nat -> tokenizeLoop fuel cs i tokens <> Spin.
Proof.
  induction fuel as [|fuel IH]; intros cs i tokens Hlen; [lia|].
  destruct cs as [|char cs']; simpl; [discriminate|]. simpl in Hlen.
  destruct (isSeparator char); [apply IH; lia|].
  destruct (isCommandLetter char); [apply IH; lia|].
  destruct (isNumberStart char) eqn:Hstart; [|discriminate].
  assert (Hshort : forall numStr j rest,
    (if isSign char then scanNumber cs' (S i) [char] false false
     else scanNumber (char :: cs') i [] false false) = (numStr, j, rest) ->
    (List.length rest <= List.length cs')%nat).
  { intros numStr j rest H. destruct (isSign char) eqn:Hsign.
    - apply (scanNumber_spec _ _ _ _ _ _ _ _ _ (le_n _)) in H as (taken & _ & -> & _).
      rewrite length_app. lia.
    - destruct (scanNumber_progress char cs' i Hstart Hsign) as [hd E].
      rewrite E in H.
      apply (scanNumber_spec _ _ _ _ _ _ _ _ _ (le_n _)) in H as (taken & _ & -> & _).
      rewrite length_app. lia. }
  destruct (if isSign char then _ else _) as [[numStr j] rest] eqn:Hscan.
  specialize (Hshort _ _ _ eq_refl).
  destruct (isInvalidNumStr numStr); [discriminate|].
  destruct (is_nan (parseFloat numStr)); [discriminate|].
  apply IH. lia.
Qed.

(** The tokenizer always answers: it never needs more iterations than the
    path has characters. *)
Lemma tokenizePath_total (path : jsstring) : tokenizePath path <> Spin.
Proof. apply tokenizeLoop_total. lia. Qed.

(** The three shapes of a tokenizer error. *)
Definition tokenizeError (path message : jsstring) : Prop :=
  (exists i char,
      nth_error path i = Some char /\ message = unexpectedCharacter char i)
  \/ (exists before numStr after,
         path = before ++ numStr ++ after
         /\ (message = invalidNumberFormat numStr
             \/ message = invalidNumericValue numStr)).

Lemma tokenizeLoop_throws (path : jsstring) (fuel : nat) :
  forall before cs tokens message,
    path = before ++ cs ->
    tokenizeLoop fuel cs (List.length before) tokens = Throw message ->
    tokenizeError path message.
Proof.
  induction fuel as [|fuel IH]; intros before cs tokens message Hpath H;
    [discriminate|].
  destruct cs as [|char cs']; simpl in H; [discriminate|].
  assert (Hnext : path = (before ++ [char]) ++ cs')
    by (rewrite <- app_assoc; exact Hpath).
  assert (Hlen : S (List.length before) = List.length (before ++ [char]))
    by (rewrite length_app; simpl; lia).
  destruct (isSeparator char).
  { rewrite Hlen in H. eapply IH; eauto. }
  destruct (isCommandLetter char).
  { rewrite Hlen in H. eapply IH; eauto. }
  destruct (isNumberStart char) eqn:Hstart.
  - assert (Hscan : forall numStr j rest,
      (if isSign char then scanNumber cs' (S (List.length before)) [char] false false
       else scanNumber (char :: cs') (List.length before) [] false false)
      = (numStr, j, rest) ->
      exists before', path = before ++ numStr ++ rest
                      /\ path = before' ++ rest /\ j = List.length before').
    { intros numStr j rest Hs. destruct (isSign char).
      - apply (scanNumber_spec _ _ _ _ _ _ _ _ _ (le_n _)) in Hs
          as (taken & -> & -> & ->).
        exists (before ++ [char] ++ taken). subst path.
        rewrite !length_app. simpl. rewrite <- !app_assoc. simpl.
        repeat split. lia.
      - apply (scanNumber_spec _ _ _ _ _ _ _ _ _ (le_n _)) in Hs
          as (taken & -> & Hcs & ->).
        exists (before ++ taken). subst path. rewrite Hcs.
        rewrite !length_app, <- !app_assoc. simpl. repeat split. }
    destruct (if isSign char then _ else _) as [[numStr j] rest] eqn:Hs.
    destruct (Hscan _ _ _ eq_refl) as (before' & Hnum & Hrest & ->).
    destruct (isInvalidNumStr numStr).
    { inversion H; subst message. right. exists before, numStr, rest. auto. }
    destruct (is_nan (parseFloat numStr)).
    { inversion H; subst message. right. exists before, numStr, rest. auto. }
    eapply IH; eauto.
  - inversion H; subst message. left. exists (List.length before), char.
    split; [|reflexivity]. subst path.
    rewrite nth_error_app2, Nat.sub_diag by lia. reflexivity.
Qed.

Lemma tokenizePath_throws (path message : jsstring) :
  tokenizePath path = Throw message -> tokenizeError path message.
Proof. exact (tokenizeLoop_throws path _ [] path [] message eq_refl). Qed.

(** A command token is a command letter of the path. *)
Lemma tokenizeLoop_letters (fuel : nat) :
  forall cs i tokens result,
    tokenizeLoop fuel cs i tokens = Ret result ->
    forall command,
      In (Command command) result ->
      In (Command command) tokens
      \/ exists c, In c cs /\ isCommandLetter c = true /\ command = [c].
Proof.
  induction fuel as [|fuel IH]; intros cs i tokens result H command Hin;
    [discriminate|].
  destruct cs as [|char cs']; cbn [tokenizeLoop] in H.
  { inversion H; subst. now left. }
  assert (Htail : forall j tokens' rest,
    (forall c, In c rest -> In c (char :: cs')) ->
    tokenizeLoop fuel rest j tokens' = Ret result ->
    (In (Command command) tokens' ->
     In (Command command) tokens
     \/ exists c, In c (char :: cs') /\ isCommandLetter c = true /\ command = [c]) ->
    In (Command command) tokens
    \/ exists c, In c (char :: cs') /\ isCommandLetter c = true /\ command = [c]).
  { intros j tokens' rest Hsub Hloop Hold.
    destruct (IH _ _ _ _ Hloop command Hin) as [Hin' | (c & Hc & Hl & ->)];
      [auto | right; exists c; auto]. }
  destruct (isSeparator char).
  { eapply Htail; [| exact H | auto]. intros c Hc. now right. }
  destruct (isCommandLetter char) eqn:Hletter.
  { eapply Htail; [| exact H |]; [intros c Hc; now right|].
    intros Hin'. apply in_app_or in Hin' as [Hin' | [Heq | []]]; [auto|].
    inversion Heq; subst. right. exists char. repeat split; [now left | assumption]. }
  destruct (isNumberStart char); [|discriminate].
  destruct (if isSign char then _ else _) as [[numStr j] rest] eqn:Hscan.
  destruct (isInvalidNumStr numStr); [discriminate|].
  destruct (is_nan (parseFloat numStr)); [discriminate|].
  eapply Htail; [| exact H |].
  - intros c Hc. destruct (isSign char);
      apply (scanNumber_spec _ _ _ _ _ _ _ _ _ (le_n _)) in Hscan
        as (taken & _ & Hcs & _).
    + right. rewrite Hcs. apply in_or_app. now right.
    + rewrite Hcs. apply in_or_app. now right.
  - intros Hin'. apply in_app_or in Hin' as [Hin' | [Heq | []]]; [auto | discriminate].
Qed.

Lemma tokenizePath_letters (path : jsstring) (tokens : list Token) :
  tokenizePath path = Ret tokens ->
  forall command,
    In (Command command) tokens ->
    exists c, In c path /\ isCommandLetter c = true.
Proof.
  intros H command Hin.
  destruct (tokenizeLoop_letters _ _ _ _ _ H command Hin) as [[] | (c & Hc & Hl & _)].
  eauto.
Qed.

(** ** The interpreter: what a command reads *)

(** [reads n m]: the step [m] always answers, and when it returns it has
    consumed exactly [n] tokens, all of them numbers, and moved the index
    by [n]. *)
Definition reads {A : Type} (n : nat) (m : M A) : Prop :=
  forall s,
    m s <> Spin
    /\ forall a s',
        m s = Ret (a, s') ->
        exists values,
          List.length values = n
          /\ St.rest s = map Number values ++ St.rest s'
          /\ St.i s' = (St.i s + n)%nat.

Definition keepsTokens (f : St.t -> St.t) : Prop :=
  forall s, St.rest (f s) = St.rest s /\ St.i (f s) = St.i s.

Lemma reads_ret {A : Type} (a : A) : reads 0 (ret a).
Proof.
  intros s. split; [discriminate|]. intros a' s' H.
  inversion H; subst. exists []. simpl. auto.
Qed.

Lemma reads_get : reads 0 get.
Proof.
  intros s. split; [discriminate|]. intros a' s' H.
  inversion H; subst. exists []. simpl. auto.
Qed.

Lemma reads_throw {A : Type} (n : nat) (message : jsstring) : reads n (@throw A message).
Proof. intros s. split; discriminate. Qed.

Lemma reads_modify (f : St.t -> St.t) : keepsTokens f -> reads 0 (modify f).
Proof.
  intros Hf s. split; [discriminate|]. intros a s' H.
  inversion H; subst. destruct (Hf s) as [Hr Hi].
  exists []. simpl. rewrite Hr, Hi. auto.
Qed.

Lemma reads_getNumber (context : jsstring) : reads 1 (getNumber context).
Proof.
  intros s. unfold getNumber.
  destruct (St.rest s) as [|[c|v] rest'] eqn:Hrest;
    (split; [discriminate|]); intros a s' H; try discriminate.
  inversion H; subst. exists [a]. simpl. repeat split. lia.
Qed.

Lemma reads_bind {A B : Type} (n k : nat) (m : M A) (f : A -> M B) :
  reads n m -> (forall a, reads k (f a)) -> reads (n + k) (mbind m f).
Proof.
  intros Hm Hf s. destruct (Hm s) as [Hspin Hret]. unfold mbind, bind.
  destruct (m s) as [[a s1]| |] eqn:Hms; [| split; discriminate | contradiction].
  destruct (Hf a s1) as [Hspin' Hret']. split; [assumption|].
  intros b s' H.
  destruct (Hret _ _ eq_refl) as (v1 & Hl1 & Hr1 & Hi1).
  destruct (Hret' _ _ H) as (v2 & Hl2 & Hr2 & Hi2).
  exists (v1 ++ v2). rewrite length_app, map_app, <- app_assoc, <- Hr2.
  repeat split; [lia | assumption | lia].
Qed.

Lemma reads_next {A B : Type} (k : nat) (m : M A) (f : A -> M B) :
  reads 1 m -> (forall a, reads k (f a)) -> reads (S k) (mbind m f).
Proof. apply (reads_bind 1 k). Qed.

Lemma reads_then {A B : Type} (k : nat) (m : M A) (f : A -> M B) :
  reads 0 m -> (forall a, reads k (f a)) -> reads k (mbind m f).
Proof. apply (reads_bind 0 k). Qed.

Lemma keepsTokens_setters :
  (forall v, keepsTokens (St.setCurrentX v))
  /\ (forall v, keepsTokens (St.setCurrentY v))
  /\ (forall vx vy, keepsTokens (St.setLastControl vx vy))
  /\ (forall c, keepsTokens (St.setLastCommand c))
  /\ (forall ps, keepsTokens (St.push ps)).
Proof. repeat split. Qed.

(** Builds a [reads] fact along the structure of a step. *)
Ltac reads_step :=
  lazymatch goal with
  | |- reads _ (ret _) => apply reads_ret
  | |- reads _ get => apply reads_get
  | |- reads _ (throw _) => apply reads_throw
  | |- reads _ (getNumber _) => apply reads_getNumber
  | |- reads _ (modify _) => apply reads_modify; intros ?; split; reflexivity
  | |- reads _ (mbind (getNumber _) _) =>
      apply reads_next; [apply reads_getNumber | intros ?]
  | |- reads _ (mbind _ _) => apply reads_then; [ | intros ?]
  | |- reads _ (if ?b then _ else _) => destruct b
  | |- reads _ (let '(_, _) := ?p in _) => destruct p
  | |- reads _ (setCurrent _ _) => unfold setCurrent
  | |- reads _ pushCurrent => unfold pushCurrent
  | |- reads _ (cubicTo _ _ _ _ _ _ _) => unfold cubicTo
  | |- reads _ (quadraticTo _ _ _ _ _) => unfold quadraticTo
  | |- reads _ (arcTo _ _ _ _ _ _ _ _) => unfold arcTo
  end.

(** The number of operands of each command (0 for [Z], [z] and for a
    letter outside the command set, which throws). *)
Definition arity (command : jsstring) : nat :=
  if cmdIs command "M" then 2 else if cmdIs command "m" then 2
  else if cmdIs command "L" then 2 else if cmdIs command "l" then 2
  else if cmdIs command "H" then 1 else if cmdIs command "h" then 1
  else if cmdIs command "V" then 1 else if cmdIs command "v" then 1
  else if cmdIs command "C" then 6 else if cmdIs command "c" then 6
  else if cmdIs command "S" then 4 else if cmdIs command "s" then 4
  else if cmdIs command "Q" then 4 else if cmdIs command "q" then 4
  else if cmdIs command "T" then 2 else if cmdIs command "t" then 2
  else if cmdIs command "A" then 7 else if cmdIs command "a" then 7
  else 0.

Lemma execCommand_reads (curveSegments arcSegments : nat) (command : jsstring)
    (isFirstCoordSet : bool) :
  reads (arity command) (execCommand curveSegments arcSegments command isFirstCoordSet).
Proof.
  unfold execCommand, arity.
  repeat match goal with
         | |- reads (if cmdIs command ?l then _ else _) _ =>
             destruct (cmdIs command l); [repeat reads_step | ]
         end.
  repeat reads_step.
Qed.

Arguments execCommand : simpl never.

Lemma jsstring_eqb_eq (a b : jsstring) : jsstring_eqb a b = true <-> a = b.
Proof.
  revert b. induction a as [|x a IH]; intros [|y b]; simpl;
    try (split; [discriminate | discriminate]); [tauto|].
  rewrite andb_true_iff, N.eqb_eq, IH. split.
  - intros [-> ->]. reflexivity.
  - intros H. inversion H. auto.
Qed.

Lemma cmdIs_eq (command : jsstring) (letter : string) :
  cmdIs command letter = true <-> command = str letter.
Proof. apply jsstring_eqb_eq. Qed.

(** [Z] and [z] *)
Definition isClose (command : jsstring) : bool :=
  cmdIs command "Z" || cmdIs command "z".

Lemma isMoveTo_cases (command : jsstring) :
  isMoveTo command = true -> command = str "M" \/ command = str "m".
Proof.
  unfold isMoveTo. rewrite orb_true_iff, !cmdIs_eq. tauto.
Qed.

Lemma isClose_cases (command : jsstring) :
  isClose command = true -> command = str "Z" \/ command = str "z".
Proof.
  unfold isClose. rewrite orb_true_iff, !cmdIs_eq. tauto.
Qed.

Lemma arity_isClose (command : jsstring) : isClose command = true -> arity command = 0%nat.
Proof. intros H. destruct (isClose_cases _ H) as [-> | ->]; reflexivity. Qed.

(** A letter outside the command set reaches the [default] case. *)
Lemma execCommand_unsupported (curveSegments arcSegments : nat) (command : jsstring)
    (isFirstCoordSet : bool) (s : St.t) :
  arity command = 0%nat -> isClose command = false ->
  execCommand curveSegments arcSegments command isFirstCoordSet s
  = Throw (str "Unsupported command: " ++ command).
Proof.
  unfold execCommand, arity, isClose. intros Ha Hc.
  repeat match type of Ha with
         | (if cmdIs command ?l then _ else _) = _ =>
             destruct (cmdIs command l); [discriminate|]
         end.
  rewrite Hc. reflexivity.
Qed.

(** ** The interpreter: the two loops *)

(** The repetition of a moveto never ends by itself: each pass goes back to
    the [M]/[m] case, so the loop leaves only through an exception. *)
Lemma commandLoop_moveTo (curveSegments arcSegments : nat) (command : jsstring) :
  isMoveTo command = true ->
  forall fuel isFirstCoordSet s s',
    commandLoop fuel curveSegments arcSegments command isFirstCoordSet s <> Ret s'.
Proof.
  intros Hm. induction fuel as [|fuel IH]; intros first s s'; [discriminate|].
  cbn [commandLoop]. unfold bind.
  destruct (execCommand _ _ _ _ s) as [[u s1]| |]; try discriminate.
  rewrite Hm. cbn [negb andb]. apply IH.
Qed.

(** When the repetition of a command returns, it has consumed numbers only,
    a command or the end of the tokens comes next, and the command is not a
    moveto. *)
Lemma commandLoop_returns (curveSegments arcSegments : nat) (command : jsstring) :
  forall fuel isFirstCoordSet s s',
    commandLoop fuel curveSegments arcSegments command isFirstCoordSet s = Ret s' ->
    isMoveTo command = false
    /\ nextIsNumber s' = false
    /\ exists values,
         St.rest s = map Number values ++ St.rest s'
         /\ St.i s' = (St.i s + List.length values)%nat.
Proof.
  induction fuel as [|fuel IH]; intros first s s' H; [discriminate|].
  cbn [commandLoop] in H. unfold bind in H.
  destruct (execCommand_reads curveSegments arcSegments command first s) as [_ Hreads].
  destruct (execCommand _ _ _ _ s) as [[u s1]| |]; try discriminate.
  destruct (Hreads _ _ eq_refl) as (v1 & Hl1 & Hr1 & Hi1).
  assert (Hnext : forall first',
    commandLoop fuel curveSegments arcSegments command first'
      (St.setLastCommand command s1) = Ret s' ->
    isMoveTo command = false /\ nextIsNumber s' = false
    /\ exists values, St.rest s = map Number values ++ St.rest s'
                      /\ St.i s' = (St.i s + List.length values)%nat).
  { intros first' H'. apply IH in H' as (Hm & Hn & v2 & Hr2 & Hi2).
    repeat split; try assumption. exists (v1 ++ v2).
    rewrite map_app, <- app_assoc, length_app. simpl in Hr2, Hi2.
    rewrite <- Hr2. split; [assumption | lia]. }
  destruct (isMoveTo command) eqn:Hm; cbn [negb andb] in H; [eauto|].
  destruct (nextIsNumber (St.setLastCommand command s1)) eqn:Hn; [eauto|].
  inversion H; subst s'. repeat split; try assumption.
  exists v1. simpl. split; [assumption | lia].
Qed.

(** When the interpretation returns, no moveto was among the tokens. *)
Lemma tokenLoop_returns (curveSegments arcSegments : nat) :
  forall fuel s s',
    tokenLoop fuel curveSegments arcSegments s = Ret s' ->
    forall command, In (Command command) (St.rest s) -> isMoveTo command = false.
Proof.
  induction fuel as [|fuel IH]; intros s s' H command Hin; [discriminate|].
  cbn [tokenLoop] in H.
  destruct (St.rest s) as [|[c|v] rest'] eqn:Hrest; try discriminate;
    [destruct Hin|].
  unfold bind in H.
  destruct (commandLoop _ _ _ c true _) as [s1| |] eqn:Hloop; try discriminate.
  apply commandLoop_returns in Hloop as (Hm & _ & values & Hr & _).
  simpl in Hr. destruct Hin as [Heq | Hin].
  - inversion Heq; subst. assumption.
  - rewrite Hr in Hin. apply in_app_or in Hin as [Hin | Hin].
    + apply in_map_iff in Hin as (v & Hv & _). discriminate.
    + eapply IH; eauto.
Qed.

(** *** Termination of the loops *)

Definition isCloseToken (t : Token) : bool :=
  match t with
  | Command c => isClose c
  | Number _ => false
  end.

Definition startsWithNumber (tokens : list Token) : bool :=
  match tokens with
  | Number _ :: _ => true
  | _ => false
  end.

Definition isMoveToToken (t : Token) : bool :=
  match t with
  | Command c => isMoveTo c
  | Number _ => false
  end.

(** Some [Z] or [z] token is directly followed by a number token, before
    the first [M] or [m] token if there is one. *)
Fixpoint closeNumberBeforeMoveTo (tokens : list Token) : bool :=
  match tokens with
  | [] => false
  | t :: rest =>
      if isMoveToToken t then false
      else (isCloseToken t && startsWithNumber rest) || closeNumberBeforeMoveTo rest
  end.

Lemma closeNumberBeforeMoveTo_numbers (values : list float) (tokens : list Token) :
  closeNumberBeforeMoveTo (map Number values ++ tokens)
  = closeNumberBeforeMoveTo tokens.
Proof. induction values as [|v values IH]; simpl; auto. Qed.

(** Decides the tests of the [switch] once the command letter is known. *)
Ltac eval_cmdIs :=
  repeat match goal with
         | |- context [cmdIs (str ?a) ?b] =>
             let v := eval vm_compute in (cmdIs (str a) b) in
             change (cmdIs (str a) b) with v
         end;
  cbn [orb andb negb].

(** The effect of one [Z] or [z]. *)
Definition closePath (s : St.t) : St.t :=
  if negb (St.currentX s =? St.subpathStartX s)%float
     || negb (St.currentY s =? St.subpathStartY s)%float
  then
    St.setCurrentY (St.subpathStartY s)
      (St.setCurrentX (St.subpathStartX s)
         (St.push [Point.mk (St.subpathStartX s) (St.subpathStartY s)] s))
  else s.

Lemma execCommand_close (curveSegments arcSegments : nat) (command : jsstring)
    (isFirstCoordSet : bool) (s : St.t) :
  isClose command = true ->
  execCommand curveSegments arcSegments command isFirstCoordSet s
  = Ret (tt, closePath s).
Proof.
  intros Hc. unfold execCommand, closePath.
  destruct (isClose_cases _ Hc) as [-> | ->]; eval_cmdIs;
    unfold mbind, bind, get, setCurrent, mbind, bind, modify, ret;
    destruct (negb _ || negb _); reflexivity.
Qed.

Lemma closePath_keeps_tokens (s : St.t) :
  St.rest (closePath s) = St.rest s /\ St.i (closePath s) = St.i s.
Proof. unfold closePath. destruct (negb _ || negb _); split; reflexivity. Qed.

(** A close-path that a number follows repeats for ever: the pass consumes
    nothing, and the test for one more coordinate set holds again. *)
Lemma commandLoop_close_spins (curveSegments arcSegments : nat) (command : jsstring) :
  isClose command = true ->
  forall fuel isFirstCoordSet s,
    nextIsNumber s = true ->
    commandLoop fuel curveSegments arcSegments command isFirstCoordSet s = Spin.
Proof.
  intros Hc. induction fuel as [|fuel IH]; intros first s Hn; [reflexivity|].
  cbn [commandLoop]. rewrite (execCommand_close _ _ _ _ _ Hc). cbn [bind].
  assert (Hn1 : nextIsNumber (St.setLastCommand command (closePath s)) = true).
  { unfold nextIsNumber in *. simpl.
    now rewrite (proj1 (closePath_keeps_tokens s)). }
  rewrite Hn1. destruct (isMoveTo command && negb false); now apply IH.
Qed.

Lemma commandLoop_answers (curveSegments arcSegments : nat) (command : jsstring) :
  forall fuel isFirstCoordSet s,
    (List.length (St.rest s) < fuel)%nat ->
    (isClose command = true -> nextIsNumber s = false) ->
    commandLoop fuel curveSegments arcSegments command isFirstCoordSet s <> Spin.
Proof.
  induction fuel as [|fuel IH]; intros first s Hlen Hclose; [lia|].
  cbn [commandLoop]. unfold bind.
  destruct (execCommand_reads curveSegments arcSegments command first s) as [Hspin Hreads].
  destruct (execCommand _ _ _ _ s) as [[u s1]| |] eqn:Hexec;
    [| discriminate | contradiction].
  cbv beta iota zeta.
  destruct (Hreads _ _ eq_refl) as (values & Hl & Hr & _).
  assert (Hlen1 : List.length (St.rest s) = (arity command + List.length (St.rest s1))%nat).
  { rewrite Hr, length_app, length_map. lia. }
  destruct (isClose command) eqn:Hc.
  - (* Z or z: nothing was read and no number follows *)
    rewrite (arity_isClose _ Hc) in Hl. destruct values; [|discriminate].
    simpl in Hr.
    assert (Hm : isMoveTo command = false)
      by (destruct (isClose_cases _ Hc) as [-> | ->]; reflexivity).
    assert (Hn1 : nextIsNumber (St.setLastCommand command s1) = false).
    { unfold nextIsNumber in *. simpl. rewrite <- Hr. now apply Hclose. }
    rewrite Hm, Hn1. discriminate.
  - destruct (arity command) as [|k] eqn:Ha.
    { rewrite (execCommand_unsupported _ _ _ _ _ Ha Hc) in Hexec. discriminate. }
    assert (Hrec : forall first',
      commandLoop fuel curveSegments arcSegments command first'
        (St.setLastCommand command s1) <> Spin).
    { intros first'. apply IH; [simpl; lia | discriminate]. }
    destruct (isMoveTo command && negb false); [apply Hrec|].
    destruct (nextIsNumber (St.setLastCommand command s1));
      [apply Hrec | discriminate].
Qed.

Lemma tokenLoop_answers (curveSegments arcSegments : nat) :
  forall fuel s,
    (List.length (St.rest s) < fuel)%nat ->
    closeNumberBeforeMoveTo (St.rest s) = false ->
    tokenLoop fuel curveSegments arcSegments s <> Spin.
Proof.
  induction fuel as [|fuel IH]; intros s Hlen Hno; [lia|].
  cbn [tokenLoop].
  destruct (St.rest s) as [|[c|v] rest'] eqn:Hrest; try discriminate.
  simpl in Hlen, Hno. unfold bind.
  destruct (commandLoop _ _ _ c true _) as [s1| |] eqn:Hloop; [| discriminate |].
  - apply commandLoop_returns in Hloop as (Hm & _ & values & Hr & _).
    simpl in Hr. rewrite Hm in Hno. apply orb_false_elim in Hno as [_ Hno].
    apply IH.
    + rewrite Hr, length_app in Hlen. lia.
    + rewrite Hr in Hno. now rewrite closeNumberBeforeMoveTo_numbers in Hno.
  - exfalso. revert Hloop. apply commandLoop_answers; [simpl; lia|].
    simpl. intros Hc.
    assert (Hm : isMoveTo c = false)
      by (destruct (isClose_cases _ Hc) as [-> | ->]; reflexivity).
    rewrite Hm, Hc in Hno. apply orb_false_elim in Hno as [Hhead _].
    unfold nextIsNumber. simpl. unfold startsWithNumber in Hhead.
    destruct rest' as [|[c'|v'] rest'']; try reflexivity. discriminate.
Qed.

(** *** More iterations change no answer *)

Lemma commandLoop_more_fuel (curveSegments arcSegments : nat) (command : jsstring) :
  forall fuel fuel' isFirstCoordSet s,
    (fuel <= fuel')%nat ->
    commandLoop fuel curveSegments arcSegments command isFirstCoordSet s <> Spin ->
    commandLoop fuel' curveSegments arcSegments command isFirstCoordSet s
    = commandLoop fuel curveSegments arcSegments command isFirstCoordSet s.
Proof.
  induction fuel as [|fuel IH]; intros fuel' first s Hle H; [now elim H|].
  destruct fuel' as [|fuel']; [lia|]. cbn [commandLoop] in *. unfold bind in *.
  destruct (execCommand _ _ _ _ s) as [[u s1]| |]; try reflexivity.
  cbv beta iota zeta in *.
  destruct (isMoveTo command && negb false); [apply IH; [lia | assumption]|].
  destruct (nextIsNumber (St.setLastCommand command s1));
    [apply IH; [lia | assumption] | reflexivity].
Qed.

Lemma tokenLoop_more_fuel (curveSegments arcSegments : nat) :
  forall fuel fuel' s,
    (fuel <= fuel')%nat ->
    tokenLoop fuel curveSegments arcSegments s <> Spin ->
    tokenLoop fuel' curveSegments arcSegments s
    = tokenLoop fuel curveSegments arcSegments s.
Proof.
  induction fuel as [|fuel IH]; intros fuel' s Hle H; [now elim H|].
  destruct fuel' as [|fuel']; [lia|]. cbn [tokenLoop] in *.
  destruct (St.rest s) as [|[c|v] rest']; try reflexivity.
  unfold bind in *.
  destruct (commandLoop fuel _ _ c true _) as [s1| |] eqn:Hloop.
  - rewrite (commandLoop_more_fuel _ _ _ fuel fuel') by (try lia; congruence).
    rewrite Hloop. apply IH; [lia | assumption].
  - rewrite (commandLoop_more_fuel _ _ _ fuel fuel') by (try lia; congruence).
    now rewrite Hloop.
  - now elim H.
Qed.

(** An answer of [convertSvgPathToPolygon] does not depend on the number of
    iterations it was allowed, once they suffice. *)
Lemma convert_more_fuel (fuel fuel' : nat) (svgPath : jsstring)
    (options : PolygonConversionOptions) :
  (fuel <= fuel')%nat ->
  convertSvgPathToPolygon fuel svgPath options <> Spin ->
  convertSvgPathToPolygon fuel' svgPath options
  = convertSvgPathToPolygon fuel svgPath options.
Proof.
  unfold convertSvgPathToPolygon. intros Hle H.
  destruct (isEmpty svgPath || isEmpty (trim svgPath)); [reflexivity|].
  destruct (negb (isValidSvgPath (trim svgPath))); [reflexivity|].
  unfold extractPointsFromPath, bind in *.
  destruct (tokenizePath (trim svgPath)) as [tokens| |]; try reflexivity.
  destruct (tokenLoop fuel _ _ _) as [s| |] eqn:Hloop.
  - rewrite (tokenLoop_more_fuel _ _ fuel fuel') by (try lia; congruence).
    now rewrite Hloop.
  - rewrite (tokenLoop_more_fuel _ _ fuel fuel') by (try lia; congruence).
    now rewrite Hloop.
  - now elim H.
Qed.

(** ** The polygon conversion and the moveto *)

Lemma convert_returns (fuel : nat) (svgPath : jsstring)
    (options : PolygonConversionOptions) (text : jsstring) :
  convertSvgPathToPolygon fuel svgPath options = Ret text ->
  exists points,
    extractPointsFromPath fuel (trim svgPath) options = Ret points.
Proof.
  unfold convertSvgPathToPolygon. intros H.
  case_if H; [discriminate|]. case_if H; [discriminate|].
  unfold bind in H.
  destruct (extractPointsFromPath fuel (trim svgPath) options); try discriminate.
  eauto.
Qed.

Lemma extract_returns (fuel : nat) (path : jsstring)
    (options : PolygonConversionOptions) (points : list Point.t) :
  extractPointsFromPath fuel path options = Ret points ->
  exists tokens s,
    tokenizePath path = Ret tokens
    /\ tokenLoop fuel (orDefault (curveSegments options) 8%nat)
         (orDefault (arcSegments options) 16%nat) (St.init tokens) = Ret s
    /\ St.absolutePoints s <> []
    /\ points = normalize (St.absolutePoints s).
Proof.
  unfold extractPointsFromPath, bind. intros H.
  destruct (tokenizePath path) as [tokens| |]; try discriminate.
  destruct (tokenLoop _ _ _ _) as [s| |] eqn:Hloop; try discriminate.
  exists tokens, s. destruct (St.absolutePoints s) eqn:Hp; [discriminate|].
  inversion H. repeat split; [assumption | discriminate].
Qed.

Lemma convert_spins (fuel : nat) (svgPath : jsstring) (options : PolygonConversionOptions) :
  convertSvgPathToPolygon fuel svgPath options = Spin ->
  exists tokens,
    tokenizePath (trim svgPath) = Ret tokens
    /\ tokenLoop fuel (orDefault (curveSegments options) 8%nat)
         (orDefault (arcSegments options) 16%nat) (St.init tokens) = Spin.
Proof.
  unfold convertSvgPathToPolygon. intros H.
  case_if H; [discriminate|]. case_if H; [discriminate|].
  unfold extractPointsFromPath, bind in H.
  pose proof (tokenizePath_total (trim svgPath)) as Htotal.
  destruct (tokenizePath (trim svgPath)) as [tokens| |]; try discriminate;
    [|contradiction].
  exists tokens. split; [reflexivity|].
  destruct (tokenLoop _ _ _ _) as [s| |]; try reflexivity; try discriminate.
  destruct (St.absolutePoints s); [discriminate|].
  case_if H; discriminate.
Qed.

(** C1: what the code does on the square. The repetition of [M] asks for one
    more coordinate pair and finds the [L]. *)
Theorem square_throws (fuel : nat) :
  convertSvgPathToPolygon (3 + fuel)%nat (str "M 10 10 L 90 10 L 90 90 L 10 90 Z")
    defaultOptions
  = Throw (str "Failed to convert path to polygon: Expected number for M command x-coordinate").
Proof. vm_compute. reflexivity. Qed.

(** C3: what the code does on the single point. The same exception
    comes before the count of the points. *)
Theorem single_point_throws (fuel : nat) :
  convertSvgPathToPolygon (3 + fuel)%nat (str "M10,10Z") defaultOptions
  = Throw (str "Failed to convert path to polygon: Expected number for M command x-coordinate")
  /\ str "Failed to convert path to polygon: Expected number for M command x-coordinate"
     <> conversionFailed insufficientPoints.
Proof. split; vm_compute; [reflexivity | discriminate]. Qed.

(** With the moveto written as a lineto the same square is converted: the
    five points in traversal order, the last one closing the path. *)
Lemma square_by_lineto (fuel : nat) :
  extractPointsFromPath (6 + fuel)%nat (str "L 10 10 L 90 10 L 90 90 L 10 90 L 10 10")
    defaultOptions
  = Ret [Point.mk 0 0; Point.mk 100 0; Point.mk 100 100; Point.mk 0 100; Point.mk 0 0].
Proof. vm_compute. reflexivity. Qed.

(** ** Closing a subpath *)

(** [currentX === subpathStartX && currentY === subpathStartY] *)
Definition cursorAtStart (s : St.t) : bool :=
  (St.currentX s =? St.subpathStartX s) && (St.currentY s =? St.subpathStartY s).

(** C8. A [Z] or [z] leaves the subpath start as it is; with the cursor on
    the subpath start it changes nothing at all, and otherwise it appends the
    one point of the subpath start and moves the cursor there. *)
Theorem close_path_step (curveSegments arcSegments : nat) (command : jsstring)
    (isFirstCoordSet : bool) (s : St.t) :
  command = str "Z" \/ command = str "z" ->
  exists s',
    execCommand curveSegments arcSegments command isFirstCoordSet s = Ret (tt, s')
    /\ St.subpathStartX s' = St.subpathStartX s
    /\ St.subpathStartY s' = St.subpathStartY s
    /\ (cursorAtStart s = true -> s' = s)
    /\ (cursorAtStart s = false ->
        St.absolutePoints s'
        = St.absolutePoints s ++ [Point.mk (St.subpathStartX s) (St.subpathStartY s)]
        /\ St.currentX s' = St.subpathStartX s
        /\ St.currentY s' = St.subpathStartY s).
Proof.
  intros Hc. exists (closePath s). split.
  - apply execCommand_close. destruct Hc as [-> | ->]; reflexivity.
  - unfold closePath, cursorAtStart.
    destruct (St.currentX s =? St.subpathStartX s),
             (St.currentY s =? St.subpathStartY s);
      cbn; repeat split; intros; try discriminate; reflexivity.
Qed.

(** ** Degenerate arcs *)

Lemma approximateArc_degenerate (x1 y1 rx ry xAxisRotation : float)
    (largeArcFlag sweepFlag : bool) (x2 y2 : float) (segments : nat) :
  (rx =? 0) = true \/ (ry =? 0) = true ->
  approximateArc x1 y1 rx ry xAxisRotation largeArcFlag sweepFlag x2 y2 segments
  = [Point.mk x2 y2].
Proof.
  intros H. unfold approximateArc.
  destruct H as [-> | ->]; [reflexivity | now rewrite orb_true_r].
Qed.

(** The state after [k] operands were read. *)
Definition afterOperands (k : nat) (rest' : list Token) (s : St.t) : St.t :=
  St.setTokens (k + St.i s) rest' s.

Lemma arc_absolute_runs (curveSegments arcSegments : nat) (isFirstCoordSet : bool)
    (s : St.t) (rx ry rot large sweep vx vy : float) (rest' : list Token) :
  St.rest s = map Number [rx; ry; rot; large; sweep; vx; vy] ++ rest' ->
  execCommand curveSegments arcSegments (str "A") isFirstCoordSet s
  = arcTo arcSegments rx ry rot large sweep vx vy (afterOperands 7 rest' s).
Proof.
  intros Hrest. unfold execCommand. eval_cmdIs.
  unfold mbind at 1. unfold getNumber at 1. rewrite Hrest. cbn. reflexivity.
Qed.

Lemma arc_relative_runs (curveSegments arcSegments : nat) (isFirstCoordSet : bool)
    (s : St.t) (rx ry rot large sweep dx dy : float) (rest' : list Token) :
  St.rest s = map Number [rx; ry; rot; large; sweep; dx; dy] ++ rest' ->
  execCommand curveSegments arcSegments (str "a") isFirstCoordSet s
  = arcTo arcSegments rx ry rot large sweep
      (St.currentX s + dx) (St.currentY s + dy) (afterOperands 7 rest' s).
Proof.
  intros Hrest. unfold execCommand. eval_cmdIs.
  unfold mbind at 1. unfold getNumber at 1. rewrite Hrest. cbn. reflexivity.
Qed.

Lemma arcTo_degenerate (segments : nat) (rx ry rot large sweep vx vy : float)
    (s : St.t) :
  (rx =? 0) = true \/ (ry =? 0) = true ->
  exists s',
    arcTo segments rx ry rot large sweep vx vy s = Ret (tt, s')
    /\ St.absolutePoints s' = St.absolutePoints s ++ [Point.mk vx vy]
    /\ St.currentX s' = vx /\ St.currentY s' = vy.
Proof.
  intros H. unfold arcTo, setCurrent, mbind, bind, get, modify.
  rewrite (approximateArc_degenerate _ _ _ _ _ _ _ _ _ _ H).
  eexists. split; [reflexivity|]. cbn. auto.
Qed.

(** C9. With [rx] or [ry] equal to zero the arc flattener returns the one
    point of the arc's end, and nothing is thrown: the commands [A] and [a]
    append that point and move the cursor to it. *)
Theorem degenerate_arc_is_a_line (curveSegments arcSegments : nat)
    (isFirstCoordSet : bool) (s : St.t) (rx ry rot large sweep vx vy : float)
    (rest' : list Token) :
  (rx =? 0) = true \/ (ry =? 0) = true ->
  St.rest s = map Number [rx; ry; rot; large; sweep; vx; vy] ++ rest' ->
  (forall x1 y1 largeArcFlag sweepFlag segments,
      approximateArc x1 y1 rx ry rot largeArcFlag sweepFlag vx vy segments
      = [Point.mk vx vy])
  /\ (exists s',
        execCommand curveSegments arcSegments (str "A") isFirstCoordSet s = Ret (tt, s')
        /\ St.absolutePoints s' = St.absolutePoints s ++ [Point.mk vx vy]
        /\ St.currentX s' = vx /\ St.currentY s' = vy)
  /\ (exists s',
        execCommand curveSegments arcSegments (str "a") isFirstCoordSet s = Ret (tt, s')
        /\ St.absolutePoints s'
           = St.absolutePoints s ++ [Point.mk (St.currentX s + vx) (St.currentY s + vy)]
        /\ St.currentX s' = St.currentX s + vx
        /\ St.currentY s' = St.currentY s + vy).
Proof.
  intros H Hrest. split; [|split].
  - intros. now apply approximateArc_degenerate.
  - rewrite (arc_absolute_runs _ _ _ _ _ _ _ _ _ _ _ _ Hrest).
    exact (arcTo_degenerate _ _ _ _ _ _ _ _ (afterOperands 7 rest' s) H).
  - rewrite (arc_relative_runs _ _ _ _ _ _ _ _ _ _ _ _ Hrest).
    exact (arcTo_degenerate _ _ _ _ _ _ _ _ (afterOperands 7 rest' s) H).
Qed.

(** ** Errors of the tokenizer as the caller sees them *)



(** ** Binary64 facts used by the normalizer *)

Arguments Num.Math_round : simpl never.

Lemma float_sub_self (a : float) : Num.is_finite a = true -> a - a = 0.
Proof.
  unfold Num.is_finite. intros H. apply Prim2SF_inj. rewrite sub_spec.
  destruct (Prim2SF a) as [s|s| |s m e]; try discriminate.
  - destruct s; reflexivity.
  - cbv [SF64sub SFsub]. rewrite Z.min_id.
    cbv [shl_align]. rewrite (Z.sub_diag e). cbn [fst].
    rewrite Z.sub_diag. reflexivity.
Qed.

Lemma div_eucl_shift (m : positive) :
  Z.div_eucl (Z.shiftl (Z.pos m) 53) (Z.pos m) = ((2 ^ 53)%Z, 0%Z).
Proof.
  rewrite Z.shiftl_mul_pow2 by lia.
  assert (Hq : (Z.pos m * 2 ^ 53 / Z.pos m = 2 ^ 53)%Z).
  { rewrite Z.mul_comm. apply Z.div_mul. lia. }
  assert (Hr : ((Z.pos m * 2 ^ 53) mod Z.pos m = 0)%Z).
  { rewrite Z.mul_comm. apply Z.mod_mul. lia. }
  unfold Z.div in Hq. unfold Z.modulo in Hr.
  destruct (Z.div_eucl (Z.pos m * 2 ^ 53) (Z.pos m)) as [q r]. now subst.
Qed.

Lemma float_positive_spec (w : float) :
  Num.is_finite w = true -> (0 <? w) = true ->
  exists m e, Prim2SF w = S754_finite false m e.
Proof.
  unfold Num.is_finite. rewrite ltb_spec. intros Hf Hp.
  destruct (Prim2SF w) as [s|s| |s m e]; try discriminate.
  destruct s; [discriminate|]. eauto.
Qed.

Lemma float_div_self (w : float) :
  Num.is_finite w = true -> (0 <? w) = true -> w / w = 1.
Proof.
  intros Hf Hp. destruct (float_positive_spec w Hf Hp) as (m & e & Hw).
  apply Prim2SF_inj. rewrite div_spec, Hw.
  cbv [SF64div SFdiv SFdiv_core_binary]. rewrite !Z.sub_diag.
  change (Z.min (fexp prec emax 0) 0) with (-53)%Z.
  change (0 - -53)%Z with 53%Z. cbv iota.
  rewrite div_eucl_shift.
  replace (new_location (Z.pos m) 0) with loc_Exact
    by (unfold new_location; destruct (Z.even (Z.pos m)); reflexivity).
  vm_compute. reflexivity.
Qed.

Lemma float_zero_div (w : float) :
  Num.is_finite w = true -> (0 <? w) = true -> 0 / w = 0.
Proof.
  intros Hf Hp. destruct (float_positive_spec w Hf Hp) as (m & e & Hw).
  apply Prim2SF_inj. rewrite div_spec, Hw. reflexivity.
Qed.

Lemma float_sub_finite (a b : float) :
  Num.is_finite (a - b) = true -> Num.is_finite a = true /\ Num.is_finite b = true.
Proof.
  unfold Num.is_finite. rewrite sub_spec.
  destruct (Prim2SF a) as [s|s| |s m e], (Prim2SF b) as [s'|s'| |s' m' e'];
    cbn; auto; try discriminate; destruct s, s'; cbn; auto; discriminate.
Qed.

Lemma float_zero_not_positive (w : float) : (w =? 0) = true -> (0 <? w) = false.
Proof.
  rewrite eqb_spec, ltb_spec.
  destruct (Prim2SF w) as [s|s| |s m e]; cbn; try discriminate; auto;
    destruct s; discriminate.
Qed.

(** ** Rounding to nearest on binary64

    What [SpecFloat] computes for a difference, a product and a quotient of
    finite Numbers is the rounding to nearest, ties to even, of the exact
    result; rounding is monotone. Values are integers in units of 2^-1074. *)

Local Open Scope Z_scope.

Definition fexp64 (z : Z) : Z := Z.max (z - 53) (-1074).

Lemma fexp_eq (z : Z) : SpecFloat.fexp prec emax z = fexp64 z.
Proof. reflexivity. Qed.

Lemma fexp_ge_emin (z : Z) : -1074 <= fexp64 z.
Proof. unfold fexp64. lia. Qed.

Lemma fexp_mono (a b : Z) : a <= b -> fexp64 a <= fexp64 b.
Proof. unfold fexp64. lia. Qed.

(** *** The number of binary digits *)

Lemma digits2_pos_bounds (p : positive) :
  2 ^ (Z.pos (digits2_pos p) - 1) <= Z.pos p < 2 ^ Z.pos (digits2_pos p).
Proof.
  induction p as [p IH|p IH|]; cbn [digits2_pos].
  - rewrite Pos2Z.inj_succ, (Pos2Z.inj_xI p).
    replace (Z.succ (Z.pos (digits2_pos p)) - 1) with (Z.succ (Z.pos (digits2_pos p) - 1)) by lia.
    rewrite !Z.pow_succ_r by lia.
    revert IH. generalize (2 ^ (Z.pos (digits2_pos p) - 1)) (2 ^ Z.pos (digits2_pos p)). intros; lia.
  - rewrite Pos2Z.inj_succ, (Pos2Z.inj_xO p).
    replace (Z.succ (Z.pos (digits2_pos p)) - 1) with (Z.succ (Z.pos (digits2_pos p) - 1)) by lia.
    rewrite !Z.pow_succ_r by lia.
    revert IH. generalize (2 ^ (Z.pos (digits2_pos p) - 1)) (2 ^ Z.pos (digits2_pos p)). intros; lia.
  - split; [apply Z.leb_le|apply Z.ltb_lt]; reflexivity.
Qed.

Lemma Zdigits2_bounds (z : Z) :
  0 < z -> 2 ^ (Zdigits2 z - 1) <= z < 2 ^ Zdigits2 z.
Proof.
  destruct z as [|p|p]; try lia. intros _. apply digits2_pos_bounds.
Qed.

Lemma Zdigits2_nonneg (z : Z) : 0 <= Zdigits2 z.
Proof. destruct z; cbn; lia. Qed.

Lemma Zdigits2_lt_pow (z k : Z) : 0 <= z -> 0 <= k -> z < 2 ^ k -> Zdigits2 z <= k.
Proof.
  intros Hz Hk Hlt. destruct (Z.eq_dec z 0) as [->|Hne]; [cbn; lia|].
  destruct (Z.le_gt_cases (Zdigits2 z) k) as [|Hgt]; [assumption|].
  pose proof (Zdigits2_bounds z ltac:(lia)) as [Hlo _].
  assert (2 ^ k <= 2 ^ (Zdigits2 z - 1)) by (apply Z.pow_le_mono_r; lia). lia.
Qed.

Lemma Zdigits2_ge_pow (z k : Z) : 0 <= k -> 2 ^ k <= z -> k + 1 <= Zdigits2 z.
Proof.
  intros Hk Hle.
  assert (0 < z) by (pose proof (Z.pow_pos_nonneg 2 k); lia).
  pose proof (Zdigits2_bounds z H) as [_ Hhi].
  destruct (Z.le_gt_cases (k + 1) (Zdigits2 z)) as [|Hgt]; [assumption|].
  pose proof (Zdigits2_nonneg z).
  assert (2 ^ Zdigits2 z <= 2 ^ k) by (apply Z.pow_le_mono_r; lia). lia.
Qed.

(** *** Shifting right with a round bit and a sticky bit

    [rec_of N D] is the record that [shr] carries for the fraction N / D:
    the integer part, whether the fractional part reaches one half, and
    whether anything is left beyond that. *)

Definition rec_at (D q r : Z) : shr_record :=
  {| shr_m := q;
     shr_r := D <=? 2 * r;
     shr_s := negb ((r =? 0) || (2 * r =? D)) |}.

Definition rec_of (N D : Z) : shr_record := rec_at D (N / D) (N mod D).

Ltac bool_cases :=
  repeat match goal with
  | |- context [(?x <=? ?y)%Z] => destruct (Z.leb_spec x y)
  | |- context [(?x <? ?y)%Z] => destruct (Z.ltb_spec x y)
  | |- context [(?x =? ?y)%Z] => destruct (Z.eqb_spec x y)
  end.

Lemma rec_of_eq (N D q r : Z) :
  0 <= r < D -> N = D * q + r -> rec_of N D = rec_at D q r.
Proof.
  intros Hr HN. unfold rec_of.
  rewrite <- (Z.div_unique_pos N D q r Hr HN), <- (Z.mod_unique_pos N D q r Hr HN).
  reflexivity.
Qed.

Lemma shr_1_rec_of (N D : Z) :
  0 <= N -> 0 < D -> shr_1 (rec_of N D) = rec_of N (2 * D).
Proof.
  intros HN HD.
  pose proof (Z.div_mod N D ltac:(lia)) as Hdm.
  pose proof (Z.mod_pos_bound N D HD) as Hr.
  pose proof (Z.div_pos N D HN HD) as Hq.
  unfold rec_of at 1. revert Hdm Hr Hq.
  generalize (N / D) (N mod D). intros q r Hdm Hr Hq.
  destruct q as [|[p|p|]|p]; try lia; unfold rec_at, shr_1.
  - rewrite (rec_of_eq N (2 * D) 0 r) by lia.
    unfold rec_at. f_equal; bool_cases; cbn; try reflexivity; lia.
  - rewrite (rec_of_eq N (2 * D) (Z.pos p) (D + r)) by lia.
    unfold rec_at. f_equal; bool_cases; cbn; try reflexivity; lia.
  - rewrite (rec_of_eq N (2 * D) (Z.pos p) r) by lia.
    unfold rec_at. f_equal; bool_cases; cbn; try reflexivity; lia.
  - rewrite (rec_of_eq N (2 * D) 0 (D + r)) by lia.
    unfold rec_at. f_equal; bool_cases; cbn; try reflexivity; lia.
Qed.

Lemma iter_shr_1 (k : positive) : forall N D : Z,
  0 <= N -> 0 < D -> iter_pos shr_1 k (rec_of N D) = rec_of N (D * 2 ^ Z.pos k).
Proof.
  induction k as [k IH|k IH|]; intros N D HN HD; cbn [iter_pos].
  - assert (0 < 2 ^ Z.pos k) by (apply Z.pow_pos_nonneg; lia).
    rewrite shr_1_rec_of, IH, IH by nia. f_equal.
    rewrite (Pos2Z.inj_xI k).
    replace (2 * Z.pos k + 1) with (1 + Z.pos k + Z.pos k) by lia.
    rewrite !Z.pow_add_r, Z.pow_1_r by lia. ring.
  - assert (0 < 2 ^ Z.pos k) by (apply Z.pow_pos_nonneg; lia).
    rewrite IH, IH by nia. f_equal.
    rewrite (Pos2Z.inj_xO k).
    replace (2 * Z.pos k) with (Z.pos k + Z.pos k) by lia.
    rewrite !Z.pow_add_r by lia. ring.
  - rewrite shr_1_rec_of by assumption. f_equal. rewrite Z.pow_1_r. ring.
Qed.

Lemma shr_rec_of (N D e k : Z) :
  0 <= N -> 0 < D -> 0 <= k ->
  shr (rec_of N D) e k = (rec_of N (D * 2 ^ k), e + k).
Proof.
  intros HN HD Hk. destruct k as [|k|k]; try lia; unfold shr.
  - rewrite Z.pow_0_r, Z.mul_1_r, Z.add_0_r. reflexivity.
  - rewrite iter_shr_1 by assumption. reflexivity.
Qed.

Lemma shr_record_of_loc_rec (r : shr_record) :
  shr_record_of_loc (shr_m r) (loc_of_shr_record r) = r.
Proof. destruct r as [m [|] [|]]; reflexivity. Qed.

(** *** Rounding a fraction to the nearest integer, ties to even *)

Definition rne (N D : Z) : Z :=
  if (D <? 2 * (N mod D)) || ((2 * (N mod D) =? D) && Z.odd (N / D))
  then N / D + 1 else N / D.

Lemma round_rec_of (N D : Z) :
  0 < D ->
  round_nearest_even (shr_m (rec_of N D)) (loc_of_shr_record (rec_of N D)) = rne N D.
Proof.
  intros HD. unfold rec_of, rec_at, rne, loc_of_shr_record, round_nearest_even, shr_m.
  pose proof (Z.mod_pos_bound N D HD).
  rewrite <- Z.negb_even.
  bool_cases; cbn; try reflexivity; try lia.
  destruct (Z.even (N / D)); reflexivity.
Qed.

Lemma rne_spec (N D : Z) :
  0 < D ->
  (2 * rne N D - 1) * D <= 2 * N <= (2 * rne N D + 1) * D
  /\ (2 * N = (2 * rne N D - 1) * D -> Z.even (rne N D) = true)
  /\ (2 * N = (2 * rne N D + 1) * D -> Z.even (rne N D) = true).
Proof.
  intros HD. unfold rne.
  pose proof (Z.div_mod N D ltac:(lia)) as Hdm.
  pose proof (Z.mod_pos_bound N D HD) as Hr.
  revert Hdm Hr. generalize (N / D) (N mod D). intros q r Hdm Hr.
  rewrite <- Z.negb_even.
  destruct (Z.ltb_spec D (2 * r)); cbn [orb].
  - repeat split; try nia.
  - destruct (Z.eqb_spec (2 * r) D); cbn [andb].
    + destruct (Z.even q) eqn:Heven; cbn [negb].
      * repeat split; try nia. intros _. exact Heven.
      * repeat split; try nia; intros _; rewrite Z.even_add, Heven; reflexivity.
    + repeat split; try nia.
Qed.

Lemma rne_mono (N1 D1 N2 D2 : Z) :
  0 < D1 -> 0 < D2 -> N1 * D2 <= N2 * D1 -> rne N1 D1 <= rne N2 D2.
Proof.
  intros HD1 HD2 Hle.
  destruct (rne_spec N1 D1 HD1) as [[Hlo1 _] [Htie1 _]].
  destruct (rne_spec N2 D2 HD2) as [[_ Hhi2] [_ Htie2]].
  destruct (Z.le_gt_cases (rne N1 D1) (rne N2 D2)) as [|Hgt]; [assumption|exfalso].
  revert Hlo1 Htie1 Hhi2 Htie2 Hgt.
  generalize (rne N1 D1) (rne N2 D2). intros n1 n2 Hlo1 Htie1 Hhi2 Htie2 Hgt.
  assert (Hchain : (2 * n1 - 1) * (D1 * D2) <= (2 * n2 + 1) * (D1 * D2)) by nia.
  assert (Hn : n1 = n2 + 1) by nia. subst n1.
  assert (H1 : 2 * N1 = (2 * (n2 + 1) - 1) * D1) by nia.
  assert (H2 : 2 * N2 = (2 * n2 + 1) * D2) by nia.
  specialize (Htie1 H1). specialize (Htie2 H2).
  rewrite Z.even_add, Htie2 in Htie1. discriminate.
Qed.

Lemma rne_exact (n D : Z) : 0 < D -> rne (n * D) D = n.
Proof.
  intros HD. unfold rne. rewrite Z.mod_mul, Z.div_mul by lia.
  bool_cases; cbn; try reflexivity; lia.
Qed.

Lemma rne_floor (N D : Z) : 0 < D -> N / D <= rne N D <= N / D + 1.
Proof. intros HD. unfold rne. destruct (_ || _); lia. Qed.

(** *** The value of a result, in units of the smallest subnormal

    [rank] maps the floats other than NaN to integers, order preserved:
    a finite float to its value times 2^1074, an infinity to 2^2098, which
    no finite binary64 value reaches. *)

Definition rank (x : spec_float) : Z :=
  match x with
  | S754_zero _ => 0
  | S754_finite s m e => if s then - (Z.pos m * 2 ^ (e + 1074)) else Z.pos m * 2 ^ (e + 1074)
  | S754_infinity s => if s then - 2 ^ 2098 else 2 ^ 2098
  | S754_nan => 0
  end.

Definition nonneg_form (x : spec_float) : Prop :=
  match x with
  | S754_zero false | S754_finite false _ _ | S754_infinity false => True
  | _ => False
  end.

(** The exponent of the grid on which N / D * 2^e is rounded, and the
    rounded value in units of 2^-1074. *)

Definition grid (N D e : Z) : Z := fexp64 (Zdigits2 (N / D) + e).

Definition rounded (N D e : Z) : Z :=
  rne N (D * 2 ^ (grid N D e - e)) * 2 ^ (grid N D e + 1074).

Lemma pow2_pos (k : Z) : 0 <= k -> 0 < 2 ^ k.
Proof. intros. apply Z.pow_pos_nonneg; lia. Qed.

Lemma pow2_le (a b : Z) : 0 <= a <= b -> 2 ^ a <= 2 ^ b.
Proof. intros. apply Z.pow_le_mono_r; lia. Qed.

Lemma pow2_split (a b : Z) : 0 <= a -> 0 <= b -> 2 ^ (a + b) = 2 ^ a * 2 ^ b.
Proof. intros. apply Z.pow_add_r; assumption. Qed.

Lemma shr_nonpos (r : shr_record) (e k : Z) : k <= 0 -> shr r e k = (r, e).
Proof. destruct k; try reflexivity; lia. Qed.

Lemma shifted_upper (m k : Z) :
  0 <= m -> 0 <= k -> Zdigits2 m - 53 <= k -> m / 2 ^ k < 2 ^ 53.
Proof.
  intros Hm Hk Hd. pose proof (pow2_pos k Hk).
  apply Z.div_lt_upper_bound; [assumption|].
  destruct (Z.eq_dec m 0) as [->|Hne]; [pose proof (pow2_pos 53); lia|].
  pose proof (Zdigits2_bounds m ltac:(lia)) as [_ Hhi].
  pose proof (Zdigits2_nonneg m).
  assert (2 ^ Zdigits2 m <= 2 ^ (k + 53)) by (apply pow2_le; lia).
  rewrite pow2_split in * by lia. lia.
Qed.

Lemma shifted_lower (m k : Z) :
  0 <= m -> 0 <= k -> k = Zdigits2 m - 53 -> 2 ^ 52 <= m / 2 ^ k.
Proof.
  intros Hm Hk Hd. pose proof (pow2_pos k Hk).
  assert (0 < m) by (destruct m as [|p|p]; cbn in Hd; lia).
  apply Z.div_le_lower_bound; [assumption|].
  pose proof (Zdigits2_bounds m H0) as [Hlo _].
  replace (Zdigits2 m - 1) with (k + 52) in Hlo by lia.
  rewrite pow2_split in Hlo by lia. lia.
Qed.

Lemma rec_of_one (m : Z) : rec_of m 1 = Build_shr_record m false false.
Proof.
  unfold rec_of, rec_at. rewrite Z.div_1_r, Z.mod_1_r. reflexivity.
Qed.

Lemma binary_round_aux_rank (N D e : Z) :
  0 <= N -> 0 < D -> e <= grid N D e ->
  let x := binary_round_aux prec emax false (N / D) e (loc_of_shr_record (rec_of N D)) in
  nonneg_form x /\ rank x = Z.min (rounded N D e) (2 ^ 2098).
Proof.
  intros HN HD Hk. unfold binary_round_aux, shr_fexp.
  assert (Hrec : shr_record_of_loc (N / D) (loc_of_shr_record (rec_of N D)) = rec_of N D)
    by apply (shr_record_of_loc_rec (rec_of N D)).
  rewrite Hrec, fexp_eq. unfold rounded. fold (grid N D e).
  pose proof (fexp_ge_emin (Zdigits2 (N / D) + e)) as HE. fold (grid N D e) in HE.
  assert (Hnormal : -1074 < grid N D e -> grid N D e - e = Zdigits2 (N / D) - 53)
    by (unfold grid, fexp64 in *; lia).
  assert (Hdigits : Zdigits2 (N / D) - 53 <= grid N D e - e)
    by (unfold grid, fexp64 in *; lia).
  revert Hk HE Hnormal Hdigits. generalize (grid N D e). intros E Hk HE Hnormal Hdigits.
  rewrite shr_rec_of by lia. replace (e + (E - e)) with E by ring.
  rewrite round_rec_of by (pose proof (pow2_pos (E - e)); nia).
  pose proof (rne_floor N (D * 2 ^ (E - e)) ltac:(pose proof (pow2_pos (E - e)); nia)) as Hm1.
  rewrite <- Z.div_div in Hm1 by (pose proof (pow2_pos (E - e)); lia).
  pose proof (Z.div_pos N D HN HD) as Hq.
  pose proof (shifted_upper (N / D) (E - e) Hq ltac:(lia) Hdigits) as Hup.
  assert (Hlow : -1074 < E -> 2 ^ 52 <= N / D / 2 ^ (E - e))
    by (intros HE'; apply shifted_lower; [assumption|lia|auto]).
  assert (Hq' : 0 <= N / D / 2 ^ (E - e))
    by (apply Z.div_pos; [assumption|apply pow2_pos; lia]).
  revert Hm1 Hup Hlow Hq'. generalize (N / D / 2 ^ (E - e)) (rne N (D * 2 ^ (E - e))).
  intros m0 m1 Hm1 Hup Hlow Hq'.
  change (shr_record_of_loc m1 loc_Exact) with (Build_shr_record m1 false false).
  rewrite <- rec_of_one, fexp_eq.
  assert (Hcases : m1 = 0 \/ (0 < m1 /\ m1 < 2 ^ 53) \/ m1 = 2 ^ 53) by lia.
  destruct Hcases as [->|[[Hpos Hlt]| ->]].
  - rewrite shr_nonpos by (unfold fexp64; cbn [Zdigits2]; lia).
    rewrite rec_of_one. cbn [shr_m rank nonneg_form]. split; [exact I|].
    pose proof (pow2_pos 2098). lia.
  - assert (Hd : Zdigits2 m1 <= 53) by (apply Zdigits2_lt_pow; lia).
    rewrite shr_nonpos by (unfold fexp64; lia).
    rewrite rec_of_one. cbn [shr_m].
    destruct m1 as [|p|p]; try lia.
    change (emax - prec) with 971.
    destruct (Z.leb_spec E 971) as [Hle|Hgt]; cbn [rank nonneg_form]; (split; [exact I|]).
    + assert (2 ^ (E + 1074) <= 2 ^ 2045) by (apply pow2_le; lia).
      pose proof (pow2_pos (E + 1074) ltac:(lia)).
      assert (Z.pos p * 2 ^ (E + 1074) < 2 ^ 53 * 2 ^ 2045) by nia.
      rewrite <- pow2_split in H1 by lia. change (53 + 2045) with 2098 in H1. lia.
    + assert (2 ^ 2046 <= 2 ^ (E + 1074)) by (apply pow2_le; lia).
      specialize (Hlow ltac:(lia)).
      assert (2 ^ 52 * 2 ^ 2046 <= Z.pos p * 2 ^ (E + 1074))
        by (pose proof (pow2_pos 52); pose proof (pow2_pos 2046); nia).
      rewrite <- pow2_split in H0 by lia. change (52 + 2046) with 2098 in H0. lia.
  - replace (fexp64 (Zdigits2 (2 ^ 53) + E) - E) with 1
      by (change (Zdigits2 (2 ^ 53)) with 54; unfold fexp64; lia).
    rewrite shr_rec_of by lia.
    assert (Hm : shr_m (rec_of (2 ^ 53) (1 * 2 ^ 1)) = 4503599627370496)
      by (vm_compute; reflexivity).
    rewrite Hm. change (emax - prec) with 971.
    assert (Heq : 2 ^ 53 * 2 ^ (E + 1074) = 4503599627370496 * 2 ^ (E + 1 + 1074)).
    { replace (E + 1 + 1074) with (1 + (E + 1074)) by ring.
      rewrite (pow2_split 1 (E + 1074)) by lia.
      change (2 ^ 53) with (4503599627370496 * 2 ^ 1). ring. }
    rewrite Heq.
    destruct (Z.leb_spec (E + 1) 971) as [Hle|Hgt]; cbn [rank nonneg_form]; (split; [exact I|]).
    + assert (2 ^ (E + 1 + 1074) <= 2 ^ 2045) by (apply pow2_le; lia).
      pose proof (pow2_pos (E + 1 + 1074) ltac:(lia)).
      assert (4503599627370496 * 2 ^ (E + 1 + 1074) < 2 ^ 53 * 2 ^ 2045) by nia.
      rewrite <- pow2_split in H1 by lia. change (53 + 2045) with 2098 in H1. lia.
    + assert (2 ^ 2046 <= 2 ^ (E + 1 + 1074)) by (apply pow2_le; lia).
      assert (2 ^ 52 * 2 ^ 2046 <= 4503599627370496 * 2 ^ (E + 1 + 1074))
        by (change (2 ^ 52) with 4503599627370496; nia).
      rewrite <- pow2_split in H0 by lia. change (52 + 2046) with 2098 in H0. lia.
Qed.

Lemma rne_grid_bounds (N D e : Z) :
  0 <= N -> 0 < D -> e <= grid N D e ->
  0 <= rne N (D * 2 ^ (grid N D e - e)) <= 2 ^ 53
  /\ (-1074 < grid N D e -> 2 ^ 52 <= rne N (D * 2 ^ (grid N D e - e))).
Proof.
  intros HN HD Hk.
  pose proof (fexp_ge_emin (Zdigits2 (N / D) + e)) as HE. fold (grid N D e) in HE.
  assert (Hnormal : -1074 < grid N D e -> grid N D e - e = Zdigits2 (N / D) - 53)
    by (unfold grid, fexp64 in *; lia).
  assert (Hdigits : Zdigits2 (N / D) - 53 <= grid N D e - e)
    by (unfold grid, fexp64 in *; lia).
  revert Hk HE Hnormal Hdigits. generalize (grid N D e). intros E Hk HE Hnormal Hdigits.
  pose proof (rne_floor N (D * 2 ^ (E - e)) ltac:(pose proof (pow2_pos (E - e)); nia)) as Hm1.
  rewrite <- Z.div_div in Hm1 by (pose proof (pow2_pos (E - e)); lia).
  pose proof (Z.div_pos N D HN HD) as Hq.
  pose proof (shifted_upper (N / D) (E - e) Hq ltac:(lia) Hdigits) as Hup.
  assert (Hq' : 0 <= N / D / 2 ^ (E - e))
    by (apply Z.div_pos; [assumption|apply pow2_pos; lia]).
  split; [lia|]. intros HE'.
  pose proof (shifted_lower (N / D) (E - e) Hq ltac:(lia) (Hnormal HE')). lia.
Qed.

Lemma grid_mono (N1 D1 e1 N2 D2 e2 c : Z) :
  0 <= N1 -> 0 < D1 -> e1 <= grid N1 D1 e1 ->
  0 <= N2 -> 0 < D2 ->
  c <= e1 -> c <= e2 ->
  N1 * 2 ^ (e1 - c) * D2 <= N2 * 2 ^ (e2 - c) * D1 ->
  grid N1 D1 e1 <= grid N2 D2 e2.
Proof.
  intros HN1 HD1 Hk1 HN2 HD2 Hc1 Hc2 Hle.
  pose proof (fexp_ge_emin (Zdigits2 (N2 / D2) + e2)) as HE2. fold (grid N2 D2 e2) in HE2.
  destruct (Z.eq_dec (N1 / D1) 0) as [Hzero|Hne].
  - unfold grid in Hk1 |- *. rewrite Hzero in *. cbn [Zdigits2] in *.
    unfold grid in HE2. unfold fexp64 in *. lia.
  - apply fexp_mono.
    pose proof (Z.div_pos N1 D1 HN1 HD1) as Hq1.
    pose proof (Z.div_pos N2 D2 HN2 HD2) as Hq2.
    pose proof (Zdigits2_bounds (N1 / D1) ltac:(lia)) as [Hlo1 _].
    pose proof (Zdigits2_nonneg (N2 / D2)) as Hd2.
    assert (Hd1 : 1 <= Zdigits2 (N1 / D1))
      by (destruct (N1 / D1) as [|p|p]; cbn; lia).
    assert (Hhi2 : N2 / D2 + 1 <= 2 ^ Zdigits2 (N2 / D2)).
    { destruct (Z.eq_dec (N2 / D2) 0) as [->|Hne2]; [cbn; lia|].
      pose proof (Zdigits2_bounds (N2 / D2) ltac:(lia)). lia. }
    pose proof (Z.div_mod N1 D1 ltac:(lia)) as Hdm1.
    pose proof (Z.mod_pos_bound N1 D1 HD1) as Hr1.
    pose proof (Z.div_mod N2 D2 ltac:(lia)) as Hdm2.
    pose proof (Z.mod_pos_bound N2 D2 HD2) as Hr2.
    revert Hlo1 Hhi2 Hd1 Hd2 Hdm1 Hr1 Hdm2 Hr2 Hq1 Hq2 Hne.
    generalize (N1 / D1) (N1 mod D1) (N2 / D2) (N2 mod D2).
    intros q1 r1 q2 r2 Hlo1 Hhi2 Hd1 Hd2 Hdm1 Hr1 Hdm2 Hr2 Hq1 Hq2 Hne.
    destruct (Z.le_gt_cases (Zdigits2 q1 + e1) (Zdigits2 q2 + e2)) as [|Hgt]; [assumption|exfalso].
    assert (Hpow : 2 ^ (Zdigits2 q2 + (e2 - c)) <= 2 ^ (Zdigits2 q1 - 1 + (e1 - c)))
      by (apply pow2_le; lia).
    rewrite !pow2_split in Hpow by lia.
    pose proof (pow2_pos (e1 - c) ltac:(lia)) as Ha.
    pose proof (pow2_pos (e2 - c) ltac:(lia)) as Hb.
    revert Hle Hpow Ha Hb Hlo1 Hhi2.
    generalize (2 ^ (e1 - c)) (2 ^ (e2 - c)) (2 ^ (Zdigits2 q1 - 1)) (2 ^ Zdigits2 q2).
    intros A B P Q Hle Hpow Ha Hb Hlo1 Hhi2.
    assert (q1 * A < (q2 + 1) * B).
    { apply (Z.mul_lt_mono_pos_r (D1 * D2)); [nia|].
      assert (q1 * A * (D1 * D2) <= N1 * A * D2) by nia.
      assert (N2 * B * D1 < (q2 + 1) * B * (D1 * D2)) by nia.
      lia. }
    nia.
Qed.

Lemma rounded_mono (N1 D1 e1 N2 D2 e2 c : Z) :
  0 <= N1 -> 0 < D1 -> e1 <= grid N1 D1 e1 ->
  0 <= N2 -> 0 < D2 -> e2 <= grid N2 D2 e2 ->
  c <= e1 -> c <= e2 ->
  N1 * 2 ^ (e1 - c) * D2 <= N2 * 2 ^ (e2 - c) * D1 ->
  rounded N1 D1 e1 <= rounded N2 D2 e2.
Proof.
  intros HN1 HD1 Hk1 HN2 HD2 Hk2 Hc1 Hc2 Hle.
  pose proof (grid_mono N1 D1 e1 N2 D2 e2 c HN1 HD1 Hk1 HN2 HD2 Hc1 Hc2 Hle) as HE.
  pose proof (rne_grid_bounds N1 D1 e1 HN1 HD1 Hk1) as [Hb1 _].
  pose proof (rne_grid_bounds N2 D2 e2 HN2 HD2 Hk2) as [Hb2 Hn2].
  pose proof (fexp_ge_emin (Zdigits2 (N1 / D1) + e1)) as HE1. fold (grid N1 D1 e1) in HE1.
  unfold rounded.
  destruct (Z.eq_dec (grid N1 D1 e1) (grid N2 D2 e2)) as [Heq|Hne].
  - rewrite <- Heq in *.
    revert Hk1 Hk2 HE1. generalize (grid N1 D1 e1). intros E Hk1 Hk2 HE1.
    apply Z.mul_le_mono_nonneg_r; [pose proof (pow2_pos (E + 1074)); lia|].
    pose proof (pow2_pos (E - e1) ltac:(lia)) as Hu.
    pose proof (pow2_pos (E - e2) ltac:(lia)) as Hv.
    pose proof (pow2_pos (e1 - c) ltac:(lia)) as Ha.
    pose proof (pow2_pos (e2 - c) ltac:(lia)) as Hb.
    pose proof (pow2_pos (E - c) ltac:(lia)) as Ht.
    apply rne_mono; try nia.
    assert (HT1 : 2 ^ (e1 - c) * 2 ^ (E - e1) = 2 ^ (E - c))
      by (rewrite <- pow2_split by lia; f_equal; lia).
    assert (HT2 : 2 ^ (e2 - c) * 2 ^ (E - e2) = 2 ^ (E - c))
      by (rewrite <- pow2_split by lia; f_equal; lia).
    revert Hle Hu Hv Ha Hb Ht HT1 HT2.
    generalize (2 ^ (e1 - c)) (2 ^ (e2 - c)) (2 ^ (E - e1)) (2 ^ (E - e2)) (2 ^ (E - c)).
    intros A B U V T Hle Hu Hv Ha Hb Ht HT1 HT2.
    apply (Z.mul_le_mono_pos_r _ _ T Ht).
    replace (N1 * (D2 * V) * T) with (N1 * A * D2 * (U * V)) by (rewrite <- HT1; ring).
    replace (N2 * (D1 * U) * T) with (N2 * B * D1 * (U * V)) by (rewrite <- HT2; ring).
    apply Z.mul_le_mono_nonneg_r; [nia|assumption].
  - specialize (Hn2 ltac:(lia)).
    assert (Hpow : 2 ^ (1 + (grid N1 D1 e1 + 1074)) <= 2 ^ (grid N2 D2 e2 + 1074))
      by (apply pow2_le; lia).
    rewrite pow2_split in Hpow by lia.
    pose proof (pow2_pos (grid N1 D1 e1 + 1074) ltac:(lia)) as Hp1.
    revert Hb1 Hb2 Hn2 Hpow Hp1.
    generalize (rne N1 (D1 * 2 ^ (grid N1 D1 e1 - e1))) (rne N2 (D2 * 2 ^ (grid N2 D2 e2 - e2)))
               (2 ^ (grid N1 D1 e1 + 1074)) (2 ^ (grid N2 D2 e2 + 1074)).
    intros m1 m2 P1 P2 Hb1 Hb2 Hn2 Hpow Hp1.
    change (2 ^ 1) with 2 in Hpow. change (2 ^ 53) with (2 * 2 ^ 52) in Hb1.
    revert Hb1 Hn2. generalize (2 ^ 52). intros K Hb1 Hn2. nia.
Qed.

(** *** The order of the floats is the order of their ranks *)

Lemma bounded_spec (m : positive) (e : Z) :
  bounded prec emax m e = true ->
  -1074 <= e <= 971
  /\ Z.pos (digits2_pos m) <= 53
  /\ (-1074 < e -> Z.pos (digits2_pos m) = 53).
Proof.
  unfold bounded, canonical_mantissa. rewrite fexp_eq. intros H.
  apply andb_prop in H as [H1 H2]. apply Z.eqb_eq in H1. apply Z.leb_le in H2.
  change (emax - prec) with 971 in H2. unfold fexp64 in H1. lia.
Qed.

Definition mag (m : positive) (e : Z) : Z := Z.pos m * 2 ^ (e + 1074).

Lemma mag_bounds (m : positive) (e : Z) :
  bounded prec emax m e = true -> 0 < mag m e < 2 ^ 2098.
Proof.
  intros H. apply bounded_spec in H as (He & Hd & _). unfold mag.
  pose proof (digits2_pos_bounds m) as [_ Hhi].
  assert (Hm : 2 ^ Z.pos (digits2_pos m) <= 2 ^ 53) by (apply pow2_le; lia).
  pose proof (pow2_pos (e + 1074) ltac:(lia)) as Hp.
  assert (He' : 2 ^ (e + 1074) <= 2 ^ 2045) by (apply pow2_le; lia).
  assert (Hlt : Z.pos m * 2 ^ (e + 1074) < 2 ^ 53 * 2 ^ 2045) by nia.
  rewrite <- pow2_split in Hlt by lia. change (53 + 2045) with 2098 in Hlt. lia.
Qed.

Lemma mag_lt (m1 : positive) (e1 : Z) (m2 : positive) (e2 : Z) :
  bounded prec emax m1 e1 = true -> bounded prec emax m2 e2 = true ->
  e1 < e2 -> mag m1 e1 < mag m2 e2.
Proof.
  intros H1 H2 Hlt.
  apply bounded_spec in H1 as (He1 & Hd1 & _).
  apply bounded_spec in H2 as (He2 & _ & Hn2). specialize (Hn2 ltac:(lia)).
  pose proof (digits2_pos_bounds m1) as [_ Hhi].
  pose proof (digits2_pos_bounds m2) as [Hlo _]. rewrite Hn2 in Hlo.
  assert (2 ^ Z.pos (digits2_pos m1) <= 2 ^ 53) by (apply pow2_le; lia).
  assert (Hpow : 2 ^ (1 + (e1 + 1074)) <= 2 ^ (e2 + 1074)) by (apply pow2_le; lia).
  rewrite pow2_split in Hpow by lia.
  pose proof (pow2_pos (e1 + 1074) ltac:(lia)).
  unfold mag. change (2 ^ 1) with 2 in Hpow. change (53 - 1) with 52 in Hlo.
  change (2 ^ 53) with (2 * 2 ^ 52) in H.
  revert Hlo H Hhi Hpow H0.
  generalize (2 ^ 52) (2 ^ Z.pos (digits2_pos m1)) (2 ^ (e1 + 1074)) (2 ^ (e2 + 1074)).
  intros K Q P1 P2 Hlo H Hhi Hpow H0. nia.
Qed.

Lemma mag_compare (m1 m2 : positive) (e : Z) :
  -1074 <= e -> (mag m1 e ?= mag m2 e) = Pos.compare_cont Eq m1 m2.
Proof.
  intros He. unfold mag. pose proof (pow2_pos (e + 1074) ltac:(lia)) as Hp.
  change (Pos.compare_cont Eq m1 m2) with (Pos.compare m1 m2).
  destruct (Pos.compare_spec m1 m2) as [->|Hlt|Hgt].
  - apply Z.compare_refl.
  - apply Z.compare_lt_iff. nia.
  - apply Z.compare_gt_iff. nia.
Qed.

Lemma finite_compare (m1 : positive) (e1 : Z) (m2 : positive) (e2 : Z) :
  bounded prec emax m1 e1 = true -> bounded prec emax m2 e2 = true ->
  match e1 ?= e2 with
  | Lt => Lt
  | Gt => Gt
  | Eq => Pos.compare_cont Eq m1 m2
  end = (mag m1 e1 ?= mag m2 e2).
Proof.
  intros H1 H2. destruct (Z.compare_spec e1 e2) as [->|Hlt|Hgt].
  - symmetry. apply mag_compare. apply bounded_spec in H2. lia.
  - symmetry. apply Z.compare_lt_iff. now apply mag_lt.
  - symmetry. apply Z.compare_gt_iff. now apply mag_lt.
Qed.

Lemma SFcompare_rank (x y : spec_float) :
  valid_binary x = true -> valid_binary y = true ->
  x <> S754_nan -> y <> S754_nan ->
  SFcompare x y = Some (rank x ?= rank y).
Proof.
  intros Hx Hy Hnx Hny.
  assert (HT : 0 < 2 ^ 2098) by (apply pow2_pos; lia).
  destruct x as [sx|sx| |sx mx ex], y as [sy|sy| |sy my ey]; try congruence;
    cbn [SFcompare rank SpecFloat.valid_binary] in *; f_equal;
    try (pose proof (mag_bounds _ _ Hx)); try (pose proof (mag_bounds _ _ Hy));
    unfold mag in *;
    try solve [ try destruct sx; try destruct sy; symmetry;
                first [ apply Z.compare_eq_iff; lia
                      | apply Z.compare_lt_iff; lia
                      | apply Z.compare_gt_iff; lia ] ].
  destruct sx, sy.
  - fold (mag mx ex) (mag my ey).
    rewrite Z.compare_opp, <- (finite_compare my ey mx ex Hy Hx).
    rewrite (Z.compare_antisym ey ex).
    destruct (ey ?= ex); cbn [CompOpp]; try reflexivity.
    change (Pos.compare_cont Eq mx my) with (Pos.compare mx my).
    change (Pos.compare_cont Eq my mx) with (Pos.compare my mx).
    rewrite (Pos.compare_antisym my mx). now destruct (Pos.compare my mx).
  - symmetry. apply Z.compare_lt_iff. lia.
  - symmetry. apply Z.compare_gt_iff. lia.
  - fold (mag mx ex) (mag my ey). apply finite_compare; assumption.
Qed.

(** *** Correctly rounded results

    [rounds P Q z]: the float [z] is the rounding to nearest, ties to even,
    of the non-negative rational P / Q, given in units of 2^-1074. *)

Ltac splits := repeat match goal with |- _ /\ _ => split end.

Definition hasValue (N D e P Q : Z) : Prop :=
  N * 2 ^ (e + 4000) * Q = P * D * 2 ^ 2926.

Definition rnd (P Q r : Z) : Prop :=
  exists N D e,
    0 <= N /\ 0 < D /\ -4000 <= e /\ e <= grid N D e
    /\ hasValue N D e P Q
    /\ r = Z.min (rounded N D e) (2 ^ 2098).

Definition rounds (P Q : Z) (z : spec_float) : Prop :=
  z <> S754_nan /\ rnd P Q (rank z).

Lemma rnd_mono (P1 Q1 r1 P2 Q2 r2 : Z) :
  0 < Q1 -> 0 < Q2 -> rnd P1 Q1 r1 -> rnd P2 Q2 r2 ->
  P1 * Q2 <= P2 * Q1 -> r1 <= r2.
Proof.
  intros HQ1 HQ2 (N1 & D1 & e1 & HN1 & HD1 & He1 & Hg1 & Hv1 & ->)
         (N2 & D2 & e2 & HN2 & HD2 & He2 & Hg2 & Hv2 & ->) Hle.
  apply Z.min_le_compat_r.
  apply (rounded_mono N1 D1 e1 N2 D2 e2 (-4000)); try assumption.
  replace (e1 - -4000) with (e1 + 4000) by lia.
  replace (e2 - -4000) with (e2 + 4000) by lia.
  unfold hasValue in Hv1, Hv2.
  pose proof (pow2_pos 2926 ltac:(lia)) as HW.
  revert Hv1 Hv2 HW. generalize (2 ^ (e1 + 4000)) (2 ^ (e2 + 4000)) (2 ^ 2926).
  intros A B W Hv1 Hv2 HW.
  apply (Z.mul_le_mono_pos_r _ _ (Q1 * Q2)); [nia|].
  replace (N1 * A * D2 * (Q1 * Q2)) with (P1 * Q2 * (D1 * D2 * W))
    by (transitivity (N1 * A * Q1 * (D2 * Q2)); [rewrite Hv1|]; ring).
  replace (N2 * B * D1 * (Q1 * Q2)) with (P2 * Q1 * (D1 * D2 * W))
    by (transitivity (N2 * B * Q2 * (D1 * Q1)); [rewrite Hv2|]; ring).
  apply Z.mul_le_mono_nonneg_r; [nia|assumption].
Qed.

Lemma rnd_zero (Q : Z) : rnd 0 Q 0.
Proof.
  exists 0, 1, (-1074). splits; try lia.
  - apply Z.leb_le. reflexivity.
  - unfold hasValue. ring.
  - pose proof (pow2_pos 2098). unfold rounded.
    change (grid 0 1 (-1074)) with (-1074). change (-1074 - -1074) with 0.
    change (1 * 2 ^ 0) with 1. change (rne 0 1) with 0. lia.
Qed.

Lemma rnd_finite (m : positive) (e : Z) :
  bounded prec emax m e = true -> rnd (mag m e) 1 (mag m e).
Proof.
  intros Hb. pose proof (mag_bounds m e Hb) as Hmag.
  pose proof Hb as Hc. unfold bounded, canonical_mantissa in Hc.
  apply andb_prop in Hc as [Hc _]. apply Z.eqb_eq in Hc. rewrite fexp_eq in Hc.
  apply bounded_spec in Hb as (He & _ & _).
  assert (Hg : grid (Z.pos m) 1 e = e) by (unfold grid; rewrite Z.div_1_r; exact Hc).
  exists (Z.pos m), 1, e. splits; try lia.
  - unfold hasValue, mag. replace (e + 4000) with (e + 1074 + 2926) by lia.
    rewrite (pow2_split (e + 1074) 2926) by lia. ring.
  - unfold rounded. rewrite Hg, Z.sub_diag.
    change (1 * 2 ^ 0) with 1.
    replace (Z.pos m) with (Z.pos m * 1) at 1 by lia.
    rewrite rne_exact by lia. fold (mag m e). lia.
Qed.

Lemma rounds_zero (Q : Z) (s : bool) : rounds 0 Q (S754_zero s).
Proof. split; [discriminate|apply rnd_zero]. Qed.

Lemma rounds_finite (m : positive) (e : Z) :
  bounded prec emax m e = true -> rounds (mag m e) 1 (S754_finite false m e).
Proof. intros Hb. split; [discriminate|now apply rnd_finite]. Qed.

Lemma binary_round_aux_exact (m e P Q : Z) :
  0 <= m -> -4000 <= e -> e <= grid m 1 e -> hasValue m 1 e P Q ->
  rounds P Q (binary_round_aux prec emax false m e loc_Exact).
Proof.
  intros Hm He Hg Hv.
  pose proof (binary_round_aux_rank m 1 e Hm ltac:(lia) Hg) as [Hform Hrank].
  rewrite rec_of_one, Z.div_1_r in *. cbn [loc_of_shr_record] in *.
  split.
  - intros E. rewrite E in Hform. exact Hform.
  - exists m, 1, e. splits; try assumption; lia.
Qed.

(** *** Subtraction *)

Lemma iter_xO (d m : positive) : Z.pos (Pos.iter xO m d) = Z.pos m * 2 ^ Z.pos d.
Proof.
  induction d as [|d IH] using Pos.peano_ind.
  - cbn [Pos.iter]. rewrite Z.pow_1_r. lia.
  - rewrite Pos.iter_succ, Pos2Z.inj_succ, Z.pow_succ_r, (Pos2Z.inj_xO (Pos.iter xO m d)), IH by lia.
    ring.
Qed.

Lemma shl_align_spec (m : positive) (e e' : Z) :
  let r := shl_align m e e' in
  snd r = Z.min e e' /\ Z.pos (fst r) = Z.pos m * 2 ^ (e - snd r).
Proof.
  unfold shl_align. destruct (e' - e) as [|d|d] eqn:Hd; cbn [fst snd].
  - split; [lia|]. rewrite Z.sub_diag. cbn. lia.
  - split; [lia|]. rewrite Z.sub_diag. cbn. lia.
  - split; [lia|]. rewrite iter_xO. f_equal. f_equal. lia.
Qed.

Lemma binary_round_rounds (p : positive) (e : Z) :
  -1074 <= e ->
  rounds (Z.pos p * 2 ^ (e + 1074)) 1 (binary_round prec emax false p e).
Proof.
  intros He. unfold binary_round. rewrite fexp_eq.
  pose proof (shl_align_spec p e (fexp64 (Z.pos (digits2_pos p) + e))) as [Hs Hm].
  pose proof (fexp_ge_emin (Z.pos (digits2_pos p) + e)) as HF.
  destruct (shl_align p e (fexp64 (Z.pos (digits2_pos p) + e))) as [mz ez].
  cbn [fst snd] in Hs, Hm.
  assert (Hsame : Z.pos (digits2_pos mz) + ez = Z.pos (digits2_pos p) + e).
  { pose proof (digits2_pos_bounds mz) as [Hlo1 Hhi1].
    pose proof (digits2_pos_bounds p) as [Hlo2 Hhi2].
    rewrite Hm in Hlo1, Hhi1.
    pose proof (pow2_pos (e - ez) ltac:(lia)) as Hp.
    assert (H1 : 2 ^ (Z.pos (digits2_pos p) - 1 + (e - ez)) < 2 ^ Z.pos (digits2_pos mz))
      by (rewrite pow2_split by lia; nia).
    assert (H2 : 2 ^ (Z.pos (digits2_pos mz) - 1) < 2 ^ (Z.pos (digits2_pos p) + (e - ez)))
      by (rewrite pow2_split by lia; nia).
    apply Z.pow_lt_mono_r_iff in H1; [|lia|lia].
    apply Z.pow_lt_mono_r_iff in H2; [|lia|lia]. lia. }
  apply binary_round_aux_exact; try lia.
  - unfold grid. rewrite Z.div_1_r. cbn [Zdigits2]. rewrite Hsame. lia.
  - unfold hasValue. rewrite Hm.
    replace (e + 1074) with (e - ez + (ez + 1074)) by lia.
    replace (ez + 4000) with (ez + 1074 + 2926) by lia.
    rewrite (pow2_split (ez + 1074) 2926), (pow2_split (e - ez) (ez + 1074)) by lia. ring.
Qed.

Definition fin (x : spec_float) : Prop :=
  match x with
  | S754_zero _ | S754_finite _ _ _ => True
  | _ => False
  end.

Lemma fin_rank (x : spec_float) :
  valid_binary x = true -> fin x -> - 2 ^ 2098 < rank x < 2 ^ 2098.
Proof.
  intros Hv Hf. pose proof (pow2_pos 2098 ltac:(lia)).
  destruct x as [s|s| |s m e]; try contradiction; cbn [rank].
  - lia.
  - pose proof (mag_bounds m e Hv). unfold mag in *. destruct s; lia.
Qed.

Lemma rank_fin (x : spec_float) :
  x <> S754_nan -> - 2 ^ 2098 < rank x < 2 ^ 2098 -> fin x.
Proof.
  intros Hn Hr. destruct x as [s|s| |s m e]; try congruence; cbn [fin]; auto.
  cbn [rank] in Hr. destruct s; lia.
Qed.

Lemma aligned_rank (s : bool) (m : positive) (e ez : Z) :
  -1074 <= ez <= e ->
  cond_Zopp s (Z.pos (fst (shl_align m e ez))) * 2 ^ (ez + 1074)
  = rank (S754_finite s m e).
Proof.
  intros He. pose proof (shl_align_spec m e ez) as [Hs Hm].
  rewrite Hm, Hs. replace (Z.min e ez) with ez by lia.
  cbn [rank]. replace (e + 1074) with (e - ez + (ez + 1074)) by lia.
  rewrite (pow2_split (e - ez) (ez + 1074)) by lia. destruct s; cbn [cond_Zopp]; ring.
Qed.

Lemma SFsub_rounds (x y : spec_float) :
  valid_binary x = true -> valid_binary y = true -> fin x -> fin y ->
  rank y <= rank x ->
  rounds (rank x - rank y) 1 (SFsub prec emax x y).
Proof.
  intros Hx Hy Hfx Hfy Hle.
  destruct x as [sx|sx| |sx mx ex], y as [sy|sy| |sy my ey]; try contradiction.
  - cbn [rank]. replace (SFsub prec emax (S754_zero sx) (S754_zero sy))
      with (S754_zero (match sx, sy with true, false => true | _, _ => false end))
      by (destruct sx, sy; reflexivity).
    apply rounds_zero.
  - cbn [SFsub]. pose proof (mag_bounds my ey Hy) as Hm. unfold mag in Hm.
    cbn [rank] in *. destruct sy; [|lia]. cbn [negb].
    replace (0 - - (Z.pos my * 2 ^ (ey + 1074))) with (mag my ey) by (unfold mag; lia).
    now apply rounds_finite.
  - cbn [SFsub]. pose proof (mag_bounds mx ex Hx) as Hm. unfold mag in Hm.
    cbn [rank] in *. destruct sx; [lia|].
    replace (Z.pos mx * 2 ^ (ex + 1074) - 0) with (mag mx ex) by (unfold mag; lia).
    now apply rounds_finite.
  - cbn [SFsub]. cbv zeta.
    pose proof (bounded_spec mx ex Hx) as (Hex & _ & _).
    pose proof (bounded_spec my ey Hy) as (Hey & _ & _).
    pose proof (aligned_rank sx mx ex (Z.min ex ey) ltac:(lia)) as Hrx.
    pose proof (aligned_rank sy my ey (Z.min ex ey) ltac:(lia)) as Hry.
    rewrite <- Hrx, <- Hry in Hle |- *.
    pose proof (pow2_pos (Z.min ex ey + 1074) ltac:(lia)) as Hp.
    revert Hle. generalize (cond_Zopp sx (Z.pos (fst (shl_align mx ex (Z.min ex ey)))))
                           (cond_Zopp sy (Z.pos (fst (shl_align my ey (Z.min ex ey))))).
    intros zx zy Hle. rewrite <- Z.mul_sub_distr_r.
    assert (Hd : 0 <= zx - zy) by nia.
    destruct (zx - zy) as [|p|p]; try lia; cbn [binary_normalize].
    + apply rounds_zero.
    + apply binary_round_rounds. lia.
Qed.

(** *** Multiplication and division *)

Lemma binary_round_aux_rounds (N D e P Q : Z) :
  0 <= N -> 0 < D -> -4000 <= e -> e <= grid N D e -> hasValue N D e P Q ->
  rounds P Q (binary_round_aux prec emax false (N / D) e (loc_of_shr_record (rec_of N D))).
Proof.
  intros HN HD He Hg Hv.
  pose proof (binary_round_aux_rank N D e HN HD Hg) as [Hform Hrank].
  split.
  - intros E. rewrite E in Hform. exact Hform.
  - exists N, D, e. splits; assumption.
Qed.

Lemma positive_rank (x : spec_float) :
  valid_binary x = true -> fin x -> 0 < rank x ->
  exists m e, x = S754_finite false m e /\ bounded prec emax m e = true.
Proof.
  intros Hv Hf Hr. destruct x as [s|s| |s m e]; try contradiction; cbn [rank] in Hr; [lia|].
  pose proof (mag_bounds m e Hv) as Hm. unfold mag in Hm.
  destruct s; [lia|]. eauto.
Qed.

Lemma nonneg_rank (x : spec_float) :
  valid_binary x = true -> fin x -> 0 <= rank x ->
  (exists s, x = S754_zero s)
  \/ exists m e, x = S754_finite false m e /\ bounded prec emax m e = true.
Proof.
  intros Hv Hf Hr. destruct x as [s|s| |s m e]; try contradiction; [eauto|].
  right. apply positive_rank; try assumption.
  cbn [rank] in *. pose proof (mag_bounds m e Hv) as Hm. unfold mag in Hm.
  destruct s; lia.
Qed.

Lemma normal_mantissa (m : positive) (e : Z) :
  bounded prec emax m e = true -> -1074 < e -> 2 ^ 52 <= Z.pos m.
Proof.
  intros Hb He. apply bounded_spec in Hb as (_ & _ & Hn).
  pose proof (digits2_pos_bounds m) as [Hlo _]. rewrite (Hn He) in Hlo. exact Hlo.
Qed.

Lemma SFmul_rounds (x y : spec_float) :
  valid_binary x = true -> valid_binary y = true -> fin x -> fin y ->
  0 <= rank x -> 0 < rank y ->
  rounds (rank x * rank y) (2 ^ 1074) (SFmul prec emax x y).
Proof.
  intros Hx Hy Hfx Hfy Hrx Hry.
  destruct (positive_rank y Hy Hfy Hry) as (my & ey & -> & Hby).
  destruct (nonneg_rank x Hx Hfx Hrx) as [[s ->]|(mx & ex & -> & Hbx)].
  - cbn [SFmul rank]. rewrite Z.mul_0_l. apply rounds_zero.
  - cbn [SFmul rank xorb].
    pose proof (bounded_spec mx ex Hbx) as (Hex & _ & _).
    pose proof (bounded_spec my ey Hby) as (Hey & _ & _).
    apply binary_round_aux_exact; try lia.
    + unfold grid. rewrite Z.div_1_r.
      destruct (Z.le_gt_cases (ex + ey) (-1074)) as [Hsmall|Hbig].
      * pose proof (fexp_ge_emin (Zdigits2 (Z.pos (mx * my)) + (ex + ey))). lia.
      * assert (Hm : 2 ^ 52 <= Z.pos (mx * my)).
        { rewrite Pos2Z.inj_mul.
          destruct (Z.le_gt_cases ex (-1074)).
          - pose proof (normal_mantissa my ey Hby ltac:(lia)). nia.
          - pose proof (normal_mantissa mx ex Hbx ltac:(lia)). nia. }
        apply Zdigits2_ge_pow in Hm; [|lia]. unfold fexp64. lia.
    + unfold hasValue. rewrite Pos2Z.inj_mul.
      replace (ex + ey + 4000) with (ex + 1074 + (ey + 1074) + 1852) by lia.
      rewrite (pow2_split (ex + 1074 + (ey + 1074)) 1852) by lia.
      rewrite (pow2_split (ex + 1074) (ey + 1074)) by lia.
      change (2 ^ 2926) with (2 ^ 1852 * 2 ^ 1074). ring.
Qed.

Lemma new_location_spec (D q r : Z) :
  0 < D -> 0 <= r < D -> new_location D r = loc_of_shr_record (rec_at D q r).
Proof.
  intros HD Hr. unfold new_location, new_location_even, new_location_odd, rec_at,
    loc_of_shr_record.
  destruct (Z.even D) eqn:Heven.
  - destruct (Z.eqb_spec r 0) as [->|Hne].
    + destruct (Z.leb_spec D (2 * 0)); [lia|]. reflexivity.
    + destruct (Z.compare_spec (2 * r) D), (Z.leb_spec D (2 * r)), (Z.eqb_spec (2 * r) D);
        cbn; try reflexivity; lia.
  - assert (Hodd : 2 * r <> D).
    { intros <-. rewrite Z.even_mul in Heven. discriminate. }
    destruct (Z.eqb_spec r 0) as [->|Hne].
    + destruct (Z.leb_spec D (2 * 0)); [lia|]. reflexivity.
    + destruct (Z.compare_spec (2 * r + 1) D), (Z.leb_spec D (2 * r)), (Z.eqb_spec (2 * r) D);
        cbn; try reflexivity; lia.
Qed.

Lemma SFdiv_rounds (x y : spec_float) :
  valid_binary x = true -> valid_binary y = true -> fin x -> fin y ->
  0 <= rank x -> 0 < rank y ->
  rounds (rank x * 2 ^ 1074) (rank y) (SFdiv prec emax x y).
Proof.
  intros Hx Hy Hfx Hfy Hrx Hry.
  destruct (positive_rank y Hy Hfy Hry) as (my & ey & -> & Hby).
  destruct (nonneg_rank x Hx Hfx Hrx) as [[s ->]|(mx & ex & -> & Hbx)].
  - cbn [SFdiv rank]. rewrite Z.mul_0_l. apply rounds_zero.
  - cbn [SFdiv rank xorb]. unfold SFdiv_core_binary. cbn [Zdigits2]. rewrite fexp_eq.
    pose proof (bounded_spec mx ex Hbx) as (Hex & Hdx & _).
    pose proof (bounded_spec my ey Hby) as (Hey & _ & _).
    pose proof (digits2_pos_bounds mx) as [Hlox _].
    pose proof (digits2_pos_bounds my) as [_ Hhiy].
    assert (Hd1 : 1 <= Z.pos (digits2_pos mx)) by lia.
    assert (Hd2 : 1 <= Z.pos (digits2_pos my)) by lia.
    revert Hdx Hlox Hhiy Hd1 Hd2.
    generalize (Z.pos (digits2_pos mx)) (Z.pos (digits2_pos my)).
    intros d1 d2 Hdx Hlox Hhiy Hd1 Hd2.
    pose proof (fexp_ge_emin (d1 + ex - (d2 + ey))) as HF.
    set (e' := Z.min (fexp64 (d1 + ex - (d2 + ey))) (ex - ey)) in *.
    assert (He' : -4000 <= e' <= ex - ey) by (subst e'; lia).
    assert (Hshift : match ex - ey - e' with
                     | 0 => Z.pos mx
                     | Z.pos _ => Z.shiftl (Z.pos mx) (ex - ey - e')
                     | Z.neg _ => 0
                     end = Z.pos mx * 2 ^ (ex - ey - e')).
    { destruct (ex - ey - e') as [|p|p] eqn:Hs; try lia.
      rewrite Z.shiftl_mul_pow2 by lia. reflexivity. }
    rewrite Hshift.
    pose proof (pow2_pos (ex - ey - e') ltac:(lia)) as Hpow.
    set (N := Z.pos mx * 2 ^ (ex - ey - e')) in *.
    assert (HN : 0 < N) by (subst N; nia).
    pose proof (Z.mod_pos_bound N (Z.pos my) ltac:(lia)) as Hr.
    assert (Hdiv : Z.div_eucl N (Z.pos my) = (N / Z.pos my, N mod Z.pos my))
      by (unfold Z.div, Z.modulo; destruct (Z.div_eucl N (Z.pos my)); reflexivity).
    rewrite Hdiv.
    rewrite (new_location_spec (Z.pos my) (N / Z.pos my) (N mod Z.pos my)) by lia.
    fold (rec_of N (Z.pos my)).
    apply binary_round_aux_rounds; try lia.
    + unfold grid.
      destruct (Z.le_gt_cases e' (-1074)) as [Hsmall|Hbig].
      * pose proof (fexp_ge_emin (Zdigits2 (N / Z.pos my) + e')). lia.
      * assert (Hs : ex - ey - e' = 53 + d2 - d1) by (subst e'; unfold fexp64 in *; lia).
        assert (Hq : 2 ^ 52 <= N / Z.pos my).
        { apply Z.div_le_lower_bound; [lia|].
          subst N. rewrite Hs.
          replace (53 + d2 - d1) with (52 + d2 - (d1 - 1)) by lia.
          assert (Hsplit : 2 ^ (d1 - 1) * 2 ^ (52 + d2 - (d1 - 1)) = 2 ^ 52 * 2 ^ d2).
          { rewrite <- !pow2_split by lia. f_equal. lia. }
          pose proof (pow2_pos (52 + d2 - (d1 - 1)) ltac:(lia)).
          pose proof (pow2_pos 52 ltac:(lia)).
          revert Hsplit H H0 Hlox Hhiy.
          generalize (2 ^ (d1 - 1)) (2 ^ (52 + d2 - (d1 - 1))) (2 ^ 52) (2 ^ d2).
          intros A B C E Hsplit HB HC Hlox Hhiy. nia. }
        apply Zdigits2_ge_pow in Hq; [|lia]. unfold fexp64. lia.
    + unfold hasValue. subst N.
      replace (2 ^ 2926) with (2 ^ 1852 * 2 ^ 1074) by reflexivity.
      assert (Hexp : 2 ^ (ex - ey - e') * 2 ^ (e' + 4000) * 2 ^ (ey + 1074)
                     = 2 ^ (ex + 1074) * 2 ^ 1074 * 2 ^ 1852 * 2 ^ 1074).
      { rewrite <- !pow2_split by lia. f_equal. lia. }
      transitivity (Z.pos mx * Z.pos my
                    * (2 ^ (ex - ey - e') * 2 ^ (e' + 4000) * 2 ^ (ey + 1074))); [ring|].
      rewrite Hexp. ring.
Qed.


Local Close Scope Z_scope.

(** *** The primitive operations on finite Numbers *)

Definition frank (x : float) : Z := rank (Prim2SF x).

Lemma is_finite_fin (x : float) : Num.is_finite x = true <-> fin (Prim2SF x).
Proof.
  unfold Num.is_finite, fin.
  destruct (Prim2SF x); split; intros H; try discriminate; try contradiction; auto.
Qed.

Lemma finite_not_nan (x : float) : Num.is_finite x = true -> Prim2SF x <> S754_nan.
Proof. unfold Num.is_finite. intros H E. rewrite E in H. discriminate. Qed.

Lemma is_nan_false (x : float) : is_nan x = false -> Prim2SF x <> S754_nan.
Proof.
  intros H. unfold Prim2SF. rewrite H.
  destruct (is_zero x); [discriminate|]. destruct (is_infinity x); [discriminate|].
  destruct (Z.frexp x) as [r exp].
  destruct (shr_fexp prec emax (Uint63Axioms.to_Z (normfr_mantissa r)) (exp - prec) loc_Exact)
    as [mrs e'].
  destruct (shr_m mrs); discriminate.
Qed.

Lemma leb_frank (x y : float) :
  Prim2SF x <> S754_nan -> Prim2SF y <> S754_nan ->
  (x <=? y) = (frank x <=? frank y)%Z.
Proof.
  intros Hx Hy. rewrite leb_spec. unfold SFleb, frank.
  rewrite (SFcompare_rank _ _ (Prim2SF_valid x) (Prim2SF_valid y) Hx Hy).
  destruct (Z.compare_spec (rank (Prim2SF x)) (rank (Prim2SF y))),
           (Z.leb_spec (rank (Prim2SF x)) (rank (Prim2SF y))); try reflexivity; lia.
Qed.

Lemma ltb_frank (x y : float) :
  Prim2SF x <> S754_nan -> Prim2SF y <> S754_nan ->
  (x <? y) = (frank x <? frank y)%Z.
Proof.
  intros Hx Hy. rewrite ltb_spec. unfold SFltb, frank.
  rewrite (SFcompare_rank _ _ (Prim2SF_valid x) (Prim2SF_valid y) Hx Hy).
  destruct (Z.compare_spec (rank (Prim2SF x)) (rank (Prim2SF y))),
           (Z.ltb_spec (rank (Prim2SF x)) (rank (Prim2SF y))); try reflexivity; lia.
Qed.

Lemma frank_finite (x : float) :
  Num.is_finite x = true -> (- 2 ^ 2098 < frank x < 2 ^ 2098)%Z.
Proof.
  intros H. apply fin_rank; [apply Prim2SF_valid|now apply is_finite_fin].
Qed.

Lemma frank_is_finite (x : float) :
  Prim2SF x <> S754_nan -> (- 2 ^ 2098 < frank x < 2 ^ 2098)%Z ->
  Num.is_finite x = true.
Proof. intros Hn Hr. apply is_finite_fin. now apply rank_fin. Qed.

Lemma rounds_nonneg (P Q : Z) (z : spec_float) :
  rounds P Q z -> (0 <= P)%Z -> (0 < Q)%Z -> (0 <= rank z)%Z.
Proof.
  intros [_ H] HP HQ.
  apply (rnd_mono 0 1 0 P Q (rank z)); try assumption; try lia. apply rnd_zero.
Qed.

Lemma rounds_le (P Q : Z) (z : spec_float) (bound : float) :
  rounds P Q z -> Num.is_finite bound = true ->
  (0 < Q)%Z -> (0 < frank bound)%Z -> (P <= frank bound * Q)%Z ->
  (rank z <= frank bound)%Z.
Proof.
  intros [_ H] Hf HQ Hpos Hle.
  destruct (positive_rank (Prim2SF bound) (Prim2SF_valid bound)
              (proj1 (is_finite_fin bound) Hf) Hpos) as (m & e & Hb & Hbd).
  unfold frank in *. rewrite Hb in *. cbn [rank] in *. fold (mag m e) in *.
  apply (rnd_mono P Q (rank z) (mag m e) 1 (mag m e)); try assumption; try lia.
  now apply rnd_finite.
Qed.

Lemma rounds_is_finite (P Q : Z) (x bound : float) :
  rounds P Q (Prim2SF x) -> Num.is_finite bound = true ->
  (0 <= P)%Z -> (0 < Q)%Z -> (frank x <= frank bound)%Z ->
  Num.is_finite x = true.
Proof.
  intros H Hf HP HQ Hle. pose proof (rounds_nonneg P Q _ H HP HQ) as Hnn.
  pose proof (frank_finite bound Hf). pose proof (pow2_pos 2098 ltac:(lia)).
  apply frank_is_finite; [exact (proj1 H)|]. unfold frank in *. lia.
Qed.

Lemma float_sub_rounds (x y : float) :
  Num.is_finite x = true -> Num.is_finite y = true -> (frank y <= frank x)%Z ->
  rounds (frank x - frank y) 1 (Prim2SF (x - y)).
Proof.
  intros Hx Hy Hle. rewrite sub_spec.
  apply SFsub_rounds; auto using Prim2SF_valid; now apply is_finite_fin.
Qed.

Lemma float_mul_rounds (x y : float) :
  Num.is_finite x = true -> Num.is_finite y = true ->
  (0 <= frank x)%Z -> (0 < frank y)%Z ->
  rounds (frank x * frank y) (2 ^ 1074) (Prim2SF (x * y)).
Proof.
  intros Hx Hy Hnn Hpos. rewrite mul_spec.
  apply SFmul_rounds; auto using Prim2SF_valid; now apply is_finite_fin.
Qed.

Lemma float_div_rounds (x y : float) :
  Num.is_finite x = true -> Num.is_finite y = true ->
  (0 <= frank x)%Z -> (0 < frank y)%Z ->
  rounds (frank x * 2 ^ 1074) (frank y) (Prim2SF (x / y)).
Proof.
  intros Hx Hy Hnn Hpos. rewrite div_spec.
  apply SFdiv_rounds; auto using Prim2SF_valid; now apply is_finite_fin.
Qed.

Lemma frank_one : frank 1 = (2 ^ 1074)%Z.
Proof. vm_compute. reflexivity. Qed.

Lemma frank_hundred : frank 100 = (100 * 2 ^ 1074)%Z.
Proof. vm_compute. reflexivity. Qed.

Lemma frank_ten_thousand : frank 10000 = (10000 * 2 ^ 1074)%Z.
Proof. vm_compute. reflexivity. Qed.

(** [Math.round] keeps a Number of [0, 10000] in [0, 10000]. *)
Lemma Math_round_range (b : float) :
  Num.is_finite b = true -> (0 <= frank b <= frank 10000)%Z ->
  Num.is_finite (Num.Math_round b) = true
  /\ (0 <= frank (Num.Math_round b) <= frank 10000)%Z.
Proof.
  intros Hf Hr. unfold Num.Math_round.
  destruct (Prim2SF b) as [s|s| |s m e] eqn:Hb; try (split; assumption).
  destruct (Z.leb_spec 0 e) as [He|He]; [split; assumption|].
  pose proof (Prim2SF_valid b) as Hv. rewrite Hb in Hv.
  pose proof (bounded_spec m e Hv) as (Hex & _ & _).
  pose proof (mag_bounds m e Hv) as Hmag. unfold mag in Hmag.
  assert (Hfb : frank b = rank (S754_finite s m e)) by (unfold frank; now rewrite Hb).
  cbn [rank] in Hfb. rewrite Hfb in Hr.
  destruct s; [lia|]. cbv zeta.
  pose proof (pow2_pos (- e) ltac:(lia)) as Hden.
  assert (Hm : (Z.pos m <= 10000 * 2 ^ (- e))%Z).
  { assert (Hsplit : (2 ^ 1074 = 2 ^ (- e) * 2 ^ (e + 1074))%Z)
      by (rewrite <- pow2_split by lia; f_equal; lia).
    rewrite frank_ten_thousand, Hsplit in Hr.
    pose proof (pow2_pos (e + 1074) ltac:(lia)) as Hp.
    revert Hr Hp. generalize (2 ^ (e + 1074))%Z (2 ^ (- e))%Z. intros A B Hr Hp. nia. }
  assert (Hn : (0 <= (2 * Z.pos m + 2 ^ (- e)) / (2 * 2 ^ (- e)) <= 10000)%Z).
  { split; [apply Z.div_pos; lia|].
    apply Z.lt_succ_r. apply Z.div_lt_upper_bound; lia. }
  revert Hn. generalize ((2 * Z.pos m + 2 ^ (- e)) / (2 * 2 ^ (- e)))%Z. intros n Hn.
  destruct (Z.eqb_spec n 0) as [->|Hne].
  - split; [reflexivity|]. rewrite frank_ten_thousand.
    pose proof (pow2_pos 1074 ltac:(lia)).
    assert (Hz : frank zero = 0%Z) by reflexivity. rewrite Hz. lia.
  - unfold Num.of_Z. replace (n <? 0)%Z with false by (symmetry; apply Z.ltb_ge; lia).
    rewrite Z.abs_eq by lia.
    assert (Hround : rounds (n * 2 ^ 1074) 1 (Prim2SF (of_uint63 (Uint63.of_Z n)))).
    { rewrite of_uint63_spec.
      replace (Uint63Axioms.to_Z (Uint63.of_Z n)) with n.
      - destruct n as [|p|p]; try lia. cbn [binary_normalize].
        apply (binary_round_rounds p 0). lia.
      - symmetry. rewrite Uint63.of_Z_spec. apply Z.mod_small.
        split; [lia|]. apply Z.le_lt_trans with 10000%Z; [lia|reflexivity]. }
    pose proof (pow2_pos 1074 ltac:(lia)) as HK.
    assert (Hle : (frank (of_uint63 (Uint63.of_Z n)) <= frank 10000)%Z)
      by (apply (rounds_le _ _ _ 10000 Hround); [reflexivity| | |];
          rewrite ?frank_ten_thousand; nia).
    assert (Hnn : (0 <= frank (of_uint63 (Uint63.of_Z n)))%Z)
      by (apply (rounds_nonneg _ _ _ Hround); nia).
    split; [|lia].
    apply (rounds_is_finite _ _ _ 10000 Hround); [reflexivity| | |exact Hle]; nia.
Qed.

(** A coordinate between the least and the greatest one is normalized into
    [0, 100]. *)
Lemma normalized_range (v lo hi : float) :
  Num.is_finite v = true -> Num.is_finite lo = true -> Num.is_finite hi = true ->
  Num.is_finite (hi - lo) = true -> (0 <? hi - lo) = true ->
  (frank lo <= frank v <= frank hi)%Z ->
  (0 <=? round2 (normalizeCoord v lo (hi - lo))) = true
  /\ (round2 (normalizeCoord v lo (hi - lo)) <=? 100) = true.
Proof.
  intros Hv Hlo Hhi Hw Hpos Hr. unfold normalizeCoord, round2. rewrite Hpos.
  assert (Hf1 : Num.is_finite 1 = true) by reflexivity.
  assert (Hf100 : Num.is_finite 100 = true) by reflexivity.
  assert (Hf10000 : Num.is_finite 10000 = true) by reflexivity.
  (* the extent *)
  pose proof (float_sub_rounds hi lo Hhi Hlo ltac:(lia)) as Rw.
  assert (Hwpos : (0 < frank (hi - lo))%Z).
  { rewrite ltb_frank in Hpos by (apply finite_not_nan; first [reflexivity|assumption]).
    apply Z.ltb_lt in Hpos. exact Hpos. }
  (* v - lo *)
  pose proof (float_sub_rounds v lo Hv Hlo ltac:(lia)) as Rd.
  assert (Hd0 : (0 <= frank (v - lo))%Z)
    by (apply (rounds_nonneg _ _ _ Rd); lia).
  assert (Hdw : (frank (v - lo) <= frank (hi - lo))%Z).
  { destruct Rd as [_ Rd], Rw as [_ Rw].
    apply (rnd_mono _ 1 _ _ 1 _ ltac:(lia) ltac:(lia) Rd Rw). lia. }
  assert (Hfd : Num.is_finite (v - lo) = true)
    by (apply (rounds_is_finite _ _ _ (hi - lo) Rd Hw); [lia|lia|exact Hdw]).
  clear Rd Rw.
  revert Hw Hwpos Hd0 Hdw Hfd. generalize (v - lo) (hi - lo). intros d w Hw Hwpos Hd0 Hdw Hfd.
  (* ... / extent *)
  pose proof (float_div_rounds d w Hfd Hw Hd0 Hwpos) as Rq.
  (* ... * 100 *)
  assert (Hq : Num.is_finite (d / w) = true /\ (0 <= frank (d / w) <= frank 1)%Z).
  { pose proof (pow2_pos 1074 ltac:(lia)) as HK. pose proof frank_one as H1.
    revert Rq H1 HK. generalize (2 ^ 1074)%Z. intros K Rq H1 HK.
    assert (Hq0 : (0 <= frank (d / w))%Z) by (apply (rounds_nonneg _ _ _ Rq); nia).
    assert (Hq1 : (frank (d / w) <= frank 1)%Z)
      by (apply (rounds_le _ _ _ 1 Rq Hf1); nia).
    split; [|lia]. apply (rounds_is_finite _ _ _ 1 Rq Hf1); nia. }
  clear Rq. revert Hq. generalize (d / w). intros q [Hfq Hq].
  pose proof (float_mul_rounds q 100 Hfq Hf100 ltac:(lia) ltac:(reflexivity)) as Ra.
  assert (Ha : Num.is_finite (q * 100) = true /\ (0 <= frank (q * 100) <= frank 100)%Z).
  { pose proof (pow2_pos 1074 ltac:(lia)) as HK.
    pose proof frank_one as H1. pose proof frank_hundred as H100.
    revert Ra H1 H100 HK. generalize (2 ^ 1074)%Z. intros K Ra H1 H100 HK.
    assert (Ha0 : (0 <= frank (q * 100))%Z) by (apply (rounds_nonneg _ _ _ Ra); nia).
    assert (Ha1 : (frank (q * 100) <= frank 100)%Z)
      by (apply (rounds_le _ _ _ 100 Ra Hf100); nia).
    split; [|lia]. apply (rounds_is_finite _ _ _ 100 Ra Hf100); nia. }
  clear Ra. revert Ha. generalize (q * 100). intros a [Hfa Ha].
  (* Math.round(... * 100) *)
  pose proof (float_mul_rounds a 100 Hfa Hf100 ltac:(lia) ltac:(reflexivity)) as Rb.
  assert (Hb : Num.is_finite (a * 100) = true /\ (0 <= frank (a * 100) <= frank 10000)%Z).
  { pose proof (pow2_pos 1074 ltac:(lia)) as HK.
    pose proof frank_hundred as H100. pose proof frank_ten_thousand as H10000.
    revert Rb H100 H10000 HK. generalize (2 ^ 1074)%Z. intros K Rb H100 H10000 HK.
    assert (Hb0 : (0 <= frank (a * 100))%Z) by (apply (rounds_nonneg _ _ _ Rb); nia).
    assert (Hb1 : (frank (a * 100) <= frank 10000)%Z)
      by (apply (rounds_le _ _ _ 10000 Rb Hf10000); nia).
    split; [|lia]. apply (rounds_is_finite _ _ _ 10000 Rb Hf10000); nia. }
  clear Rb. destruct Hb as [Hfb Hb].
  destruct (Math_round_range (a * 100) Hfb Hb) as (Hfc & Hc).
  revert Hfc Hc. generalize (Num.Math_round (a * 100)). intros c Hfc Hc.
  (* ... / 100 *)
  pose proof (float_div_rounds c 100 Hfc Hf100 ltac:(lia) ltac:(reflexivity)) as Rr.
  assert (Hres : (0 <= frank (c / 100) <= frank 100)%Z).
  { pose proof (pow2_pos 1074 ltac:(lia)) as HK.
    pose proof frank_hundred as H100. pose proof frank_ten_thousand as H10000.
    revert Rr H100 H10000 HK. generalize (2 ^ 1074)%Z. intros K Rr H100 H10000 HK.
    assert (Hr0 : (0 <= frank (c / 100))%Z) by (apply (rounds_nonneg _ _ _ Rr); nia).
    assert (Hr1 : (frank (c / 100) <= frank 100)%Z)
      by (apply (rounds_le _ _ _ 100 Rr Hf100); nia).
    lia. }
  rewrite !leb_frank; try (apply finite_not_nan; reflexivity); try exact (proj1 Rr).
  assert (Hz : frank 0 = 0%Z) by reflexivity. rewrite Hz.
  split; apply Z.leb_le; lia.
Qed.

(** *** The least and the greatest of a list of Numbers *)

Lemma Math_min_frank (a b : float) :
  Prim2SF (Num.Math_min a b) <> S754_nan ->
  Prim2SF a <> S754_nan /\ Prim2SF b <> S754_nan
  /\ frank (Num.Math_min a b) = Z.min (frank a) (frank b).
Proof.
  unfold Num.Math_min.
  destruct (is_nan a) eqn:Ha; [intros H; now contradiction H|].
  destruct (is_nan b) eqn:Hb; [intros H; now contradiction H|].
  cbn [orb]. apply is_nan_false in Ha, Hb. intros _.
  split; [assumption|]. split; [assumption|].
  rewrite (ltb_frank a b Ha Hb), (ltb_frank b a Hb Ha).
  destruct (Z.ltb_spec (frank a) (frank b)); [lia|].
  destruct (Z.ltb_spec (frank b) (frank a)); [lia|].
  destruct (is_zero a && get_sign a); lia.
Qed.

Lemma Math_max_frank (a b : float) :
  Prim2SF (Num.Math_max a b) <> S754_nan ->
  Prim2SF a <> S754_nan /\ Prim2SF b <> S754_nan
  /\ frank (Num.Math_max a b) = Z.max (frank a) (frank b).
Proof.
  unfold Num.Math_max.
  destruct (is_nan a) eqn:Ha; [intros H; now contradiction H|].
  destruct (is_nan b) eqn:Hb; [intros H; now contradiction H|].
  cbn [orb]. apply is_nan_false in Ha, Hb. intros _.
  split; [assumption|]. split; [assumption|].
  rewrite (ltb_frank a b Ha Hb), (ltb_frank b a Hb Ha).
  destruct (Z.ltb_spec (frank b) (frank a)); [lia|].
  destruct (Z.ltb_spec (frank a) (frank b)); [lia|].
  destruct (is_zero a && negb (get_sign a)); lia.
Qed.

Lemma fold_min_frank (vs : list float) (init : float) :
  Prim2SF (fold_left Num.Math_min vs init) <> S754_nan ->
  forall v, In v vs ->
    Prim2SF v <> S754_nan
    /\ (frank (fold_left Num.Math_min vs init) <= frank v)%Z.
Proof.
  assert (Hgen : forall vs init,
    Prim2SF (fold_left Num.Math_min vs init) <> S754_nan ->
    Prim2SF init <> S754_nan
    /\ (frank (fold_left Num.Math_min vs init) <= frank init)%Z
    /\ forall v, In v vs ->
         Prim2SF v <> S754_nan
         /\ (frank (fold_left Num.Math_min vs init) <= frank v)%Z).
  { clear vs init. induction vs as [|v0 vs IH]; intros init Hn.
    - cbn [fold_left] in *. split; [assumption|]. split; [lia|]. intros v [].
    - cbn [fold_left] in *. destruct (IH _ Hn) as (Hn' & Hle & Hall).
      destruct (Math_min_frank init v0 Hn') as (Hi & Hv0 & Hmin).
      split; [assumption|]. split; [lia|].
      intros v [<-|Hin]; [split; [assumption|lia]|now apply Hall]. }
  intros Hn. exact (proj2 (proj2 (Hgen vs init Hn))).
Qed.

Lemma fold_max_frank (vs : list float) (init : float) :
  Prim2SF (fold_left Num.Math_max vs init) <> S754_nan ->
  forall v, In v vs ->
    Prim2SF v <> S754_nan
    /\ (frank v <= frank (fold_left Num.Math_max vs init))%Z.
Proof.
  assert (Hgen : forall vs init,
    Prim2SF (fold_left Num.Math_max vs init) <> S754_nan ->
    Prim2SF init <> S754_nan
    /\ (frank init <= frank (fold_left Num.Math_max vs init))%Z
    /\ forall v, In v vs ->
         Prim2SF v <> S754_nan
         /\ (frank v <= frank (fold_left Num.Math_max vs init))%Z).
  { clear vs init. induction vs as [|v0 vs IH]; intros init Hn.
    - cbn [fold_left] in *. split; [assumption|]. split; [lia|]. intros v [].
    - cbn [fold_left] in *. destruct (IH _ Hn) as (Hn' & Hle & Hall).
      destruct (Math_max_frank init v0 Hn') as (Hi & Hv0 & Hmax).
      split; [assumption|]. split; [lia|].
      intros v [<-|Hin]; [split; [assumption|lia]|now apply Hall]. }
  intros Hn. exact (proj2 (proj2 (Hgen vs init Hn))).
Qed.

(** ** The normalizer *)

(** The least and the greatest coordinate as the two [forEach] passes
    compute them, and one axis of the normalization. *)
Definition axisMin (vs : list float) : float := fold_left Num.Math_min vs infinity.
Definition axisMax (vs : list float) : float := fold_left Num.Math_max vs neg_infinity.
Definition axisExtent (vs : list float) : float := axisMax vs - axisMin vs.

Definition normalizeAxis (vs : list float) : list float :=
  map (fun v => round2 (normalizeCoord v (axisMin vs) (axisExtent vs))) vs.

Lemma boundingBox_fold (points : list Point.t) (b : Box.t) :
  let r := fold_left Box.add points b in
  Box.minX r = fold_left Num.Math_min (map Point.x points) (Box.minX b)
  /\ Box.maxX r = fold_left Num.Math_max (map Point.x points) (Box.maxX b)
  /\ Box.minY r = fold_left Num.Math_min (map Point.y points) (Box.minY b)
  /\ Box.maxY r = fold_left Num.Math_max (map Point.y points) (Box.maxY b).
Proof.
  revert b. induction points as [|p points IH]; intros b; [cbn; auto|].
  cbn [fold_left map]. apply (IH (Box.add b p)).
Qed.

Lemma normalize_axes (points : list Point.t) :
  map Point.x (normalize points) = normalizeAxis (map Point.x points)
  /\ map Point.y (normalize points) = normalizeAxis (map Point.y points).
Proof.
  unfold normalize, normalizeAxis, normalizePoint, axisExtent, axisMin, axisMax,
    boundingBox, Box.width, Box.height.
  destruct (boundingBox_fold points Box.empty) as (-> & -> & -> & ->).
  rewrite !map_map. split; reflexivity.
Qed.

Lemma fold_min_cases (vs : list float) (init : float) :
  let r := fold_left Num.Math_min vs init in
  r = init \/ r = nan \/ In r vs.
Proof.
  revert init. induction vs as [|v vs IH]; intros init; [now left|].
  cbn [fold_left]. destruct (IH (Num.Math_min init v)) as [H | [H | H]].
  - cbv zeta. rewrite H. unfold Num.Math_min.
    destruct (is_nan init || is_nan v); [auto|].
    destruct (init <? v); [auto|]. destruct (v <? init); [cbn; auto|].
    destruct (is_zero init && get_sign init); cbn; auto.
  - auto.
  - right. right. now right.
Qed.

Lemma fold_max_cases (vs : list float) (init : float) :
  let r := fold_left Num.Math_max vs init in
  r = init \/ r = nan \/ In r vs.
Proof.
  revert init. induction vs as [|v vs IH]; intros init; [now left|].
  cbn [fold_left]. destruct (IH (Num.Math_max init v)) as [H | [H | H]].
  - cbv zeta. rewrite H. unfold Num.Math_max.
    destruct (is_nan init || is_nan v); [auto|].
    destruct (v <? init); [auto|]. destruct (init <? v); [cbn; auto|].
    destruct (is_zero init && negb (get_sign init)); cbn; auto.
  - auto.
  - right. right. now right.
Qed.

Lemma finite_extent (vs : list float) :
  Num.is_finite (axisExtent vs) = true ->
  Num.is_finite (axisMin vs) = true /\ Num.is_finite (axisMax vs) = true
  /\ In (axisMin vs) vs /\ In (axisMax vs) vs.
Proof.
  intros H. apply float_sub_finite in H as [Hhi Hlo].
  repeat split; try assumption.
  - destruct (fold_min_cases vs infinity) as [E | [E | E]]; [| |exact E];
      unfold axisMin in Hlo; rewrite E in Hlo; discriminate.
  - destruct (fold_max_cases vs neg_infinity) as [E | [E | E]]; [| |exact E];
      unfold axisMax in Hhi; rewrite E in Hhi; discriminate.
Qed.

(** What the claim on the span asks of one axis: with a finite, positive
    extent the least coordinate is sent to 0 and the greatest to 100, both
    being coordinates of the path, and every normalized coordinate lies in
    [0, 100]; with a zero extent every coordinate becomes 50. *)
Definition axisSpans (absolute normalized : list float) : Prop :=
  (Num.is_finite (axisExtent absolute) = true ->
   (0 <? axisExtent absolute) = true ->
   In (axisMin absolute) absolute /\ In (axisMax absolute) absolute
   /\ (forall k v,
        nth_error absolute k = Some v ->
        (v = axisMin absolute -> nth_error normalized k = Some 0)
        /\ (v = axisMax absolute -> nth_error normalized k = Some 100))
   /\ (forall v, In v normalized -> (0 <=? v) = true /\ (v <=? 100) = true))
  /\ ((axisExtent absolute =? 0) = true ->
      forall v, In v normalized -> v = 50).

Lemma normalizeAxis_range (vs : list float) :
  Num.is_finite (axisExtent vs) = true -> (0 <? axisExtent vs) = true ->
  forall v, In v (normalizeAxis vs) -> (0 <=? v) = true /\ (v <=? 100) = true.
Proof.
  intros Hfin Hpos r Hin.
  destruct (finite_extent vs Hfin) as (Hlo & Hhi & _ & _).
  unfold normalizeAxis in Hin. apply in_map_iff in Hin as (v & <- & Hv).
  destruct (fold_min_frank vs infinity (finite_not_nan _ Hlo) v Hv) as [Hn Hge].
  destruct (fold_max_frank vs neg_infinity (finite_not_nan _ Hhi) v Hv) as [_ Hle].
  fold (axisMin vs) in Hge. fold (axisMax vs) in Hle.
  pose proof (frank_finite _ Hlo). pose proof (frank_finite _ Hhi).
  apply normalized_range; try assumption; [|lia].
  apply frank_is_finite; [assumption|lia].
Qed.

Lemma normalizeAxis_spans (vs : list float) : axisSpans vs (normalizeAxis vs).
Proof.
  split.
  - intros Hfin Hpos.
    destruct (finite_extent vs Hfin) as (Hlo & Hhi & Hinlo & Hinhi).
    split; [assumption|]. split; [assumption|].
    split; [|now apply normalizeAxis_range].
    intros k v Hk.
    split; intros ->; unfold normalizeAxis;
      rewrite nth_error_map, Hk; cbn [option_map]; f_equal;
      unfold normalizeCoord; rewrite Hpos.
    + rewrite (float_sub_self _ Hlo), (float_zero_div _ Hfin Hpos).
      vm_compute. reflexivity.
    + fold (axisExtent vs). rewrite (float_div_self _ Hfin Hpos).
      vm_compute. reflexivity.
  - intros Hzero v Hin. unfold normalizeAxis in Hin.
    apply in_map_iff in Hin as (v0 & <- & _).
    unfold normalizeCoord. rewrite (float_zero_not_positive _ Hzero).
    vm_compute. reflexivity.
Qed.

(** The points in path space that [extractPointsFromPath] normalizes: the
    value of [absolutePoints] when the loop over the tokens has ended. *)
Definition absolutePointsOf (fuel : nat) (path : jsstring)
    (options : PolygonConversionOptions) : result (list Point.t) :=
  bind (tokenizePath path) (fun tokens =>
  bind (tokenLoop fuel (orDefault (curveSegments options) 8%nat)
          (orDefault (arcSegments options) 16%nat) (St.init tokens))
       (fun s => Ret (St.absolutePoints s))).

Lemma extract_normalizes (fuel : nat) (path : jsstring)
    (options : PolygonConversionOptions) (points : list Point.t) :
  extractPointsFromPath fuel path options = Ret points ->
  exists absolutePoints,
    absolutePointsOf fuel path options = Ret absolutePoints
    /\ absolutePoints <> []
    /\ points = normalize absolutePoints.
Proof.
  intros H. apply extract_returns in H as (tokens & s & Htok & Hloop & Hne & ->).
  exists (St.absolutePoints s). unfold absolutePointsOf.
  rewrite Htok. cbn [bind]. rewrite Hloop. auto.
Qed.

(** C6, as the code has it. On every accepted input, each axis whose extent
    in path space is positive and finite spans exactly [0, 100] after
    normalization: every normalized coordinate lies in [0, 100], the least
    coordinate is sent to exactly 0 and the greatest to exactly 100, both
    being attained; on an axis of zero extent every normalized coordinate is
    exactly 50. *)
Theorem normalized_span (fuel : nat) (path : jsstring)
    (options : PolygonConversionOptions) (points : list Point.t) :
  extractPointsFromPath fuel path options = Ret points ->
  exists absolutePoints,
    absolutePointsOf fuel path options = Ret absolutePoints
    /\ absolutePoints <> []
    /\ List.length points = List.length absolutePoints
    /\ axisSpans (map Point.x absolutePoints) (map Point.x points)
    /\ axisSpans (map Point.y absolutePoints) (map Point.y points).
Proof.
  intros H. apply extract_normalizes in H as (a & Ha & Hne & ->).
  exists a. destruct (normalize_axes a) as [-> ->].
  split; [assumption|]. split; [assumption|].
  split; [unfold normalize; apply length_map|].
  split; apply normalizeAxis_spans.
Qed.

(** ** Flattening: how many points a segment emits *)

Lemma sampleCurve_length (segments : nat) (f : float -> Point.t) :
  List.length (sampleCurve segments f) = segments.
Proof. unfold sampleCurve. now rewrite length_map, length_seq. Qed.

Lemma sampleCurve_nth (segments : nat) (f : float -> Point.t) (k : nat) :
  (k < segments)%nat ->
  nth_error (sampleCurve segments f) k
  = Some (f (Num.of_nat (S k) / Num.of_nat segments)).
Proof.
  intros Hk. unfold sampleCurve.
  rewrite nth_error_map, nth_error_seq.
  replace (k <? segments)%nat with true by (symmetry; now apply Nat.ltb_lt).
  reflexivity.
Qed.

Lemma cubic_absolute_runs (curveSegments arcSegments : nat) (isFirstCoordSet : bool)
    (s : St.t) (x1 y1 x2 y2 vx vy : float) (rest' : list Token) :
  St.rest s = map Number [x1; y1; x2; y2; vx; vy] ++ rest' ->
  execCommand curveSegments arcSegments (str "C") isFirstCoordSet s
  = cubicTo curveSegments x1 y1 x2 y2 vx vy (afterOperands 6 rest' s).
Proof.
  intros Hrest. unfold execCommand. eval_cmdIs.
  unfold mbind at 1. unfold getNumber at 1. rewrite Hrest. cbn. reflexivity.
Qed.

(** A cubic command with [curveSegments = N] appends exactly [N] points,
    the [k]-th being the curve at [t = k / N], and moves the cursor to the
    end of the curve; the start of the curve is not appended again. *)
Lemma cubic_flattening_samples (curveSegments arcSegments : nat)
    (isFirstCoordSet : bool) (s : St.t) (x1 y1 x2 y2 vx vy : float)
    (rest' : list Token) :
  St.rest s = map Number [x1; y1; x2; y2; vx; vy] ++ rest' ->
  exists s' emitted,
    execCommand curveSegments arcSegments (str "C") isFirstCoordSet s = Ret (tt, s')
    /\ St.absolutePoints s' = St.absolutePoints s ++ emitted
    /\ List.length emitted = curveSegments
    /\ (forall k, (k < curveSegments)%nat ->
          nth_error emitted k
          = Some (cubicBezier (St.currentX s) (St.currentY s) x1 y1 x2 y2 vx vy
                    (Num.of_nat (S k) / Num.of_nat curveSegments)))
    /\ St.currentX s' = vx /\ St.currentY s' = vy.
Proof.
  intros Hrest. rewrite (cubic_absolute_runs _ _ _ _ _ _ _ _ _ _ _ Hrest).
  unfold cubicTo, setCurrent, mbind, bind, get, modify.
  eexists. eexists. split; [reflexivity|]. cbn.
  split; [reflexivity|]. split; [apply sampleCurve_length|].
  split; [|auto]. intros k Hk. now apply sampleCurve_nth.
Qed.

(** With both radii different from zero the arc flattener returns exactly
    [segments] points. *)
Lemma approximateArc_length (x1 y1 rx ry xAxisRotation : float)
    (largeArcFlag sweepFlag : bool) (x2 y2 : float) (segments : nat) :
  (rx =? 0) = false -> (ry =? 0) = false ->
  List.length
    (approximateArc x1 y1 rx ry xAxisRotation largeArcFlag sweepFlag x2 y2 segments)
  = segments.
Proof.
  intros Hx Hy. unfold approximateArc. rewrite Hx, Hy. cbn [orb].
  apply sampleCurve_length.
Qed.

(** The arc of the example, from (0,0) to (100,100) with radii 50: exactly
    [arcSegments] points whatever the engine's trigonometry. *)
Lemma example_arc_length (segments : nat) :
  List.length (approximateArc 0 0 50 50 0 false true 100 100 segments) = segments.
Proof. now apply approximateArc_length. Qed.

(** ** Binary64 facts used by the flattener *)

Lemma binary_round_aux_canonical (s : bool) (m : positive) (e : Z) :
  fexp prec emax (Z.pos (digits2_pos m) + e) = e ->
  (e <=? emax - prec)%Z = true ->
  binary_round_aux prec emax s (Z.pos m) e loc_Exact = S754_finite s m e.
Proof.
  intros Hcanon Hbound.
  assert (H : shr_fexp prec emax (Z.pos m) e loc_Exact
              = ({| shr_m := Z.pos m; shr_r := false; shr_s := false |}, e)).
  { unfold shr_fexp. cbn [Zdigits2]. rewrite Hcanon, Z.sub_diag. reflexivity. }
  unfold binary_round_aux. rewrite H.
  cbn [shr_m loc_of_shr_record round_nearest_even]. rewrite H. cbn [shr_m].
  now rewrite Hbound.
Qed.

Lemma float_one_mul_finite (x : float) (s : bool) (m : positive) (e : Z) :
  Prim2SF x = S754_finite s m e -> 1 * x = x.
Proof.
  intros Hx. apply Prim2SF_inj. rewrite mul_spec, Hx.
  pose proof (Prim2SF_valid x) as Hv. rewrite Hx in Hv.
  unfold SpecFloat.valid_binary, bounded, canonical_mantissa in Hv.
  apply andb_prop in Hv as [Hcanon Hbound]. apply Z.eqb_eq in Hcanon.
  change (Prim2SF 1) with (S754_finite false 4503599627370496 (-52)).
  cbv [SF64mul SFmul]. cbn [xorb Pos.mul].
  cbv [binary_round_aux].
  set (m0 := (m~0~0~0~0~0~0~0~0~0~0~0~0~0~0~0~0~0~0~0~0~0~0~0~0~0~0~0~0~0~0~0~0~0~0~0~0~0~0~0~0~0~0~0~0~0~0~0~0~0~0~0~0)%positive).
  assert (Hd : (Z.pos (digits2_pos m0) = Z.pos (digits2_pos m) + 52)%Z).
  { subst m0. cbn [digits2_pos]. lia. }
  assert (Hshift : (fexp prec emax (Zdigits2 (Z.pos m0) + (-52 + e)) - (-52 + e) = 52)%Z).
  { cbn [Zdigits2]. rewrite Hd.
    replace (Z.pos (digits2_pos m) + 52 + (-52 + e))%Z with (Z.pos (digits2_pos m) + e)%Z by lia.
    change (fexp prec emax (Z.pos (digits2_pos m) + e)) with (SpecFloat.fexp prec emax (Z.pos (digits2_pos m) + e)).
    rewrite Hcanon. lia. }
  assert (H1 : shr_fexp prec emax (Z.pos m0) (-52 + e) loc_Exact
               = ({| shr_m := Z.pos m; shr_r := false; shr_s := false |}, e)).
  { unfold shr_fexp. rewrite Hshift. subst m0.
    cbn [shr shr_record_of_loc iter_pos shr_1 orb]. f_equal. lia. }
  assert (H2 : shr_fexp prec emax (Z.pos m) e loc_Exact
               = ({| shr_m := Z.pos m; shr_r := false; shr_s := false |}, e)).
  { unfold shr_fexp. cbn [Zdigits2]. rewrite Hcanon, Z.sub_diag. reflexivity. }
  rewrite H1. cbn [shr_m loc_of_shr_record round_nearest_even].
  rewrite H2. cbn [shr_m]. rewrite Hbound. reflexivity.
Qed.

Lemma float_one_mul (x : float) : Num.is_finite x = true -> 1 * x = x.
Proof.
  unfold Num.is_finite. intros H.
  destruct (Prim2SF x) as [s|s| |s m e] eqn:Hx; try discriminate.
  - apply Prim2SF_inj. rewrite mul_spec, Hx. destruct s; reflexivity.
  - exact (float_one_mul_finite x s m e Hx).
Qed.

Definition is_zero_sf (f : spec_float) : bool :=
  match f with S754_zero _ => true | _ => false end.

Lemma float_zero_mul (x : float) :
  Num.is_finite x = true -> is_zero_sf (Prim2SF (0 * x)) = true.
Proof.
  unfold Num.is_finite. intros H. rewrite mul_spec.
  destruct (Prim2SF x) as [s|s| |s m e]; try discriminate; reflexivity.
Qed.

Lemma float_zero_add_zero (a b : float) :
  is_zero_sf (Prim2SF a) = true -> is_zero_sf (Prim2SF b) = true ->
  is_zero_sf (Prim2SF (a + b)) = true.
Proof.
  rewrite add_spec.
  destruct (Prim2SF a) as [s|s| |s m e], (Prim2SF b) as [s'|s'| |s' m' e'];
    try discriminate. destruct s, s'; reflexivity.
Qed.

Lemma float_zero_add (a x : float) :
  is_zero_sf (Prim2SF a) = true -> Num.is_finite x = true -> (a + x =? x) = true.
Proof.
  unfold Num.is_finite. rewrite eqb_spec, add_spec.
  destruct (Prim2SF a) as [s|s| |s m e]; try discriminate.
  destruct (Prim2SF x) as [s'|s'| |s' m' e']; try discriminate; intros _ _.
  - destruct s, s'; reflexivity.
  - cbn. unfold SFeqb, SFcompare. rewrite Z.compare_refl.
    destruct s'; rewrite Pos.compare_cont_refl; reflexivity.
Qed.

Lemma digits2_pos_bound (p : positive) :
  forall k, (Z.pos p < 2 ^ k)%Z -> (0 <= k)%Z -> (Z.pos (digits2_pos p) <= k)%Z.
Proof.
  induction p as [p IH|p IH|]; intros k Hp Hk.
  - assert (1 <= k)%Z by (destruct (Z.eq_dec k 0) as [->|]; [cbn in Hp|]; lia).
    replace k with (Z.succ (k - 1)) in Hp by lia. rewrite Z.pow_succ_r in Hp by lia.
    rewrite Pos2Z.inj_xI in Hp.
    cbn [digits2_pos]. rewrite Pos2Z.inj_succ. specialize (IH (k - 1)%Z). lia.
  - assert (1 <= k)%Z by (destruct (Z.eq_dec k 0) as [->|]; [cbn in Hp|]; lia).
    replace k with (Z.succ (k - 1)) in Hp by lia. rewrite Z.pow_succ_r in Hp by lia.
    rewrite Pos2Z.inj_xO in Hp.
    cbn [digits2_pos]. rewrite Pos2Z.inj_succ. specialize (IH (k - 1)%Z). lia.
  - destruct (Z.eq_dec k 0) as [->|]; [cbn in Hp; lia|]. cbn. lia.
Qed.

Lemma digits2_pos_shift (p d : positive) :
  Z.pos (digits2_pos (Pos.iter xO p d)) = (Z.pos (digits2_pos p) + Z.pos d)%Z.
Proof.
  induction d as [|d IH] using Pos.peano_ind.
  - cbn. lia.
  - rewrite Pos.iter_succ. cbn [digits2_pos]. rewrite Pos2Z.inj_succ, IH. lia.
Qed.

Lemma binary_round_small (p : positive) :
  (Z.pos p < 2 ^ 53)%Z ->
  exists m e, binary_round prec emax false p 0 = S754_finite false m e.
Proof.
  intros Hp. pose proof (digits2_pos_bound p 53 Hp ltac:(lia)) as Hd.
  unfold binary_round.
  assert (He : fexp prec emax (Z.pos (digits2_pos p) + 0) = (Z.pos (digits2_pos p) - 53)%Z).
  { unfold fexp, emin, prec, emax. lia. }
  rewrite He. unfold shl_align. rewrite Z.sub_0_r.
  destruct (Z.pos (digits2_pos p) - 53)%Z as [|q|q] eqn:Hq; [|lia|].
  - exists p, 0%Z. apply binary_round_aux_canonical; [|reflexivity].
    rewrite He. lia.
  - exists (Pos.iter xO p q), (Z.neg q). apply binary_round_aux_canonical.
    + rewrite digits2_pos_shift. unfold fexp, emin, prec, emax.
      lia.
    + apply Z.leb_le. unfold emax, prec. lia.
Qed.

Lemma float_of_nat_positive (n : nat) :
  (0 < n)%nat -> (Z.of_nat n < 2 ^ 53)%Z ->
  Num.is_finite (Num.of_nat n) = true /\ (0 <? Num.of_nat n) = true.
Proof.
  intros Hpos Hsmall. unfold Num.of_nat, Num.of_Z.
  replace (Z.of_nat n <? 0)%Z with false by (symmetry; apply Z.ltb_ge; lia).
  rewrite Z.abs_eq by lia.
  cbv zeta. unfold Num.is_finite. rewrite ltb_spec, of_uint63_spec.
  replace (Uint63Axioms.to_Z (Uint63.of_Z (Z.of_nat n))) with (Z.of_nat n).
  - destruct (Z.of_nat n) as [|p|p] eqn:Hn; try lia.
    cbn [binary_normalize].
    destruct (binary_round_small p Hsmall) as (m & e & ->). split; reflexivity.
  - symmetry. rewrite Uint63.of_Z_spec. apply Z.mod_small.
    split; [lia|]. eapply Z.lt_trans; [exact Hsmall|]. reflexivity.
Qed.

(** At [t = 1] the cubic is at its end point, when the four points are
    finite; the equality is that of [===]. *)
Lemma cubicBezier_at_one (x0 y0 x1 y1 x2 y2 x3 y3 : float) :
  forallb Num.is_finite [x0; y0; x1; y1; x2; y2; x3; y3] = true ->
  (Point.x (cubicBezier x0 y0 x1 y1 x2 y2 x3 y3 1) =? x3) = true
  /\ (Point.y (cubicBezier x0 y0 x1 y1 x2 y2 x3 y3 1) =? y3) = true.
Proof.
  cbn [forallb]. rewrite !andb_true_iff.
  intros (Hx0 & Hy0 & Hx1 & Hy1 & Hx2 & Hy2 & Hx3 & Hy3 & _).
  assert (Hend : forall a b c d,
    Num.is_finite a = true -> Num.is_finite b = true -> Num.is_finite c = true ->
    Num.is_finite d = true ->
    (0 * a + 0 * b + 0 * c + 1 * d =? d) = true).
  { intros a b c d Ha Hb Hc Hd. rewrite (float_one_mul d Hd).
    apply float_zero_add; [|assumption].
    repeat apply float_zero_add_zero; now apply float_zero_mul. }
  split; [exact (Hend x0 x1 x2 x3 Hx0 Hx1 Hx2 Hx3)
         | exact (Hend y0 y1 y2 y3 Hy0 Hy1 Hy2 Hy3)].
Qed.

(** With an infinite control point the last sample is not the end point. *)
Lemma cubicBezier_at_one_infinite :
  cubicBezier 0 0 infinity 0 0 0 1 1 1 = Point.mk nan 1.
Proof. vm_compute. reflexivity. Qed.

(** The last sample is taken at [t = N / N = 1]. *)
Lemma sampleCurve_last (segments : nat) (f : float -> Point.t) :
  (0 < segments)%nat -> (Z.of_nat segments < 2 ^ 53)%Z ->
  nth_error (sampleCurve segments f) (segments - 1) = Some (f 1).
Proof.
  intros Hpos Hsmall. rewrite sampleCurve_nth by lia.
  replace (S (segments - 1)) with segments by lia.
  destruct (float_of_nat_positive segments Hpos Hsmall) as [Hf Hp].
  now rewrite (float_div_self _ Hf Hp).
Qed.

(** The last of the points a cubic command appends is the end point of the
    curve, when the cursor and the six operands are finite. *)
Lemma cubic_flattening_ends_at_endpoint (curveSegments arcSegments : nat)
    (isFirstCoordSet : bool) (s : St.t) (x1 y1 x2 y2 vx vy : float)
    (rest' : list Token) :
  St.rest s = map Number [x1; y1; x2; y2; vx; vy] ++ rest' ->
  (0 < curveSegments)%nat -> (Z.of_nat curveSegments < 2 ^ 53)%Z ->
  forallb Num.is_finite [St.currentX s; St.currentY s; x1; y1; x2; y2; vx; vy] = true ->
  exists s' emitted last,
    execCommand curveSegments arcSegments (str "C") isFirstCoordSet s = Ret (tt, s')
    /\ St.absolutePoints s' = St.absolutePoints s ++ emitted
    /\ List.length emitted = curveSegments
    /\ nth_error emitted (curveSegments - 1) = Some last
    /\ (Point.x last =? vx) = true /\ (Point.y last =? vy) = true.
Proof.
  intros Hrest Hpos Hsmall Hfin.
  rewrite (cubic_absolute_runs _ _ _ _ _ _ _ _ _ _ _ Hrest).
  unfold cubicTo, setCurrent, mbind, bind, get, modify.
  eexists. eexists. eexists. split; [reflexivity|]. cbn.
  split; [reflexivity|]. split; [apply sampleCurve_length|].
  split; [now apply sampleCurve_last|].
  now apply cubicBezier_at_one.
Qed.

(** ** A close-path with a trailing number *)

Lemma tokenLoop_close_number_spins (curveSegments arcSegments fuel : nat)
    (command : jsstring) (value : float) (tokens : list Token) :
  isClose command = true ->
  tokenLoop fuel curveSegments arcSegments
    (St.init (Command command :: Number value :: tokens)) = Spin.
Proof.
  intros Hc. destruct fuel as [|fuel]; [reflexivity|].
  cbn [tokenLoop St.init St.rest].
  rewrite (commandLoop_close_spins _ _ _ Hc); reflexivity.
Qed.

Lemma convert_close_number_spins (fuel : nat) (svgPath : jsstring)
    (options : PolygonConversionOptions) (command : jsstring) (value : float)
    (tokens : list Token) :
  isValidSvgPath (trim svgPath) = true ->
  tokenizePath (trim svgPath) = Ret (Command command :: Number value :: tokens) ->
  isClose command = true ->
  convertSvgPathToPolygon fuel svgPath options = Spin.
Proof.
  intros Hvalid Htok Hc. unfold convertSvgPathToPolygon.
  apply isValidSvgPath_iff in Hvalid as Hin. destruct Hin as (c & Hin & _).
  rewrite (isEmpty_false _ c (trim_incl _ _ Hin)), (isEmpty_false _ c Hin), Hvalid.
  cbn [orb negb]. unfold extractPointsFromPath. rewrite Htok. cbn [bind].
  now rewrite tokenLoop_close_number_spins.
Qed.

(** When the tokens start with a [Z]/[z] that a number follows, the
    conversion neither returns nor throws, however many iterations it is
    given: the call does not end. *)
Theorem close_then_number_hangs (fuel : nat) (svgPath : jsstring)
    (options : PolygonConversionOptions) (command : jsstring) (value : float)
    (tokens : list Token) :
  tokenizePath (trim svgPath) = Ret (Command command :: Number value :: tokens) ->
  command = str "Z" \/ command = str "z" ->
  convertSvgPathToPolygon fuel svgPath options = Spin.
Proof.
  intros Htok Hc. eapply convert_close_number_spins; [| exact Htok |].
  - apply isValidSvgPath_iff.
    apply (tokenizePath_letters (trim svgPath) _ Htok command). now left.
  - destruct Hc as [-> | ->]; reflexivity.
Qed.

(** The arc flattener returns exactly [segments] points for radii other
    than zero, as in the arc from (0,0) to (100,100) with radii 50; the start
    of the arc is the cursor and is not computed again. *)
Theorem arc_flattening_count (x1 y1 rx ry xAxisRotation : float)
    (largeArcFlag sweepFlag : bool) (x2 y2 : float) (segments : nat) :
  (rx =? 0) = false -> (ry =? 0) = false ->
  List.length
    (approximateArc x1 y1 rx ry xAxisRotation largeArcFlag sweepFlag x2 y2 segments)
  = segments.
Proof. apply approximateArc_length. Qed.

(** * Further properties of the code *)

(** ** The tokenizer: what the tokens are made of *)

(** The characters a number is scanned from. *)
Definition isNumberChar (c : N) : bool := isDigit c || oneOf (str ".eE+-") c.

Lemma oneOf_cons (c x : N) (set : jsstring) :
  oneOf (x :: set) c = (c =? x)%N || oneOf set c.
Proof. reflexivity. Qed.

Lemma isNumberChar_not_letter (c : N) :
  isNumberChar c = true -> isCommandLetter c = false.
Proof.
  unfold isNumberChar, isDigit, isCommandLetter, commandLetters.
  change (str ".eE+-") with [46; 101; 69; 43; 45]%N.
  change (str "MmLlHhVvCcSsQqTtAaZz")
    with [77; 109; 76; 108; 72; 104; 86; 118; 67; 99; 83; 115; 81; 113; 84; 116;
          65; 97; 90; 122]%N.
  rewrite !oneOf_cons. unfold oneOf. cbn [existsb].
  rewrite !orb_true_iff, andb_true_iff, !N.eqb_eq, !N.leb_le.
  intros H.
  repeat match goal with
         | |- context [(c =? ?k)%N] =>
             replace (c =? k)%N with false
               by (symmetry; apply N.eqb_neq; intuition (try discriminate; lia))
         end.
  reflexivity.
Qed.

Lemma isSeparator_not_letter (c : N) :
  isSeparator c = true -> isCommandLetter c = false.
Proof.
  unfold isSeparator, isCommandLetter, commandLetters.
  change (str "MmLlHhVvCcSsQqTtAaZz")
    with [77; 109; 76; 108; 72; 104; 86; 118; 67; 99; 83; 115; 81; 113; 84; 116;
          65; 97; 90; 122]%N.
  rewrite !oneOf_cons. unfold oneOf. cbn [existsb].
  rewrite !orb_true_iff, !N.eqb_eq. intros H.
  repeat match goal with
         | |- context [(c =? ?k)%N] =>
             replace (c =? k)%N with false
               by (symmetry; apply N.eqb_neq; intuition (try discriminate; lia))
         end.
  reflexivity.
Qed.

(** Case analysis on the test [H] starts with, the outcome kept as [E]. *)
Ltac case_if_as H E :=
  match type of H with
  | context [if ?b then _ else _] => destruct b eqn:E
  end.

(** What [scanNumber] takes is made of number characters. *)
Lemma scanNumber_chars (n : nat) :
  forall cs i numStr hasDecimal hasExponent numStr' j rest,
    (List.length cs <= n)%nat ->
    scanNumber cs i numStr hasDecimal hasExponent = (numStr', j, rest) ->
    exists taken,
      cs = taken ++ rest /\ numStr' = numStr ++ taken
      /\ forallb isNumberChar taken = true.
Proof.
  induction n as [|n IH]; intros cs i numStr hd he numStr' j rest Hlen H.
  - destruct cs; [|simpl in Hlen; lia]. simpl in H. inversion H; subst.
    exists []. rewrite !app_nil_r. auto.
  - destruct cs as [|c cs']; simpl in H.
    { inversion H; subst. exists []. rewrite !app_nil_r. auto. }
    simpl in Hlen.
    assert (Hone : forall hd' he',
      isNumberChar c = true ->
      scanNumber cs' (S i) (numStr ++ [c]) hd' he' = (numStr', j, rest) ->
      exists taken, c :: cs' = taken ++ rest /\ numStr' = numStr ++ taken
                    /\ forallb isNumberChar taken = true).
    { intros hd' he' Hc H'. apply IH in H' as (taken & -> & -> & Hall); [|lia].
      exists (c :: taken). rewrite <- app_assoc. cbn [forallb app].
      rewrite Hc, Hall. auto. }
    assert (Hdot : (c =? ch ".")%N = true -> isNumberChar c = true).
    { intros E. apply N.eqb_eq in E. subst c. reflexivity. }
    assert (Hexp : oneOf (str "eE") c = true -> isNumberChar c = true).
    { unfold isNumberChar. change (str "eE") with [101; 69]%N.
      change (str ".eE+-") with [46; 101; 69; 43; 45]%N.
      rewrite !oneOf_cons. intros E.
      destruct (c =? 101)%N, (c =? 69)%N; try discriminate;
        rewrite ?orb_true_r; reflexivity. }
    case_if_as H Hd.
    { apply (Hone _ _) in H; [exact H|]. unfold isNumberChar. now rewrite Hd. }
    case_if_as H Hp.
    { apply (Hone _ _) in H; [exact H|]. apply Hdot.
      now apply andb_prop in Hp as [Hp _]; apply andb_prop in Hp as [Hp _]. }
    case_if_as H He.
    + assert (Hc : isNumberChar c = true).
      { apply Hexp. now apply andb_prop in He as [He _]; apply andb_prop in He as [He _]. }
      destruct cs' as [|s cs'']; [eauto|].
      case_if_as H Hs; [|eauto].
      apply IH in H as (taken & -> & -> & Hall); [|simpl in Hlen; lia].
      exists (c :: s :: taken). rewrite <- app_assoc. cbn [forallb app].
      rewrite Hc, Hall.
      assert (Hsn : isNumberChar s = true).
      { unfold isNumberChar, isSign in *. change (str "+-") with [43; 45]%N in Hs.
        change (str ".eE+-") with [46; 101; 69; 43; 45]%N.
        rewrite !oneOf_cons in *.
        destruct (s =? 43)%N, (s =? 45)%N; try discriminate;
          rewrite ?orb_true_r; reflexivity. }
      rewrite Hsn. auto.
    + inversion H; subst. exists []. rewrite !app_nil_r. auto.
Qed.

(** The part of the path a number token is read from. *)
Lemma tokenizer_scan (char : N) (cs' : jsstring) (i : nat)
    (numStr : jsstring) (j : nat) (rest : jsstring) :
  isNumberStart char = true ->
  (if isSign char then scanNumber cs' (S i) [char] false false
   else scanNumber (char :: cs') i [] false false) = (numStr, j, rest) ->
  char :: cs' = numStr ++ rest /\ forallb isNumberChar numStr = true.
Proof.
  intros Hstart H.
  assert (Hc : isNumberChar char = true).
  { unfold isNumberStart, isNumberChar in *.
    change (str "+-.") with [43; 45; 46]%N in Hstart.
    change (str ".eE+-") with [46; 101; 69; 43; 45]%N.
    rewrite !oneOf_cons in *.
    destruct (isDigit char), (char =? 43)%N, (char =? 45)%N, (char =? 46)%N;
      try discriminate; rewrite ?orb_true_r; reflexivity. }
  destruct (isSign char).
  - apply (scanNumber_chars _ _ _ _ _ _ _ _ _ (le_n _)) in H as (taken & -> & -> & Hall).
    split; [reflexivity|]. cbn [forallb app]. now rewrite Hc, Hall.
  - apply (scanNumber_chars _ _ _ _ _ _ _ _ _ (le_n _)) in H as (taken & Hcs & -> & Hall).
    split; assumption.
Qed.

(** The command letters of a token sequence, in order. *)
Definition commandsOf (tokens : list Token) : list jsstring :=
  flat_map (fun t => match t with Command c => [c] | Number _ => [] end) tokens.

Lemma commandsOf_app (a b : list Token) : commandsOf (a ++ b) = commandsOf a ++ commandsOf b.
Proof. apply flat_map_app. Qed.

Lemma filter_number_chars (s : jsstring) :
  forallb isNumberChar s = true -> filter isCommandLetter s = [].
Proof.
  induction s as [|c s IH]; [reflexivity|]. cbn [forallb filter].
  intros H. apply andb_prop in H as [Hc Hs].
  now rewrite (isNumberChar_not_letter c Hc), IH.
Qed.

Lemma tokenizeLoop_commands (fuel : nat) :
  forall cs i tokens result,
    tokenizeLoop fuel cs i tokens = Ret result ->
    commandsOf result
    = commandsOf tokens ++ map (fun c => [c]) (filter isCommandLetter cs).
Proof.
  induction fuel as [|fuel IH]; intros cs i tokens result H; [discriminate|].
  destruct cs as [|char cs']; cbn [tokenizeLoop] in H.
  { inversion H; subst. cbn. now rewrite app_nil_r. }
  destruct (isSeparator char) eqn:Hsep.
  { cbn [filter]. rewrite (isSeparator_not_letter _ Hsep). eapply IH; eauto. }
  destruct (isCommandLetter char) eqn:Hletter.
  { cbn [filter]. rewrite Hletter. apply IH in H.
    rewrite H, commandsOf_app. cbn. now rewrite <- app_assoc. }
  destruct (isNumberStart char) eqn:Hstart; [|discriminate].
  destruct (if isSign char then _ else _) as [[numStr j] rest] eqn:Hscan.
  destruct (tokenizer_scan _ _ _ _ _ _ Hstart Hscan) as [Hcs Hall].
  destruct (isInvalidNumStr numStr); [discriminate|].
  destruct (is_nan (parseFloat numStr)); [discriminate|].
  apply IH in H. rewrite H, commandsOf_app, Hcs, filter_app.
  rewrite (filter_number_chars _ Hall). cbn. now rewrite app_nil_r.
Qed.

(** The tokenizer turns every command letter of the path into one command
    token, in the order of the path, and nothing else into a command. *)
Theorem tokenizer_keeps_commands (path : jsstring) (tokens : list Token) :
  tokenizePath path = Ret tokens ->
  commandsOf tokens = map (fun c => [c]) (filter isCommandLetter path).
Proof. intros H. exact (tokenizeLoop_commands _ _ _ _ _ H). Qed.

Lemma tokenizeLoop_numbers (path : jsstring) (fuel : nat) :
  forall before cs i tokens result,
    path = before ++ cs ->
    tokenizeLoop fuel cs i tokens = Ret result ->
    forall v,
      In (Number v) result ->
      In (Number v) tokens
      \/ (is_nan v = false
          /\ exists prefix numStr suffix,
               path = prefix ++ numStr ++ suffix
               /\ forallb isNumberChar numStr = true
               /\ v = parseFloat numStr).
Proof.
  induction fuel as [|fuel IH]; intros before cs i tokens result Hpath H v Hin;
    [discriminate|].
  destruct cs as [|char cs']; cbn [tokenizeLoop] in H.
  { inversion H; subst. now left. }
  assert (Hnext : path = (before ++ [char]) ++ cs')
    by (rewrite <- app_assoc; exact Hpath).
  destruct (isSeparator char).
  { eapply IH; eauto. }
  destruct (isCommandLetter char).
  { destruct (IH _ _ _ _ _ Hnext H v Hin) as [Hin' | Hnew]; [|now right].
    apply in_app_or in Hin' as [Hin' | [Heq | []]]; [now left | discriminate]. }
  destruct (isNumberStart char) eqn:Hstart; [|discriminate].
  destruct (if isSign char then _ else _) as [[numStr j] rest] eqn:Hscan.
  destruct (tokenizer_scan _ _ _ _ _ _ Hstart Hscan) as [Hcs Hall].
  destruct (isInvalidNumStr numStr); [discriminate|].
  destruct (is_nan (parseFloat numStr)) eqn:Hnan; [discriminate|].
  assert (Hrest : path = (before ++ numStr) ++ rest)
    by (rewrite <- app_assoc, <- Hcs; exact Hpath).
  destruct (IH _ _ _ _ _ Hrest H v Hin) as [Hin' | Hnew]; [|now right].
  apply in_app_or in Hin' as [Hin' | [Heq | []]]; [now left|].
  inversion Heq; subst v. right. split; [assumption|].
  exists before, numStr, rest. rewrite Hcs in Hpath. auto.
Qed.

(** Every number token is what [parseFloat] makes of a piece of the path
    written with digits, signs, [.], [e] and [E] only, and it is never NaN. *)
Theorem tokenizer_numbers (path : jsstring) (tokens : list Token) (v : float) :
  tokenizePath path = Ret tokens ->
  In (Number v) tokens ->
  is_nan v = false
  /\ exists prefix numStr suffix,
       path = prefix ++ numStr ++ suffix
       /\ forallb isNumberChar numStr = true
       /\ v = parseFloat numStr.
Proof.
  intros H Hin.
  destruct (tokenizeLoop_numbers path _ [] path 0 [] tokens eq_refl H v Hin) as [[] | Hv].
  exact Hv.
Qed.

(** The tokenizer ends on every path: it returns tokens, or it throws one of
    its three errors, on an unexpected character of the path or on a piece
    of the path that is not a number. *)
Theorem tokenizer_answers (path : jsstring) :
  (exists tokens, tokenizePath path = Ret tokens)
  \/ (exists message,
        tokenizePath path = Throw message
        /\ ((exists i char,
                nth_error path i = Some char
                /\ message = str "Unexpected character " ++ quoted [char]
                             ++ str " at position " ++ decimal i)
            \/ (exists before numStr after,
                   path = before ++ numStr ++ after
                   /\ (message = str "Invalid number format: " ++ quoted numStr
                       \/ message = str "Invalid numeric value: " ++ quoted numStr)))).
Proof.
  destruct (tokenizePath path) as [tokens|message|] eqn:H.
  - left. eauto.
  - right. exists message. split; [reflexivity|]. exact (tokenizePath_throws _ _ H).
  - destruct (tokenizePath_total path H).
Qed.

(** ** The tokenizer: separators split the work *)

Lemma tokenizeLoop_more_fuel (fuel : nat) :
  forall fuel' cs i tokens,
    (fuel <= fuel')%nat ->
    tokenizeLoop fuel cs i tokens <> Spin ->
    tokenizeLoop fuel' cs i tokens = tokenizeLoop fuel cs i tokens.
Proof.
  induction fuel as [|fuel IH]; intros fuel' cs i tokens Hle H; [now elim H|].
  destruct fuel' as [|fuel']; [lia|]. cbn [tokenizeLoop] in *.
  destruct cs as [|char cs']; [reflexivity|].
  destruct (isSeparator char); [apply IH; [lia | assumption]|].
  destruct (isCommandLetter char); [apply IH; [lia | assumption]|].
  destruct (isNumberStart char); [|reflexivity].
  destruct (if isSign char then _ else _) as [[numStr j] rest].
  destruct (isInvalidNumStr numStr); [reflexivity|].
  destruct (is_nan (parseFloat numStr)); [reflexivity|].
  apply IH; [lia | assumption].
Qed.

(** The tokenizer started in the middle of a path, with the iterations that
    the rest of the path needs. *)
Definition tokenizeFrom (cs : jsstring) (i : nat) (tokens : list Token)
    : result (list Token) :=
  tokenizeLoop (S (List.length cs)) cs i tokens.

Lemma tokenizeFrom_shorter (fuel : nat) (cs : jsstring) (i : nat) (tokens : list Token) :
  (List.length cs < fuel)%nat ->
  tokenizeLoop fuel cs i tokens = tokenizeFrom cs i tokens.
Proof.
  intros Hlen. unfold tokenizeFrom. apply tokenizeLoop_more_fuel; [lia|].
  apply tokenizeLoop_total. lia.
Qed.

Lemma tokenizeFrom_cons (char : N) (cs' : jsstring) (i : nat) (tokens : list Token) :
  tokenizeFrom (char :: cs') i tokens
  = if isSeparator char then tokenizeFrom cs' (S i) tokens
    else if isCommandLetter char then tokenizeFrom cs' (S i) (tokens ++ [Command [char]])
    else if isNumberStart char then
      let '(numStr, j, rest) :=
        if isSign char then scanNumber cs' (S i) [char] false false
        else scanNumber (char :: cs') i [] false false in
      if isInvalidNumStr numStr then Throw (invalidNumberFormat numStr)
      else
        let num := parseFloat numStr in
        if is_nan num then Throw (invalidNumericValue numStr)
        else tokenizeFrom rest j (tokens ++ [Number num])
    else Throw (unexpectedCharacter char i).
Proof.
  unfold tokenizeFrom at 1. cbn [List.length].
  remember (S (List.length cs')) as fuel eqn:Hfuel. cbn [tokenizeLoop].
  destruct (isSeparator char); [now subst fuel|].
  destruct (isCommandLetter char); [now subst fuel|].
  destruct (isNumberStart char) eqn:Hstart; [|reflexivity].
  destruct (if isSign char then _ else _) as [[numStr j] rest] eqn:Hscan.
  destruct (isInvalidNumStr numStr); [reflexivity|].
  destruct (is_nan (parseFloat numStr)); [reflexivity|].
  apply tokenizeFrom_shorter. subst fuel.
  destruct (tokenizer_scan _ _ _ _ _ _ Hstart Hscan) as [Hcs _].
  assert (Hne : numStr <> []).
  { intros ->. destruct (isSign char) eqn:Hsign.
    - apply (scanNumber_spec _ _ _ _ _ _ _ _ _ (le_n _)) in Hscan as (taken & E & _).
      destruct taken; discriminate.
    - destruct (scanNumber_progress char cs' i Hstart Hsign) as [hd E].
      rewrite E in Hscan.
      apply (scanNumber_spec _ _ _ _ _ _ _ _ _ (le_n _)) in Hscan as (taken & E' & _).
      destruct taken; discriminate. }
  apply (f_equal (@List.length N)) in Hcs. rewrite length_app in Hcs. cbn in Hcs.
  destruct numStr; [contradiction|]. cbn in Hcs. lia.
Qed.

Lemma isSeparator_stops (sep : N) :
  isSeparator sep = true ->
  isDigit sep = false /\ (sep =? ch ".")%N = false /\ oneOf (str "eE") sep = false
  /\ isSign sep = false.
Proof.
  unfold isSeparator, isDigit, isSign.
  change (str "eE") with [101; 69]%N. change (str "+-") with [43; 45]%N.
  rewrite !oneOf_cons. unfold oneOf. cbn [existsb].
  rewrite !orb_true_iff, !N.eqb_eq. intros H.
  destruct H as [-> | [-> | [-> | [-> | [-> | H]]]]]; try discriminate;
    repeat split; reflexivity.
Qed.

(** A scan ends at the separator as it ends at the end of the path. *)
Lemma scanNumber_app (sep : N) (b : jsstring) (n : nat) :
  isSeparator sep = true ->
  forall cs i numStr hasDecimal hasExponent numStr' j rest,
    (List.length cs <= n)%nat ->
    scanNumber cs i numStr hasDecimal hasExponent = (numStr', j, rest) ->
    scanNumber (cs ++ sep :: b) i numStr hasDecimal hasExponent
    = (numStr', j, rest ++ sep :: b).
Proof.
  intros Hsep. destruct (isSeparator_stops sep Hsep) as (Hd & Hdot & He & Hs).
  induction n as [|n IH]; intros cs i numStr hd he numStr' j rest Hlen H.
  - destruct cs; [|simpl in Hlen; lia]. cbn [scanNumber app] in *.
    inversion H; subst. rewrite Hd, Hdot, He. reflexivity.
  - destruct cs as [|c cs']; cbn [scanNumber app] in *.
    { inversion H; subst. rewrite Hd, Hdot, He. reflexivity. }
    simpl in Hlen.
    destruct (isDigit c); [apply IH; [lia | assumption]|].
    destruct ((c =? ch ".")%N && negb hd && negb he); [apply IH; [lia | assumption]|].
    destruct (oneOf (str "eE") c && negb he && (0 <? List.length numStr)%nat).
    + destruct cs' as [|s cs'']; cbn [app].
      * rewrite Hs. apply (IH []); [simpl; lia | assumption].
      * destruct (isSign s).
        -- apply IH; [simpl in Hlen; lia | assumption].
        -- apply (IH (s :: cs'')); [simpl in *; lia | assumption].
    + inversion H; subst. reflexivity.
Qed.

(** What a scan takes does not depend on the index it starts at. *)
Lemma scanNumber_index (n : nat) :
  forall cs i i' numStr hasDecimal hasExponent numStr' j rest,
    (List.length cs <= n)%nat ->
    scanNumber cs i numStr hasDecimal hasExponent = (numStr', j, rest) ->
    exists j', scanNumber cs i' numStr hasDecimal hasExponent = (numStr', j', rest).
Proof.
  induction n as [|n IH]; intros cs i i' numStr hd he numStr' j rest Hlen H.
  - destruct cs; [|simpl in Hlen; lia]. cbn [scanNumber] in *.
    inversion H; subst. eauto.
  - destruct cs as [|c cs']; cbn [scanNumber] in *.
    { inversion H; subst. eauto. }
    simpl in Hlen.
    destruct (isDigit c); [eapply IH; [lia | eassumption]|].
    destruct ((c =? ch ".")%N && negb hd && negb he); [eapply IH; [lia | eassumption]|].
    destruct (oneOf (str "eE") c && negb he && (0 <? List.length numStr)%nat).
    + destruct cs' as [|s cs''].
      * eapply IH; [simpl; lia | eassumption].
      * destruct (isSign s); (eapply IH; [simpl in *; lia | eassumption]).
    + inversion H; subst. eauto.
Qed.

Lemma tokenizer_scan_index (char : N) (cs' : jsstring) (i i' : nat)
    (numStr : jsstring) (j : nat) (rest : jsstring) :
  (if isSign char then scanNumber cs' (S i) [char] false false
   else scanNumber (char :: cs') i [] false false) = (numStr, j, rest) ->
  exists j',
    (if isSign char then scanNumber cs' (S i') [char] false false
     else scanNumber (char :: cs') i' [] false false) = (numStr, j', rest).
Proof.
  destruct (isSign char); intros H;
    exact (scanNumber_index _ _ _ _ _ _ _ _ _ _ (le_n _) H).
Qed.

(** The tokens of the rest of a path are the same wherever the rest starts
    and whatever was collected before. *)
Lemma tokenizeFrom_shift (n : nat) :
  forall cs i tokens result,
    (List.length cs <= n)%nat ->
    tokenizeFrom cs i tokens = Ret result ->
    forall i' before, tokenizeFrom cs i' (before ++ tokens) = Ret (before ++ result).
Proof.
  induction n as [|n IH]; intros cs i tokens result Hlen H i' before.
  - destruct cs; [|simpl in Hlen; lia]. cbn in H |- *. now inversion H.
  - destruct cs as [|char cs']; [cbn in H |- *; now inversion H|].
    simpl in Hlen. rewrite tokenizeFrom_cons in H |- *.
    destruct (isSeparator char); [eapply IH; [lia | eassumption]|].
    destruct (isCommandLetter char).
    { rewrite <- app_assoc. eapply IH; [lia | eassumption]. }
    destruct (isNumberStart char) eqn:Hstart; [|discriminate].
    destruct (if isSign char then scanNumber cs' (S i) _ _ _ else _)
      as [[numStr j] rest] eqn:Hscan.
    destruct (tokenizer_scan_index char cs' i i' _ _ _ Hscan) as [j' Hscan'].
    rewrite Hscan'.
    destruct (tokenizer_scan _ _ _ _ _ _ Hstart Hscan) as [Hcs _].
    destruct (isInvalidNumStr numStr) eqn:Hinv; [discriminate|].
    cbv zeta in *. destruct (is_nan (parseFloat numStr)); [discriminate|].
    rewrite <- app_assoc. eapply IH; [|eassumption].
    apply (f_equal (@List.length N)) in Hcs. rewrite length_app in Hcs. cbn in Hcs.
    destruct numStr; [discriminate Hinv|]. cbn in Hcs. lia.
Qed.

Lemma tokenizeFrom_app (sep : N) (b : jsstring) (n : nat) :
  isSeparator sep = true ->
  forall a i tokens result,
    (List.length a <= n)%nat ->
    tokenizeFrom a i tokens = Ret result ->
    tokenizeFrom (a ++ sep :: b) i tokens
    = tokenizeFrom b (S (i + List.length a)) result.
Proof.
  intros Hsep. induction n as [|n IH]; intros a i tokens result Hlen H.
  - destruct a; [|simpl in Hlen; lia]. cbn [app]. rewrite tokenizeFrom_cons, Hsep.
    cbn in H. inversion H; subst. cbn. now rewrite Nat.add_0_r.
  - destruct a as [|char cs'].
    { cbn [app]. rewrite tokenizeFrom_cons, Hsep.
      cbn in H. inversion H; subst. cbn. now rewrite Nat.add_0_r. }
    simpl in Hlen. cbn [app]. rewrite tokenizeFrom_cons in H |- *.
    cbn [List.length]. rewrite Nat.add_succ_r.
    destruct (isSeparator char); [apply (IH cs' (S i)); [lia | assumption]|].
    destruct (isCommandLetter char); [apply (IH cs' (S i)); [lia | assumption]|].
    destruct (isNumberStart char) eqn:Hstart; [|discriminate].
    destruct (if isSign char then scanNumber cs' (S i) _ _ _ else _)
      as [[numStr j] rest] eqn:Hscan.
    assert (Hscan' :
      (if isSign char then scanNumber (cs' ++ sep :: b) (S i) [char] false false
       else scanNumber (char :: cs' ++ sep :: b) i [] false false)
      = (numStr, j, rest ++ sep :: b)).
    { destruct (isSign char).
      - exact (scanNumber_app sep b _ Hsep _ _ _ _ _ _ _ _ (le_n _) Hscan).
      - exact (scanNumber_app sep b _ Hsep (char :: cs') _ _ _ _ _ _ _ (le_n _) Hscan). }
    rewrite Hscan'.
    assert (Hj : char :: cs' = numStr ++ rest /\ (j + List.length rest = S (i + List.length cs'))%nat).
    { destruct (isSign char).
      - apply (scanNumber_spec _ _ _ _ _ _ _ _ _ (le_n _)) in Hscan
          as (taken & -> & -> & ->).
        split; [reflexivity|]. rewrite length_app. lia.
      - apply (scanNumber_spec _ _ _ _ _ _ _ _ _ (le_n _)) in Hscan
          as (taken & -> & Hcs & ->).
        split; [exact Hcs|].
        apply (f_equal (@List.length N)) in Hcs. rewrite length_app in Hcs.
        cbn in Hcs. lia. }
    destruct Hj as [Hcs Hj].
    destruct (isInvalidNumStr numStr) eqn:Hinv; [discriminate|].
    cbv zeta in *. destruct (is_nan (parseFloat numStr)); [discriminate|].
    rewrite (IH rest j _ result); [now rewrite Hj| |assumption].
    apply (f_equal (@List.length N)) in Hcs. rewrite length_app in Hcs. cbn in Hcs.
    destruct numStr; [discriminate Hinv|]. cbn in Hcs. lia.
Qed.

(** Two pieces of a path that tokenize, joined by a blank, a tab, a line
    break or a comma, tokenize to the tokens of the first followed by the
    tokens of the second. *)
Theorem tokenizer_separator_splits (a b : jsstring) (sep : N)
    (tokensA tokensB : list Token) :
  isSeparator sep = true ->
  tokenizePath a = Ret tokensA ->
  tokenizePath b = Ret tokensB ->
  tokenizePath (a ++ sep :: b) = Ret (tokensA ++ tokensB).
Proof.
  intros Hsep Ha Hb. change (tokenizeFrom (a ++ sep :: b) 0 [] = Ret (tokensA ++ tokensB)).
  rewrite (tokenizeFrom_app sep b _ Hsep a 0 [] tokensA (le_n _) Ha).
  pose proof (tokenizeFrom_shift _ b 0 [] tokensB (le_n _) Hb
                (S (0 + List.length a)) tokensA) as H.
  now rewrite app_nil_r in H.
Qed.

(** ** The interpreter: a command and its operands *)

(** [runs n m]: with [n] numbers next in the tokens, the step [m] returns,
    having taken exactly these [n] numbers. *)
Definition runs {A : Type} (n : nat) (m : M A) : Prop :=
  forall s values rest',
    St.rest s = map Number values ++ rest' ->
    (n <= List.length values)%nat ->
    exists a s',
      m s = Ret (a, s')
      /\ St.rest s' = map Number (skipn n values) ++ rest'
      /\ St.i s' = (St.i s + n)%nat.

(** [expects m]: all that [m] throws is the complaint of [getNumber]. *)
Definition expects {A : Type} (m : M A) : Prop :=
  forall s message,
    m s = Throw message ->
    exists context, message = str "Expected number for " ++ context.

Lemma runs_ret {A : Type} (a : A) : runs 0 (ret a).
Proof.
  intros s values rest' Hrest _. exists a, s. cbn [skipn]. rewrite Nat.add_0_r. auto.
Qed.

Lemma runs_get : runs 0 get.
Proof.
  intros s values rest' Hrest _. exists s, s. cbn [skipn]. rewrite Nat.add_0_r. auto.
Qed.

Lemma runs_modify (f : St.t -> St.t) : keepsTokens f -> runs 0 (modify f).
Proof.
  intros Hf s values rest' Hrest _. destruct (Hf s) as [Hr Hi].
  exists tt, (f s). cbn [skipn]. rewrite Hr, Hi, Nat.add_0_r. auto.
Qed.

Lemma runs_getNumber (context : jsstring) : runs 1 (getNumber context).
Proof.
  intros s values rest' Hrest Hlen. unfold getNumber. rewrite Hrest.
  destruct values as [|v values]; [simpl in Hlen; lia|].
  exists v. eexists. split; [reflexivity|]. cbn. split; [reflexivity | lia].
Qed.

Lemma runs_bind {A B : Type} (n k : nat) (m : M A) (f : A -> M B) :
  runs n m -> (forall a, runs k (f a)) -> runs (n + k) (mbind m f).
Proof.
  intros Hm Hf s values rest' Hrest Hlen.
  destruct (Hm s values rest' Hrest ltac:(lia)) as (a & s1 & Hms & Hr1 & Hi1).
  destruct (Hf a s1 (skipn n values) rest' Hr1) as (b & s2 & Hfs & Hr2 & Hi2).
  { rewrite length_skipn. lia. }
  exists b, s2. unfold mbind, bind. rewrite Hms. split; [exact Hfs|].
  rewrite skipn_skipn in Hr2. rewrite (Nat.add_comm n k). split; [exact Hr2 | lia].
Qed.

Lemma runs_next {A B : Type} (k : nat) (m : M A) (f : A -> M B) :
  runs 1 m -> (forall a, runs k (f a)) -> runs (S k) (mbind m f).
Proof. apply (runs_bind 1 k). Qed.

Lemma runs_then {A B : Type} (k : nat) (m : M A) (f : A -> M B) :
  runs 0 m -> (forall a, runs k (f a)) -> runs k (mbind m f).
Proof. apply (runs_bind 0 k). Qed.

Ltac runs_step :=
  lazymatch goal with
  | |- runs _ (ret _) => apply runs_ret
  | |- runs _ get => apply runs_get
  | |- runs _ (getNumber _) => apply runs_getNumber
  | |- runs _ (modify _) => apply runs_modify; intros ?; split; reflexivity
  | |- runs _ (mbind (getNumber _) _) =>
      apply runs_next; [apply runs_getNumber | intros ?]
  | |- runs _ (mbind _ _) => apply runs_then; [ | intros ?]
  | |- runs _ (if ?b then _ else _) => destruct b
  | |- runs _ (let '(_, _) := ?p in _) => destruct p
  | |- runs _ (setCurrent _ _) => unfold setCurrent
  | |- runs _ pushCurrent => unfold pushCurrent
  | |- runs _ (cubicTo _ _ _ _ _ _ _) => unfold cubicTo
  | |- runs _ (quadraticTo _ _ _ _ _) => unfold quadraticTo
  | |- runs _ (arcTo _ _ _ _ _ _ _ _) => unfold arcTo
  end.

(** The commands the [switch] has a case for. *)
Definition isKnown (command : jsstring) : bool :=
  (0 <? arity command)%nat || isClose command.

Lemma execCommand_runs (curveSegments arcSegments : nat) (command : jsstring)
    (isFirstCoordSet : bool) :
  (0 < arity command)%nat ->
  runs (arity command) (execCommand curveSegments arcSegments command isFirstCoordSet).
Proof.
  unfold execCommand, arity.
  repeat match goal with
         | |- (0 < if cmdIs command ?l then _ else _)%nat -> _ =>
             destruct (cmdIs command l); [intros _; repeat runs_step | ]
         end.
  intros H. inversion H.
Qed.

Lemma expects_ret {A : Type} (a : A) : expects (ret a).
Proof. intros s message H. discriminate. Qed.

Lemma expects_get : expects get.
Proof. intros s message H. discriminate. Qed.

Lemma expects_modify (f : St.t -> St.t) : expects (modify f).
Proof. intros s message H. discriminate. Qed.

Lemma expects_getNumber (context : jsstring) : expects (getNumber context).
Proof.
  intros s message H. unfold getNumber in H.
  destruct (St.rest s) as [|[c|v] rest']; inversion H; exists context; reflexivity.
Qed.

Lemma expects_bind {A B : Type} (m : M A) (f : A -> M B) :
  expects m -> (forall a, expects (f a)) -> expects (mbind m f).
Proof.
  intros Hm Hf s message H. unfold mbind, bind in H.
  destruct (m s) as [[a s1]| |] eqn:Hms; try discriminate.
  - exact (Hf a s1 message H).
  - inversion H; subst. exact (Hm s message Hms).
Qed.

Ltac expects_step :=
  lazymatch goal with
  | |- expects (ret _) => apply expects_ret
  | |- expects get => apply expects_get
  | |- expects (getNumber _) => apply expects_getNumber
  | |- expects (modify _) => apply expects_modify
  | |- expects (mbind _ _) => apply expects_bind; [ | intros ?]
  | |- expects (if ?b then _ else _) => destruct b
  | |- expects (let '(_, _) := ?p in _) => destruct p
  | |- expects (setCurrent _ _) => unfold setCurrent
  | |- expects pushCurrent => unfold pushCurrent
  | |- expects (cubicTo _ _ _ _ _ _ _) => unfold cubicTo
  | |- expects (quadraticTo _ _ _ _ _) => unfold quadraticTo
  | |- expects (arcTo _ _ _ _ _ _ _ _) => unfold arcTo
  end.

Lemma execCommand_expects (curveSegments arcSegments : nat) (command : jsstring)
    (isFirstCoordSet : bool) :
  isKnown command = true ->
  expects (execCommand curveSegments arcSegments command isFirstCoordSet).
Proof.
  unfold isKnown, isClose, execCommand, arity.
  repeat match goal with
         | |- (0 <? if cmdIs command ?l then _ else _)%nat || _ = true -> _ =>
             destruct (cmdIs command l); [intros _; repeat expects_step | ]
         end.
  cbn [Nat.ltb Nat.leb orb]. intros ->. repeat expects_step.
Qed.

(** A letter outside the command set is all that the [default] case is for. *)
Lemma execCommand_throws (curveSegments arcSegments : nat) (command : jsstring)
    (isFirstCoordSet : bool) (s : St.t) (message : jsstring) :
  execCommand curveSegments arcSegments command isFirstCoordSet s = Throw message ->
  (exists context, message = str "Expected number for " ++ context)
  \/ (isKnown command = false /\ message = str "Unsupported command: " ++ command).
Proof.
  intros H. destruct (isKnown command) eqn:Hk.
  - left. exact (execCommand_expects _ _ _ _ Hk s message H).
  - right. split; [reflexivity|]. unfold isKnown in Hk.
    apply orb_false_elim in Hk as [Ha Hc]. apply Nat.ltb_ge in Ha.
    rewrite execCommand_unsupported in H by (try assumption; lia).
    now inversion H.
Qed.

(** The command letters of the tokenizer all have a case. *)
Lemma letter_isKnown (c : N) : isCommandLetter c = true -> isKnown [c] = true.
Proof.
  unfold isCommandLetter, commandLetters.
  change (str "MmLlHhVvCcSsQqTtAaZz")
    with [77; 109; 76; 108; 72; 104; 86; 118; 67; 99; 83; 115; 81; 113; 84; 116;
          65; 97; 90; 122]%N.
  unfold oneOf. cbn [existsb]. rewrite !orb_true_iff, !N.eqb_eq. intros H.
  repeat (destruct H as [-> | H]; [vm_compute; reflexivity|]). discriminate.
Qed.

(** ** The interpreter: which token sequences it accepts *)

Lemma numbers_split (tokens : list Token) :
  exists values rest',
    tokens = map Number values ++ rest' /\ startsWithNumber rest' = false.
Proof.
  induction tokens as [|[c|v] tokens IH].
  - exists [], []. auto.
  - exists [], (Command c :: tokens). auto.
  - destruct IH as (values & rest' & -> & Hn). exists (v :: values), rest'. auto.
Qed.

Lemma numbers_unique (v1 v2 : list float) (r1 r2 : list Token) :
  map Number v1 ++ r1 = map Number v2 ++ r2 ->
  startsWithNumber r1 = false -> startsWithNumber r2 = false ->
  v1 = v2 /\ r1 = r2.
Proof.
  revert v2. induction v1 as [|a v1 IH]; intros [|b v2] H H1 H2; cbn in H.
  - auto.
  - subst r1. discriminate.
  - subst r2. discriminate.
  - injection H as -> Htail. destruct (IH v2 Htail H1 H2) as [-> ->]. auto.
Qed.

Lemma nextIsNumber_values (s : St.t) (values : list float) (rest' : list Token) :
  St.rest s = map Number values ++ rest' -> startsWithNumber rest' = false ->
  nextIsNumber s = negb (Nat.eqb (List.length values) 0).
Proof.
  intros Hrest Hn. unfold nextIsNumber. rewrite Hrest.
  destruct values as [|v values]; [|reflexivity]. cbn.
  destruct rest' as [|[c|v] rest'']; try reflexivity. discriminate.
Qed.

(** With fewer numbers than the command has operands, [getNumber] complains. *)
Lemma execCommand_starves (curveSegments arcSegments : nat) (command : jsstring)
    (isFirstCoordSet : bool) (s : St.t) (values : list float) (rest' : list Token) :
  isKnown command = true ->
  St.rest s = map Number values ++ rest' -> startsWithNumber rest' = false ->
  (List.length values < arity command)%nat ->
  exists context,
    execCommand curveSegments arcSegments command isFirstCoordSet s
    = Throw (str "Expected number for " ++ context).
Proof.
  intros Hk Hrest Hn Hlen.
  destruct (execCommand_reads curveSegments arcSegments command isFirstCoordSet s)
    as [Hspin Hreads].
  destruct (execCommand _ _ _ _ s) as [[u s1]|message|] eqn:Hexec.
  - exfalso. destruct (Hreads _ _ eq_refl) as (v1 & Hl1 & Hr1 & _).
    destruct (numbers_split (St.rest s1)) as (v2 & r2 & Hs1 & Hn2).
    rewrite Hs1, app_assoc, <- map_app, Hrest in Hr1.
    destruct (numbers_unique _ _ _ _ Hr1 Hn Hn2) as [-> _].
    rewrite length_app in Hlen. lia.
  - destruct (execCommand_expects _ _ _ _ Hk s message Hexec) as (context & ->).
    eauto.
  - contradiction.
Qed.

(** A group of operands is complete: none for [Z] and [z], and for the other
    commands one or more full sets of operands. *)
Definition groupComplete (n k : nat) : bool :=
  if Nat.eqb n 0 then Nat.eqb k 0 else (0 <? k)%nat && Nat.eqb (k mod n) 0.

Lemma groupComplete_first (n k : nat) :
  (0 < n)%nat -> groupComplete n k = true ->
  (n <= k)%nat /\ (k = n \/ groupComplete n (k - n) = true).
Proof.
  unfold groupComplete. intros Hn H.
  destruct (Nat.eqb_spec n 0); [lia|].
  apply andb_prop in H as [Hk Hm]. apply Nat.ltb_lt in Hk. apply Nat.eqb_eq in Hm.
  pose proof (Nat.div_mod_eq k n) as Hdm. rewrite Hm, Nat.add_0_r in Hdm.
  assert (Hq : (1 <= k / n)%nat) by (destruct (k / n)%nat; lia).
  revert Hdm Hq. generalize (k / n)%nat. intros q Hdm Hq.
  destruct q as [|q]; [lia|]. rewrite Nat.mul_succ_r in Hdm.
  split; [lia|]. destruct (Nat.eq_dec k n) as [|Hne]; [now left|right].
  assert (Hsub : (k - n = q * n)%nat) by lia.
  apply andb_true_intro. split; [apply Nat.ltb_lt; lia|].
  apply Nat.eqb_eq. rewrite Hsub. apply Nat.Div0.mod_mul.
Qed.

Lemma groupComplete_more (n k : nat) :
  (0 < n)%nat -> groupComplete n (n + k) = groupComplete n k || Nat.eqb k 0.
Proof.
  unfold groupComplete. intros Hn. destruct (Nat.eqb_spec n 0); [lia|].
  replace (0 <? n + k)%nat with true by (symmetry; apply Nat.ltb_lt; lia).
  replace ((n + k) mod n)%nat with (k mod n)%nat
    by (replace (n + k)%nat with (k + 1 * n)%nat by lia; now rewrite Nat.Div0.mod_add).
  destruct k as [|k]; [rewrite Nat.Div0.mod_0_l; reflexivity|].
  cbn [Nat.ltb Nat.leb andb Nat.eqb]. now rewrite orb_false_r.
Qed.

(** When the repetition of a command returns, it was given full sets of
    operands, and the command is neither a moveto nor unknown. *)
Lemma commandLoop_counts (curveSegments arcSegments : nat) (command : jsstring) :
  forall fuel isFirstCoordSet s s',
    commandLoop fuel curveSegments arcSegments command isFirstCoordSet s = Ret s' ->
    isMoveTo command = false /\ isKnown command = true
    /\ nextIsNumber s' = false
    /\ exists values,
         St.rest s = map Number values ++ St.rest s'
         /\ St.i s' = (St.i s + List.length values)%nat
         /\ groupComplete (arity command) (List.length values) = true.
Proof.
  induction fuel as [|fuel IH]; intros first s s' H; [discriminate|].
  cbn [commandLoop] in H. unfold bind in H.
  destruct (execCommand_reads curveSegments arcSegments command first s) as [_ Hreads].
  destruct (execCommand _ _ _ _ s) as [[u s1]| |] eqn:Hexec; try discriminate.
  destruct (Hreads _ _ eq_refl) as (v1 & Hl1 & Hr1 & Hi1).
  assert (Hk : isKnown command = true).
  { destruct (isKnown command) eqn:Hk; [reflexivity|]. unfold isKnown in Hk.
    apply orb_false_elim in Hk as [Ha Hc]. apply Nat.ltb_ge in Ha.
    rewrite execCommand_unsupported in Hexec by (try assumption; lia). discriminate. }
  assert (Hnext : forall first',
    commandLoop fuel curveSegments arcSegments command first'
      (St.setLastCommand command s1) = Ret s' ->
    isMoveTo command = false /\ isKnown command = true /\ nextIsNumber s' = false
    /\ exists values, St.rest s = map Number values ++ St.rest s'
                      /\ St.i s' = (St.i s + List.length values)%nat
                      /\ groupComplete (arity command) (List.length values) = true).
  { intros first' H'. apply IH in H' as (Hm & _ & Hn & v2 & Hr2 & Hi2 & Hc2).
    repeat split; try assumption. exists (v1 ++ v2).
    rewrite map_app, <- app_assoc, length_app. simpl in Hr2, Hi2.
    rewrite <- Hr2. split; [assumption|]. split; [lia|].
    rewrite Hl1. destruct (arity command) as [|n] eqn:Ha; [exact Hc2|].
    rewrite groupComplete_more by lia. now rewrite Hc2. }
  destruct (isMoveTo command) eqn:Hm; cbn [negb andb] in H; [eauto|].
  destruct (nextIsNumber (St.setLastCommand command s1)) eqn:Hn; [eauto|].
  inversion H; subst s'. repeat split; try assumption.
  exists v1. cbn [St.rest St.i St.setLastCommand]. split; [assumption|]. split; [lia|].
  rewrite Hl1. unfold groupComplete.
  destruct (Nat.eqb_spec (arity command) 0) as [_|Hne]; [reflexivity|].
  rewrite Nat.Div0.mod_same. apply andb_true_intro.
  split; [apply Nat.ltb_lt; lia | reflexivity].
Qed.

(** Given full sets of operands, the repetition of a command other than a
    moveto returns after the last set. *)
Lemma commandLoop_group (curveSegments arcSegments : nat) (command : jsstring)
    (rest' : list Token) :
  isMoveTo command = false -> isKnown command = true ->
  startsWithNumber rest' = false ->
  forall fuel isFirstCoordSet s values,
    St.rest s = map Number values ++ rest' ->
    groupComplete (arity command) (List.length values) = true ->
    (List.length values < fuel)%nat ->
    exists s',
      commandLoop fuel curveSegments arcSegments command isFirstCoordSet s = Ret s'
      /\ St.rest s' = rest'
      /\ St.i s' = (St.i s + List.length values)%nat.
Proof.
  intros Hm Hk Hn.
  induction fuel as [|fuel IH]; intros first s values Hrest Hc Hlen; [lia|].
  cbn [commandLoop]. rewrite Hm. cbn [andb].
  destruct (Nat.eq_dec (arity command) 0) as [Ha|Ha].
  - (* Z or z *)
    assert (Hclose : isClose command = true)
      by (unfold isKnown in Hk; rewrite Ha in Hk; exact Hk).
    unfold groupComplete in Hc. rewrite Ha in Hc. cbn in Hc.
    apply Nat.eqb_eq in Hc. destruct values; [|discriminate]. cbn in Hrest.
    rewrite (execCommand_close _ _ _ _ _ Hclose). cbn [bind].
    destruct (closePath_keeps_tokens s) as [Hr Hi].
    assert (Hnn : nextIsNumber (St.setLastCommand command (closePath s)) = false).
    { rewrite (nextIsNumber_values _ [] rest'); [reflexivity| |assumption].
      cbn. now rewrite Hr. }
    rewrite Hnn. eexists. split; [reflexivity|]. cbn. rewrite Hr, Hi. split; [assumption|lia].
  - destruct (groupComplete_first (arity command) (List.length values) ltac:(lia) Hc)
      as [Hge Hmore].
    destruct (execCommand_runs curveSegments arcSegments command first ltac:(lia)
                s values rest' Hrest Hge) as ([] & s1 & Hexec & Hr1 & Hi1).
    rewrite Hexec. cbn [bind].
    assert (Hr2 : St.rest (St.setLastCommand command s1)
                  = map Number (skipn (arity command) values) ++ rest') by exact Hr1.
    rewrite (nextIsNumber_values _ _ _ Hr2 Hn), length_skipn.
    destruct Hmore as [Heq | Hmore].
    + rewrite Heq, Nat.sub_diag. cbn [Nat.eqb negb].
      eexists. split; [reflexivity|]. rewrite Hr2. cbn [St.i St.setLastCommand].
      rewrite skipn_all2 by lia. split; [reflexivity | lia].
    + assert (Hpos : (0 < List.length values - arity command)%nat).
      { unfold groupComplete in Hmore.
        destruct (Nat.eqb_spec (arity command) 0); [lia|].
        apply andb_prop in Hmore as [Hp _]. now apply Nat.ltb_lt in Hp. }
      replace (Nat.eqb (List.length values - arity command) 0) with false
        by (symmetry; apply Nat.eqb_neq; lia).
      cbn [negb].
      destruct (IH false (St.setLastCommand command s1) _ Hr2) as (s' & Hloop & Hr' & Hi').
      { now rewrite length_skipn. }
      { rewrite length_skipn. lia. }
      exists s'. split; [exact Hloop|]. split; [exact Hr'|].
      rewrite Hi', length_skipn. cbn [St.i St.setLastCommand]. lia.
Qed.

(** With an incomplete group the repetition ends in [getNumber]'s complaint. *)
Lemma commandLoop_starves (curveSegments arcSegments : nat) (command : jsstring)
    (rest' : list Token) :
  isMoveTo command = false -> isKnown command = true -> (0 < arity command)%nat ->
  startsWithNumber rest' = false ->
  forall fuel isFirstCoordSet s values,
    St.rest s = map Number values ++ rest' ->
    groupComplete (arity command) (List.length values) = false ->
    (List.length values < fuel)%nat ->
    exists context,
      commandLoop fuel curveSegments arcSegments command isFirstCoordSet s
      = Throw (str "Expected number for " ++ context).
Proof.
  intros Hm Hk Ha Hn.
  induction fuel as [|fuel IH]; intros first s values Hrest Hc Hlen; [lia|].
  cbn [commandLoop]. rewrite Hm. cbn [andb].
  destruct (Nat.lt_ge_cases (List.length values) (arity command)) as [Hlt|Hge].
  - destruct (execCommand_starves curveSegments arcSegments command first s values rest'
                Hk Hrest Hn Hlt) as (context & ->).
    exists context. reflexivity.
  - destruct (execCommand_runs curveSegments arcSegments command first Ha
                s values rest' Hrest Hge) as ([] & s1 & Hexec & Hr1 & Hi1).
    rewrite Hexec. cbn [bind].
    assert (Hr2 : St.rest (St.setLastCommand command s1)
                  = map Number (skipn (arity command) values) ++ rest') by exact Hr1.
    replace (List.length values) with (arity command + (List.length values - arity command))%nat
      in Hc by lia.
    rewrite groupComplete_more in Hc by assumption.
    apply orb_false_elim in Hc as [Hc Hz]. apply Nat.eqb_neq in Hz.
    rewrite (nextIsNumber_values _ _ _ Hr2 Hn), length_skipn.
    replace (Nat.eqb (List.length values - arity command) 0) with false
      by (symmetry; apply Nat.eqb_neq; lia).
    cbn [negb]. apply (IH false _ _ Hr2).
    + now rewrite length_skipn.
    + rewrite length_skipn. lia.
Qed.

(** The token sequences made of complete groups: a scan from left to right
    that keeps the number of operands of the open group and how many numbers
    it has met. *)
Fixpoint groupsOk (open : option (nat * nat)) (tokens : list Token) : bool :=
  let complete :=
    match open with
    | Some (n, k) => groupComplete n k
    | None => true
    end in
  match tokens with
  | [] => complete
  | Command command :: rest =>
      complete && negb (isMoveTo command) && isKnown command
      && groupsOk (Some (arity command, 0%nat)) rest
  | Number _ :: rest =>
      match open with
      | Some (n, k) => groupsOk (Some (n, S k)) rest
      | None => false
      end
  end.

Definition wellFormed (tokens : list Token) : bool := groupsOk None tokens.

Lemma groupsOk_numbers (n : nat) (values : list float) (rest' : list Token) :
  forall k,
    groupsOk (Some (n, k)) (map Number values ++ rest')
    = groupsOk (Some (n, (k + List.length values)%nat)) rest'.
Proof.
  induction values as [|v values IH]; intros k; cbn [map app List.length groupsOk].
  - now rewrite Nat.add_0_r.
  - rewrite IH. f_equal. f_equal. f_equal. lia.
Qed.

Lemma groupsOk_boundary (n k : nat) (rest' : list Token) :
  startsWithNumber rest' = false ->
  groupsOk (Some (n, k)) rest' = groupComplete n k && groupsOk None rest'.
Proof.
  destruct rest' as [|[c|v] rest'']; intros H; try discriminate; cbn [groupsOk].
  - now rewrite andb_true_r.
  - cbn [andb]. now rewrite !andb_assoc.
Qed.

Lemma tokenLoop_accepts (curveSegments arcSegments : nat) :
  forall fuel s,
    (List.length (St.rest s) < fuel)%nat ->
    (exists s', tokenLoop fuel curveSegments arcSegments s = Ret s')
    <-> wellFormed (St.rest s) = true.
Proof.
  unfold wellFormed.
  induction fuel as [|fuel IH]; intros s Hlen; [lia|].
  cbn [tokenLoop].
  destruct (St.rest s) as [|[c|v] rest0] eqn:Hrest.
  - split; [reflexivity | eauto].
  - destruct (numbers_split rest0) as (values & rest' & -> & Hn).
    cbn [List.length] in Hlen. rewrite length_app, length_map in Hlen.
    cbn [groupsOk andb]. rewrite groupsOk_numbers, (groupsOk_boundary _ _ _ Hn).
    cbn [Nat.add]. unfold bind. split.
    + intros (s' & H).
      destruct (commandLoop fuel _ _ c true _) as [s1| |] eqn:Hloop; try discriminate.
      apply commandLoop_counts in Hloop as (Hm & Hk & Hnn & v1 & Hr1 & _ & Hc).
      cbn [St.rest St.setTokens] in Hr1.
      destruct (numbers_split (St.rest s1)) as (v2 & r2 & Hs1 & Hn2).
      assert (Hv2 : v2 = []).
      { destruct v2; [reflexivity|]. unfold nextIsNumber in Hnn.
        rewrite Hs1 in Hnn. discriminate. }
      subst v2. cbn in Hs1. rewrite Hs1 in Hr1.
      destruct (numbers_unique _ _ _ _ Hr1 Hn Hn2) as [-> ->].
      rewrite Hm, Hk, Hc. cbn [negb andb].
      rewrite <- Hs1. apply (IH s1); [rewrite Hs1; lia | eauto].
    + intros H. rewrite !andb_true_iff in H. destruct H as [[Hm Hk] [Hc Hrest']].
      apply negb_true_iff in Hm.
      destruct (commandLoop_group curveSegments arcSegments c rest' Hm Hk Hn fuel true
                  (St.setTokens (S (St.i s)) (map Number values ++ rest') s) values
                  eq_refl Hc ltac:(lia)) as (s1 & Hloop & Hr1 & _).
      rewrite Hloop. apply (IH s1); [rewrite Hr1; lia | now rewrite Hr1].
  - split; [intros (s' & H); discriminate | discriminate].
Qed.

(** Given more iterations than tokens, the interpreter returns exactly on
    the sequences of complete groups: each group one of the command letters
    other than [M] and [m] followed by one or more full sets of its operands,
    or a [Z] or [z] that no number follows. *)
Theorem interpreter_accepts (curveSegments arcSegments fuel : nat)
    (tokens : list Token) :
  (List.length tokens < fuel)%nat ->
  (exists s', tokenLoop fuel curveSegments arcSegments (St.init tokens) = Ret s')
  <-> wellFormed tokens = true.
Proof. intros Hlen. now apply (tokenLoop_accepts _ _ fuel (St.init tokens)). Qed.

Lemma groupsOk_app (a b : list Token) :
  startsWithNumber b = false ->
  forall open, groupsOk open (a ++ b) = groupsOk open a && groupsOk None b.
Proof.
  intros Hb. induction a as [|[c|v] a IH]; intros open.
  - cbn [app]. destruct b as [|[c|v] b]; try discriminate; cbn [groupsOk];
      destruct open as [[n k]|]; cbn [andb];
      repeat match goal with |- context [if ?x then _ else _] => destruct x end;
      try reflexivity; now rewrite ?andb_true_r, ?andb_assoc.
  - cbn [app groupsOk]. rewrite IH. now rewrite !andb_assoc.
  - cbn [app groupsOk]. destruct open as [[n k]|]; [apply IH | reflexivity].
Qed.

(** The interpreter goes through complete groups and comes to what follows
    them. *)
Lemma tokenLoop_prefix (curveSegments arcSegments : nat) (rest0 : list Token) :
  startsWithNumber rest0 = false ->
  forall fuel prefix s,
    St.rest s = prefix ++ rest0 -> groupsOk None prefix = true ->
    (List.length prefix < fuel)%nat ->
    exists fuel1 s1,
      tokenLoop fuel curveSegments arcSegments s
      = tokenLoop fuel1 curveSegments arcSegments s1
      /\ St.rest s1 = rest0
      /\ (fuel <= fuel1 + List.length prefix)%nat.
Proof.
  intros Hn0. induction fuel as [|fuel IH]; intros prefix s Hrest Hok Hlen; [lia|].
  destruct prefix as [|[c|v] p0].
  - exists (S fuel), s. cbn [List.length]. repeat split; [assumption | lia].
  - destruct (numbers_split p0) as (values & p' & -> & Hn).
    cbn [groupsOk andb] in Hok.
    rewrite groupsOk_numbers, (groupsOk_boundary _ _ _ Hn) in Hok. cbn [Nat.add] in Hok.
    rewrite !andb_true_iff in Hok. destruct Hok as [[Hm Hk] [Hc Hp']].
    apply negb_true_iff in Hm.
    cbn [List.length] in Hlen. rewrite length_app, length_map in Hlen.
    cbn [app] in Hrest. rewrite <- app_assoc in Hrest.
    assert (Hn' : startsWithNumber (p' ++ rest0) = false)
      by (destruct p'; [exact Hn0 | exact Hn]).
    cbn [tokenLoop]. rewrite Hrest.
    destruct (commandLoop_group curveSegments arcSegments c (p' ++ rest0) Hm Hk Hn' fuel
                true (St.setTokens (S (St.i s)) (map Number values ++ p' ++ rest0) s)
                values eq_refl Hc ltac:(lia)) as (s1 & Hloop & Hr1 & _).
    rewrite Hloop. cbn [bind].
    destruct (IH p' s1 Hr1 Hp' ltac:(lia)) as (fuel1 & s2 & Heq & Hr2 & Hf).
    exists fuel1, s2. split; [exact Heq|]. split; [exact Hr2|].
    cbn [List.length]. rewrite length_app, length_map. lia.
  - discriminate.
Qed.

(** A command of one or more operands that the interpreter comes to, first
    or after complete groups, and that is given no operand, or a number of
    them that is not a multiple of its operand count, makes the interpreter
    throw the "Expected number for ..." of the operand that is missing. *)
Theorem operands_incomplete (curveSegments arcSegments fuel : nat) (s : St.t)
    (prefix : list Token) (command : jsstring) (values : list float)
    (rest' : list Token) :
  St.rest s = prefix ++ Command command :: map Number values ++ rest' ->
  wellFormed prefix = true ->
  isKnown command = true -> isMoveTo command = false ->
  (0 < arity command)%nat ->
  startsWithNumber rest' = false ->
  groupComplete (arity command) (List.length values) = false ->
  (List.length prefix + List.length values + 1 < fuel)%nat ->
  exists context,
    tokenLoop fuel curveSegments arcSegments s
    = Throw (str "Expected number for " ++ context).
Proof.
  intros Hrest Hok Hk Hm Ha Hn Hc Hlen.
  destruct (tokenLoop_prefix curveSegments arcSegments
              (Command command :: map Number values ++ rest') eq_refl
              fuel prefix s Hrest Hok ltac:(lia)) as (fuel1 & s1 & -> & Hr1 & Hf).
  destruct fuel1 as [|fuel1]; [lia|].
  cbn [tokenLoop]. rewrite Hr1.
  destruct (commandLoop_starves curveSegments arcSegments command rest' Hm Hk Ha Hn fuel1
              true (St.setTokens (S (St.i s1)) (map Number values ++ rest') s1)
              values eq_refl Hc ltac:(lia)) as (context & Hloop).
  rewrite Hloop. exists context. reflexivity.
Qed.

(** ** Inputs with a moveto *)

(** Some [Z] or [z] of [tokens] is directly followed by a number and is
    reached: the tokens from [before] on up to it are complete groups
    without [M] or [m]. *)
Fixpoint closeRepeatsAfter (before tokens : list Token) : bool :=
  match tokens with
  | [] => false
  | t :: rest =>
      (isCloseToken t && startsWithNumber rest && wellFormed before)
      || closeRepeatsAfter (before ++ [t]) rest
  end.

Definition closeRepeats (tokens : list Token) : bool := closeRepeatsAfter [] tokens.

Lemma closeRepeatsAfter_split (tokens : list Token) :
  forall before,
    closeRepeatsAfter before tokens = true ->
    exists passed command value rest,
      tokens = passed ++ Command command :: Number value :: rest
      /\ isClose command = true
      /\ wellFormed (before ++ passed) = true.
Proof.
  induction tokens as [|t tokens IH]; intros before H; [discriminate|].
  cbn [closeRepeatsAfter] in H. apply orb_prop in H as [H | H].
  - rewrite !andb_true_iff in H. destruct H as [[Hc Hn] Hw].
    destruct t as [command|v]; [|discriminate].
    destruct tokens as [|[c|value] rest]; try discriminate.
    exists [], command, value, rest. rewrite app_nil_r. auto.
  - apply IH in H as (passed & command & value & rest & -> & Hc & Hw).
    exists (t :: passed), command, value, rest. rewrite <- app_assoc in Hw. auto.
Qed.

Lemma closeRepeatsAfter_app (passed tokens : list Token) :
  forall before,
    closeRepeatsAfter (before ++ passed) tokens = true ->
    closeRepeatsAfter before (passed ++ tokens) = true.
Proof.
  induction passed as [|t passed IH]; intros before H.
  - now rewrite app_nil_r in H.
  - cbn [app closeRepeatsAfter]. apply orb_true_intro. right. apply IH.
    now rewrite <- app_assoc.
Qed.

Lemma tokenLoop_close_spins (curveSegments arcSegments fuel : nat) (s : St.t)
    (command : jsstring) (value : float) (rest : list Token) :
  St.rest s = Command command :: Number value :: rest ->
  isClose command = true ->
  tokenLoop fuel curveSegments arcSegments s = Spin.
Proof.
  intros Hrest Hc. destruct fuel as [|fuel]; [reflexivity|].
  cbn [tokenLoop]. rewrite Hrest.
  rewrite (commandLoop_close_spins _ _ _ Hc); reflexivity.
Qed.

(** A [Z] or [z] with a number behind it that the interpreter comes to:
    the run does not end, whatever the iterations it is given. *)
Lemma tokenLoop_reaches_close (curveSegments arcSegments fuel : nat) (s : St.t)
    (passed : list Token) (command : jsstring) (value : float) (rest : list Token) :
  St.rest s = passed ++ Command command :: Number value :: rest ->
  wellFormed passed = true -> isClose command = true ->
  tokenLoop fuel curveSegments arcSegments s = Spin.
Proof.
  intros Hrest Hw Hc.
  destruct (tokenLoop_prefix curveSegments arcSegments
              (Command command :: Number value :: rest) eq_refl
              (fuel + S (List.length passed)) passed s Hrest Hw ltac:(lia))
    as (fuel1 & s1 & Hbig & Hr1 & _).
  rewrite (tokenLoop_close_spins _ _ fuel1 s1 _ _ _ Hr1 Hc) in Hbig.
  destruct (tokenLoop fuel curveSegments arcSegments s) as [s'|message|] eqn:E;
    [| |reflexivity];
    rewrite (tokenLoop_more_fuel _ _ fuel (fuel + S (List.length passed)) s) in Hbig
      by (try lia; rewrite E; discriminate);
    rewrite E in Hbig; discriminate.
Qed.

(** Nothing else keeps the interpreter from ending. *)
Lemma tokenLoop_spins_at_close (curveSegments arcSegments : nat) :
  forall fuel s before,
    wellFormed before = true ->
    (List.length (St.rest s) < fuel)%nat ->
    tokenLoop fuel curveSegments arcSegments s = Spin ->
    closeRepeatsAfter before (St.rest s) = true.
Proof.
  induction fuel as [|fuel IH]; intros s before Hw Hlen H; [lia|].
  cbn [tokenLoop] in H.
  destruct (St.rest s) as [|[c|v] rest0] eqn:Hrest; try discriminate.
  cbn [List.length] in Hlen. unfold bind in H.
  destruct (commandLoop _ _ _ c true _) as [s1|message|] eqn:Hloop; try discriminate.
  - pose proof (commandLoop_counts _ _ _ _ _ _ _ Hloop)
      as (Hm & Hk & _ & values & Hr1 & _ & Hc).
    cbn [St.rest St.setTokens] in Hr1.
    assert (Hw1 : wellFormed (before ++ Command c :: map Number values) = true).
    { unfold wellFormed in *. rewrite (groupsOk_app before (Command c :: map Number values) eq_refl), Hw. cbn [andb groupsOk].
      rewrite Hm, Hk. cbn [negb andb].
      rewrite <- (app_nil_r (map Number values)), groupsOk_numbers. cbn. exact Hc. }
    assert (Hlen1 : (List.length (St.rest s1) < fuel)%nat).
    { apply (f_equal (@List.length Token)) in Hr1.
      rewrite length_app in Hr1. lia. }
    pose proof (IH s1 _ Hw1 Hlen1 H) as Hrep.
    rewrite Hr1. apply (closeRepeatsAfter_app (Command c :: map Number values)).
    exact Hrep.
  - cbn [closeRepeatsAfter isCloseToken]. apply orb_true_intro. left.
    destruct (isClose c) eqn:Hc, (startsWithNumber rest0) eqn:Hn;
      try (exfalso; revert Hloop; apply commandLoop_answers;
           [cbn [St.rest St.setTokens]; lia
           | intros Hc'; unfold nextIsNumber; cbn [St.rest St.setTokens];
             first [congruence | exact Hn]]).
    now rewrite Hw.
Qed.

Lemma convert_spins_with (fuel : nat) (svgPath : jsstring)
    (options : PolygonConversionOptions) (tokens : list Token) (command : jsstring) :
  tokenizePath (trim svgPath) = Ret tokens ->
  In (Command command) tokens ->
  tokenLoop fuel (orDefault (curveSegments options) 8%nat)
    (orDefault (arcSegments options) 16%nat) (St.init tokens) = Spin ->
  convertSvgPathToPolygon fuel svgPath options = Spin.
Proof.
  intros Htok Hin Hloop. unfold convertSvgPathToPolygon.
  destruct (tokenizePath_letters _ _ Htok command Hin) as (c & Hc & Hl).
  rewrite (isEmpty_false _ c (trim_incl _ _ Hc)), (isEmpty_false _ c Hc).
  replace (isValidSvgPath (trim svgPath)) with true
    by (symmetry; apply isValidSvgPath_iff; eauto).
  cbn [orb negb]. unfold extractPointsFromPath. rewrite Htok. cbn [bind].
  now rewrite Hloop.
Qed.

(** C2, as the code has it. When the trimmed input tokenizes and holds an
    [M] or [m] token, [convertSvgPathToPolygon] never returns a polygon. It
    does not end when the interpreter comes to a [Z] or [z] that a number
    follows, which is when complete groups without a moveto come before it;
    on every other such input it throws, given as many iterations as there
    are tokens, plus one. *)
Theorem moveTo_never_converts (fuel : nat) (svgPath : jsstring)
    (options : PolygonConversionOptions) (tokens : list Token) :
  tokenizePath (trim svgPath) = Ret tokens ->
  In (Command (str "M")) tokens \/ In (Command (str "m")) tokens ->
  (forall text, convertSvgPathToPolygon fuel svgPath options <> Ret text)
  /\ (closeRepeats tokens = true ->
      convertSvgPathToPolygon fuel svgPath options = Spin)
  /\ (closeRepeats tokens = false ->
      (List.length tokens < fuel)%nat ->
      exists message, convertSvgPathToPolygon fuel svgPath options = Throw message).
Proof.
  intros Htok Hmove.
  assert (Hnever : forall text, convertSvgPathToPolygon fuel svgPath options <> Ret text).
  { intros text H. apply convert_returns in H as (points & H).
    apply extract_returns in H as (tokens' & s & Htok' & Hloop & _).
    rewrite Htok in Htok'. inversion Htok'; subst tokens'.
    pose proof (tokenLoop_returns _ _ _ _ _ Hloop) as Hnone. simpl in Hnone.
    destruct Hmove as [Hin | Hin]; apply Hnone in Hin; discriminate. }
  split; [exact Hnever|]. split.
  - intros Hrep. unfold closeRepeats in Hrep.
    apply closeRepeatsAfter_split in Hrep
      as (passed & command & value & rest & Htokens & Hc & Hw).
    cbn [app] in Hw.
    assert (Hin : exists c, In (Command c) tokens)
      by (destruct Hmove as [Hin | Hin]; eauto).
    destruct Hin as (c & Hin).
    apply (convert_spins_with fuel svgPath options tokens c Htok Hin).
    apply (tokenLoop_reaches_close _ _ fuel (St.init tokens) passed command value rest);
      assumption.
  - intros Hno Hlen.
    destruct (convertSvgPathToPolygon fuel svgPath options) as [text|message|] eqn:H.
    + exfalso. exact (Hnever text eq_refl).
    + eauto.
    + exfalso. apply convert_spins in H as (tokens' & Htok' & Hspin).
      rewrite Htok in Htok'. inversion Htok'; subst tokens'.
      apply (tokenLoop_spins_at_close _ _ fuel (St.init tokens) [] eq_refl Hlen) in Hspin.
      unfold closeRepeats in Hno. cbn [St.rest St.init] in Hspin. congruence.
Qed.

(** ** The messages of a failed conversion *)

Lemma tokenizePath_known (path : jsstring) (tokens : list Token) :
  tokenizePath path = Ret tokens ->
  forall command, In (Command command) tokens -> isKnown command = true.
Proof.
  intros H command Hin.
  assert (Hc : In command (commandsOf tokens)).
  { unfold commandsOf. apply in_flat_map. exists (Command command). simpl. auto. }
  rewrite (tokenizeLoop_commands _ _ _ _ _ H) in Hc. cbn [commandsOf flat_map app] in Hc.
  apply in_map_iff in Hc as (c & <- & Hc). apply filter_In in Hc as [_ Hc].
  now apply letter_isKnown.
Qed.

Lemma commandLoop_throws (curveSegments arcSegments : nat) (command : jsstring) :
  isKnown command = true ->
  forall fuel isFirstCoordSet s message,
    commandLoop fuel curveSegments arcSegments command isFirstCoordSet s = Throw message ->
    exists context, message = str "Expected number for " ++ context.
Proof.
  intros Hk. induction fuel as [|fuel IH]; intros first s message H; [discriminate|].
  cbn [commandLoop] in H. unfold bind in H.
  destruct (execCommand _ _ _ _ s) as [[u s1]|m|] eqn:Hexec; try discriminate.
  - destruct (isMoveTo command && negb false); [eauto|].
    destruct (nextIsNumber _); [eauto | discriminate].
  - inversion H; subst. exact (execCommand_expects _ _ _ _ Hk s _ Hexec).
Qed.

(** A number where a command is expected can only be the first token: the
    repetition of a command stops in front of a command or at the end. *)
Lemma tokenLoop_throws (curveSegments arcSegments : nat) :
  forall fuel s message,
    (forall command, In (Command command) (St.rest s) -> isKnown command = true) ->
    (nextIsNumber s = true -> St.i s = 0%nat) ->
    tokenLoop fuel curveSegments arcSegments s = Throw message ->
    message = str "Expected command, got number at token 0"
    \/ exists context, message = str "Expected number for " ++ context.
Proof.
  induction fuel as [|fuel IH]; intros s message Hknown Hfirst H; [discriminate|].
  cbn [tokenLoop] in H. unfold nextIsNumber in Hfirst.
  destruct (St.rest s) as [|[c|v] rest0] eqn:Hrest; try discriminate.
  - unfold bind in H.
    destruct (commandLoop _ _ _ c true _) as [s1|m|] eqn:Hloop; try discriminate.
    + apply commandLoop_returns in Hloop as (_ & Hn & values & Hr & _).
      cbn [St.rest St.setTokens] in Hr. apply (IH s1 message); try assumption.
      * intros command Hin. apply Hknown. right. rewrite Hr. apply in_or_app. now right.
      * rewrite Hn. discriminate.
    + inversion H; subst m. right.
      apply (commandLoop_throws _ _ c (Hknown c (or_introl eq_refl)) _ _ _ _ Hloop).
  - rewrite (Hfirst eq_refl) in H. inversion H. now left.
Qed.

Lemma extract_throws (fuel : nat) (path : jsstring) (options : PolygonConversionOptions)
    (message : jsstring) :
  extractPointsFromPath fuel path options = Throw message ->
  tokenizeError path message
  \/ message = str "Expected command, got number at token 0"
  \/ (exists context, message = str "Expected number for " ++ context)
  \/ message = str "No points extracted from path".
Proof.
  unfold extractPointsFromPath, bind. intros H.
  destruct (tokenizePath path) as [tokens|m|] eqn:Htok; try discriminate.
  - destruct (tokenLoop _ _ _ _) as [s|m|] eqn:Hloop; try discriminate.
    + destruct (St.absolutePoints s); inversion H. auto.
    + inversion H; subst m.
      apply tokenLoop_throws in Hloop as [Hm | Hm]; auto.
      exact (tokenizePath_known _ _ Htok).
  - inversion H; subst m. left. now apply tokenizePath_throws.
Qed.

Lemma unsupported_differs (command message : jsstring) :
  (exists path, tokenizeError path message)
  \/ message = str "Expected command, got number at token 0"
  \/ (exists context, message = str "Expected number for " ++ context)
  \/ message = str "No points extracted from path"
  \/ message = insufficientPoints ->
  message <> str "Unsupported command: " ++ command.
Proof.
  assert (Hu : str "Unsupported command: " = (85 :: 110 :: 115 :: str "upported command: ")%N)
    by reflexivity.
  assert (He : str "Unexpected character " = (85 :: 110 :: 101 :: str "xpected character ")%N)
    by reflexivity.
  assert (Hf : str "Invalid number format: " = (73 :: str "nvalid number format: ")%N)
    by reflexivity.
  assert (Hv : str "Invalid numeric value: " = (73 :: str "nvalid numeric value: ")%N)
    by reflexivity.
  assert (Hx : str "Expected number for " = (69 :: str "xpected number for ")%N)
    by reflexivity.
  assert (Hte : forall path, tokenizeError path message ->
                  message <> str "Unsupported command: " ++ command).
  { intros path [(i & char & _ & ->) | (b & n & a & _ & [-> | ->])];
      unfold unexpectedCharacter, invalidNumberFormat, invalidNumericValue;
      rewrite Hu, ?He, ?Hf, ?Hv; cbn [app]; discriminate. }
  intros [(path & H) | [-> | [(context & ->) | [-> | ->]]]];
    try (eapply Hte; eassumption);
    rewrite Hu, ?Hx; cbn [app]; discriminate.
Qed.

(** Every message [convertSvgPathToPolygon] can throw: the two of its own
    checks, or behind the prefix of the conversion a tokenizer error, a number
    in the place of the first command, a missing operand, no point at all or
    fewer than three points. "Unsupported command" is not among them, and the
    number that stands for a command is always token 0. *)
Theorem conversion_errors (fuel : nat) (svgPath : jsstring)
    (options : PolygonConversionOptions) (message : jsstring) :
  convertSvgPathToPolygon fuel svgPath options = Throw message ->
  (message = str "SVG path cannot be empty"
   \/ message = str "Invalid SVG path format"
   \/ exists inner,
        message = str "Failed to convert path to polygon: " ++ inner
        /\ (tokenizeError (trim svgPath) inner
            \/ inner = str "Expected command, got number at token 0"
            \/ (exists context, inner = str "Expected number for " ++ context)
            \/ inner = str "No points extracted from path"
            \/ inner = str "Path must contain at least 3 points to create a polygon"))
  /\ forall command,
       message <> str "Failed to convert path to polygon: Unsupported command: " ++ command.
Proof.
  unfold convertSvgPathToPolygon. intros H.
  case_if H; [inversion H; split; [auto | intros c; vm_compute; discriminate]|].
  case_if H; [inversion H; split; [auto | intros c; vm_compute; discriminate]|].
  unfold bind in H.
  destruct (extractPointsFromPath fuel (trim svgPath) options) as [points|m|] eqn:Hext;
    try discriminate.
  - case_if H; [|discriminate]. inversion H. split.
    + right. right. exists insufficientPoints. split; [reflexivity|]. tauto.
    + intros command.
      change (str "Failed to convert path to polygon: Unsupported command: " ++ command)
        with (conversionFailed (str "Unsupported command: " ++ command)).
      unfold conversionFailed. intros Heq. apply app_inv_head in Heq.
      revert Heq. apply unsupported_differs. tauto.
  - inversion H. apply extract_throws in Hext. split.
    + right. right. exists m. split; [reflexivity|]. tauto.
    + intros command.
      change (str "Failed to convert path to polygon: Unsupported command: " ++ command)
        with (conversionFailed (str "Unsupported command: " ++ command)).
      unfold conversionFailed. intros Heq. apply app_inv_head in Heq.
      revert Heq. apply unsupported_differs.
      destruct Hext as [Hext | Hext]; [|tauto]. eauto.
Qed.

(** With no [Z] or [z] directly followed by a number before the first
    moveto, the conversion ends, whatever else the path holds: it returns or
    it throws within as many iterations as there are tokens, plus one. *)
Theorem conversion_answers (fuel : nat) (svgPath : jsstring)
    (options : PolygonConversionOptions) (tokens : list Token) :
  tokenizePath (trim svgPath) = Ret tokens ->
  closeNumberBeforeMoveTo tokens = false ->
  (List.length tokens < fuel)%nat ->
  (exists text, convertSvgPathToPolygon fuel svgPath options = Ret text)
  \/ (exists message, convertSvgPathToPolygon fuel svgPath options = Throw message).
Proof.
  intros Htok Hno Hlen.
  destruct (convertSvgPathToPolygon fuel svgPath options) as [text|message|] eqn:H;
    [eauto | eauto |].
  exfalso. apply convert_spins in H as (tokens' & Htok' & Hspin).
  rewrite Htok in Htok'. inversion Htok'; subst tokens'.
  revert Hspin. now apply tokenLoop_answers.
Qed.

(** ** The subpath start *)

(** [keepsStart m]: the step [m] leaves the subpath start as it finds it. *)
Definition keepsStart {A : Type} (m : M A) : Prop :=
  forall s a s',
    m s = Ret (a, s') ->
    St.subpathStartX s' = St.subpathStartX s /\ St.subpathStartY s' = St.subpathStartY s.

Lemma keepsStart_ret {A : Type} (a : A) : keepsStart (ret a).
Proof. intros s a' s' H. inversion H. auto. Qed.

Lemma keepsStart_get : keepsStart get.
Proof. intros s a' s' H. inversion H. auto. Qed.

Lemma keepsStart_throw {A : Type} (message : jsstring) : keepsStart (@throw A message).
Proof. intros s a' s' H. discriminate. Qed.

Lemma keepsStart_modify (f : St.t -> St.t) :
  (forall s, St.subpathStartX (f s) = St.subpathStartX s
             /\ St.subpathStartY (f s) = St.subpathStartY s) ->
  keepsStart (modify f).
Proof. intros Hf s a' s' H. inversion H. apply Hf. Qed.

Lemma keepsStart_getNumber (context : jsstring) : keepsStart (getNumber context).
Proof.
  intros s a' s' H. unfold getNumber in H.
  destruct (St.rest s) as [|[c|v] rest']; inversion H. auto.
Qed.

Lemma keepsStart_bind {A B : Type} (m : M A) (f : A -> M B) :
  keepsStart m -> (forall a, keepsStart (f a)) -> keepsStart (mbind m f).
Proof.
  intros Hm Hf s b s' H. unfold mbind, bind in H.
  destruct (m s) as [[a s1]| |] eqn:Hms; try discriminate.
  destruct (Hm _ _ _ Hms) as [Hx Hy]. destruct (Hf _ _ _ _ H) as [Hx' Hy'].
  split; congruence.
Qed.

Ltac keepsStart_step :=
  lazymatch goal with
  | |- keepsStart (ret _) => apply keepsStart_ret
  | |- keepsStart get => apply keepsStart_get
  | |- keepsStart (throw _) => apply keepsStart_throw
  | |- keepsStart (getNumber _) => apply keepsStart_getNumber
  | |- keepsStart (modify _) => apply keepsStart_modify; intros ?; split; reflexivity
  | |- keepsStart (mbind _ _) => apply keepsStart_bind; [ | intros ?]
  | |- keepsStart (if ?b then _ else _) => destruct b
  | |- keepsStart (let '(_, _) := ?p in _) => destruct p
  | |- keepsStart (setCurrent _ _) => unfold setCurrent
  | |- keepsStart pushCurrent => unfold pushCurrent
  | |- keepsStart (cubicTo _ _ _ _ _ _ _) => unfold cubicTo
  | |- keepsStart (quadraticTo _ _ _ _ _) => unfold quadraticTo
  | |- keepsStart (arcTo _ _ _ _ _ _ _ _) => unfold arcTo
  end.

(** Only [M] and [m] assign the subpath start. *)
Lemma execCommand_keeps_start (curveSegments arcSegments : nat) (command : jsstring)
    (isFirstCoordSet : bool) :
  isMoveTo command = false ->
  keepsStart (execCommand curveSegments arcSegments command isFirstCoordSet).
Proof.
  unfold isMoveTo, execCommand. intros Hm. apply orb_false_elim in Hm as [-> ->].
  repeat keepsStart_step.
Qed.

Lemma commandLoop_keeps_start (curveSegments arcSegments : nat) (command : jsstring) :
  forall fuel isFirstCoordSet s s',
    commandLoop fuel curveSegments arcSegments command isFirstCoordSet s = Ret s' ->
    St.subpathStartX s' = St.subpathStartX s /\ St.subpathStartY s' = St.subpathStartY s.
Proof.
  induction fuel as [|fuel IH]; intros first s s' H; [discriminate|].
  pose proof (commandLoop_returns _ _ _ _ _ _ _ H) as (Hm & _).
  cbn [commandLoop] in H. unfold bind in H.
  destruct (execCommand _ _ _ _ s) as [[u s1]| |] eqn:Hexec; try discriminate.
  destruct (execCommand_keeps_start _ _ _ first Hm _ _ _ Hexec) as [Hx Hy].
  rewrite Hm in H. cbn [andb] in H.
  destruct (nextIsNumber _).
  - apply IH in H as [Hx' Hy']. cbn in Hx', Hy'. split; congruence.
  - inversion H. cbn. auto.
Qed.

Lemma tokenLoop_keeps_start (curveSegments arcSegments : nat) :
  forall fuel s s',
    tokenLoop fuel curveSegments arcSegments s = Ret s' ->
    St.subpathStartX s' = St.subpathStartX s /\ St.subpathStartY s' = St.subpathStartY s.
Proof.
  induction fuel as [|fuel IH]; intros s s' H; [discriminate|].
  cbn [tokenLoop] in H.
  destruct (St.rest s) as [|[c|v] rest0]; try discriminate.
  - inversion H. auto.
  - unfold bind in H.
    destruct (commandLoop _ _ _ c true _) as [s1| |] eqn:Hloop; try discriminate.
    apply commandLoop_keeps_start in Hloop as [Hx Hy]. apply IH in H as [Hx' Hy'].
    cbn in Hx, Hy. split; congruence.
Qed.

Lemma numbers_before_last (values : list float) :
  forall (before rest' : list Token) (last : Token),
    map Number values ++ rest' = before ++ [last] ->
    (forall v, last <> Number v) ->
    exists before', rest' = before' ++ [last].
Proof.
  induction values as [|v values IH]; intros before rest' last H Hlast; [eauto|].
  destruct before as [|t before]; cbn [map app] in H.
  - inversion H. now destruct (Hlast v).
  - inversion H. eauto.
Qed.

Lemma closePath_at_origin (s : St.t) :
  St.subpathStartX s = 0 -> St.subpathStartY s = 0 ->
  (St.currentX (closePath s) =? 0) = true /\ (St.currentY (closePath s) =? 0) = true.
Proof.
  intros Hx Hy. unfold closePath. rewrite Hx, Hy.
  destruct (St.currentX s =? 0) eqn:Ex, (St.currentY s =? 0) eqn:Ey; cbn; auto.
Qed.

Lemma tokenLoop_close_last (curveSegments arcSegments : nat) (command : jsstring) :
  isClose command = true ->
  forall fuel s s' before,
    St.rest s = before ++ [Command command] ->
    St.subpathStartX s = 0 -> St.subpathStartY s = 0 ->
    tokenLoop fuel curveSegments arcSegments s = Ret s' ->
    (St.currentX s' =? 0) = true /\ (St.currentY s' =? 0) = true.
Proof.
  intros Hc. induction fuel as [|fuel IH]; intros s s' before Hrest Hx Hy H;
    [discriminate|].
  cbn [tokenLoop] in H. rewrite Hrest in H.
  destruct before as [|t before]; cbn [app] in H.
  - destruct fuel as [|fuel]; [discriminate|].
    cbn [commandLoop] in H. rewrite (execCommand_close _ _ _ _ _ Hc) in H.
    cbn [bind] in H.
    assert (Hm : isMoveTo command = false)
      by (destruct (isClose_cases _ Hc) as [-> | ->]; reflexivity).
    rewrite Hm in H. cbn [andb] in H.
    assert (Hn : nextIsNumber
                   (St.setLastCommand command
                      (closePath (St.setTokens (S (St.i s)) [] s))) = false).
    { unfold nextIsNumber. cbn [St.rest St.setLastCommand].
      now rewrite (proj1 (closePath_keeps_tokens _)). }
    rewrite Hn in H. cbn [bind tokenLoop] in H.
    cbn [St.rest St.setLastCommand] in H.
    rewrite (proj1 (closePath_keeps_tokens _)) in H. cbn [St.rest St.setTokens] in H.
    inversion H. cbn [St.currentX St.currentY St.setLastCommand].
    now apply closePath_at_origin.
  - destruct t as [c|v]; [|discriminate]. unfold bind in H.
    destruct (commandLoop _ _ _ c true _) as [s1| |] eqn:Hloop; try discriminate.
    pose proof (commandLoop_keeps_start _ _ _ _ _ _ _ Hloop) as [Hx1 Hy1].
    apply commandLoop_returns in Hloop as (_ & _ & values & Hr & _).
    cbn [St.rest St.setTokens] in Hr. symmetry in Hr.
    apply numbers_before_last in Hr as (before' & Hr); [|discriminate].
    cbn in Hx1, Hy1.
    apply (IH s1 s' before' Hr); [congruence | congruence | exact H].
Qed.

(** In every run of the interpreter that returns, the subpath start is still
    the origin (0, 0) it is initialised with: only [M] and [m] assign it, and
    no run with an [M] or [m] returns. So a path that ends with [Z] or [z]
    leaves the cursor at the origin, wherever the path began. *)
Theorem subpath_start_stays_origin (curveSegments arcSegments fuel : nat)
    (tokens : list Token) (s' : St.t) :
  tokenLoop fuel curveSegments arcSegments (St.init tokens) = Ret s' ->
  (St.subpathStartX s' = 0 /\ St.subpathStartY s' = 0)
  /\ (forall before command,
        tokens = before ++ [Command command] -> isClose command = true ->
        (St.currentX s' =? 0) = true /\ (St.currentY s' =? 0) = true).
Proof.
  intros H. split.
  - exact (tokenLoop_keeps_start _ _ _ _ _ H).
  - intros before command Htokens Hc.
    exact (tokenLoop_close_last _ _ command Hc _ (St.init tokens) _ before Htokens
             eq_refl eq_refl H).
Qed.

(** ** Quadratic curves *)

Lemma quadratic_absolute_runs (curveSegments arcSegments : nat) (isFirstCoordSet : bool)
    (s : St.t) (x1 y1 vx vy : float) (rest' : list Token) :
  St.rest s = map Number [x1; y1; vx; vy] ++ rest' ->
  execCommand curveSegments arcSegments (str "Q") isFirstCoordSet s
  = quadraticTo curveSegments x1 y1 vx vy (afterOperands 4 rest' s).
Proof.
  intros Hrest. unfold execCommand. eval_cmdIs.
  unfold mbind at 1. unfold getNumber at 1. rewrite Hrest. cbn. reflexivity.
Qed.

(** At [t = 1] the quadratic is at its end point, when the three points are
    finite. *)
Lemma quadraticBezier_at_one (x0 y0 x1 y1 x2 y2 : float) :
  forallb Num.is_finite [x0; y0; x1; y1; x2; y2] = true ->
  (Point.x (quadraticBezier x0 y0 x1 y1 x2 y2 1) =? x2) = true
  /\ (Point.y (quadraticBezier x0 y0 x1 y1 x2 y2 1) =? y2) = true.
Proof.
  cbn [forallb]. rewrite !andb_true_iff.
  intros (Hx0 & Hy0 & Hx1 & Hy1 & Hx2 & Hy2 & _).
  assert (Hend : forall a b c,
    Num.is_finite a = true -> Num.is_finite b = true -> Num.is_finite c = true ->
    (0 * a + 0 * b + 1 * c =? c) = true).
  { intros a b c Ha Hb Hc. rewrite (float_one_mul c Hc).
    apply float_zero_add; [|assumption].
    apply float_zero_add_zero; now apply float_zero_mul. }
  split; [exact (Hend x0 x1 x2 Hx0 Hx1 Hx2) | exact (Hend y0 y1 y2 Hy0 Hy1 Hy2)].
Qed.

(** A [Q] command with [curveSegments = N] appends exactly [N] points, the
    [k]-th being the quadratic at [t = k / N]; it moves the cursor to the end
    point and keeps the control point for a [T] that may follow. With finite
    operands and cursor the last point appended is the end point. *)
Theorem quadratic_flattening (curveSegments arcSegments : nat)
    (isFirstCoordSet : bool) (s : St.t) (x1 y1 vx vy : float)
    (rest' : list Token) :
  St.rest s = map Number [x1; y1; vx; vy] ++ rest' ->
  exists s' emitted,
    execCommand curveSegments arcSegments (str "Q") isFirstCoordSet s = Ret (tt, s')
    /\ St.absolutePoints s' = St.absolutePoints s ++ emitted
    /\ List.length emitted = curveSegments
    /\ (forall k, (k < curveSegments)%nat ->
          nth_error emitted k
          = Some (quadraticBezier (St.currentX s) (St.currentY s) x1 y1 vx vy
                    (Num.of_nat (S k) / Num.of_nat curveSegments)))
    /\ (St.currentX s' = vx /\ St.currentY s' = vy)
    /\ (St.lastControlX s' = x1 /\ St.lastControlY s' = y1)
    /\ ((0 < curveSegments)%nat -> (Z.of_nat curveSegments < 2 ^ 53)%Z ->
        forallb Num.is_finite [St.currentX s; St.currentY s; x1; y1; vx; vy] = true ->
        exists last,
          nth_error emitted (curveSegments - 1) = Some last
          /\ (Point.x last =? vx) = true /\ (Point.y last =? vy) = true).
Proof.
  intros Hrest. rewrite (quadratic_absolute_runs _ _ _ _ _ _ _ _ _ Hrest).
  unfold quadraticTo, setCurrent, mbind, bind, get, modify.
  eexists. eexists. split; [reflexivity|]. cbn.
  split; [reflexivity|]. split; [apply sampleCurve_length|].
  split; [intros k Hk; now apply sampleCurve_nth|].
  split; [auto|]. split; [auto|].
  intros Hpos Hsmall Hfin. eexists. split; [now apply sampleCurve_last|].
  now apply quadraticBezier_at_one.
Qed.

(** ** The radii of an arc *)

Lemma float_abs_abs (x : float) : abs (abs x) = abs x.
Proof.
  apply Prim2SF_inj. rewrite !abs_spec. destruct (Prim2SF x); reflexivity.
Qed.

Lemma float_abs_opp (x : float) : abs (- x) = abs x.
Proof.
  apply Prim2SF_inj. rewrite !abs_spec, opp_spec. destruct (Prim2SF x); reflexivity.
Qed.

Lemma float_abs_is_zero (x : float) : (abs x =? 0) = (x =? 0).
Proof.
  rewrite !eqb_spec, abs_spec.
  destruct (Prim2SF x) as [s|s| |s m e]; try reflexivity; destruct s; reflexivity.
Qed.

Lemma approximateArc_abs (x1 y1 rx ry xAxisRotation : float)
    (largeArcFlag sweepFlag : bool) (x2 y2 : float) (segments : nat) :
  approximateArc x1 y1 rx ry xAxisRotation largeArcFlag sweepFlag x2 y2 segments
  = approximateArc x1 y1 (abs rx) (abs ry) xAxisRotation largeArcFlag sweepFlag x2 y2
      segments.
Proof.
  unfold approximateArc. now rewrite !float_abs_is_zero, !float_abs_abs.
Qed.

(** The flattening of an arc depends on the absolute values of the two radii
    only: a radius and its opposite give the same points. *)
Theorem arc_radii_sign (x1 y1 rx ry xAxisRotation : float)
    (largeArcFlag sweepFlag : bool) (x2 y2 : float) (segments : nat) :
  approximateArc x1 y1 (- rx) ry xAxisRotation largeArcFlag sweepFlag x2 y2 segments
  = approximateArc x1 y1 rx ry xAxisRotation largeArcFlag sweepFlag x2 y2 segments
  /\ approximateArc x1 y1 rx (- ry) xAxisRotation largeArcFlag sweepFlag x2 y2 segments
     = approximateArc x1 y1 rx ry xAxisRotation largeArcFlag sweepFlag x2 y2 segments.
Proof.
  split.
  - rewrite (approximateArc_abs x1 y1 (- rx)), (approximateArc_abs x1 y1 rx).
    now rewrite float_abs_opp.
  - rewrite (approximateArc_abs x1 y1 rx (- ry)), (approximateArc_abs x1 y1 rx ry).
    now rewrite float_abs_opp.
Qed.

(** ** A run of linetos *)

(** The points of a list of coordinates taken two by two. *)
Fixpoint pairs (values : list float) : list Point.t :=
  match values with
  | vx :: vy :: values' => Point.mk vx vy :: pairs values'
  | _ => []
  end.

Lemma last_cons_default {A : Type} (a : A) (l : list A) (d d' : A) :
  last (a :: l) d = last (a :: l) d'.
Proof.
  revert a. induction l as [|b l IH]; intros a; [reflexivity|].
  change (last (b :: l) d = last (b :: l) d'). apply IH.
Qed.

Lemma lineTo_pass (curveSegments arcSegments : nat) (isFirstCoordSet : bool)
    (s : St.t) (vx vy : float) (rest0 : list Token) :
  St.rest s = Number vx :: Number vy :: rest0 ->
  exists s1,
    execCommand curveSegments arcSegments (str "L") isFirstCoordSet s = Ret (tt, s1)
    /\ St.rest s1 = rest0
    /\ St.absolutePoints s1 = St.absolutePoints s ++ [Point.mk vx vy]
    /\ St.currentX s1 = vx /\ St.currentY s1 = vy.
Proof.
  intros Hrest. unfold execCommand. eval_cmdIs.
  unfold mbind at 1. unfold getNumber at 1. rewrite Hrest. cbn.
  eexists. split; [reflexivity|]. cbn. auto.
Qed.

Lemma lineTo_loop (curveSegments arcSegments : nat) (rest' : list Token) :
  startsWithNumber rest' = false ->
  forall n fuel isFirstCoordSet s values,
    List.length values = (2 * S n)%nat ->
    (n < fuel)%nat ->
    St.rest s = map Number values ++ rest' ->
    exists s',
      commandLoop fuel curveSegments arcSegments (str "L") isFirstCoordSet s = Ret s'
      /\ St.rest s' = rest'
      /\ St.absolutePoints s' = St.absolutePoints s ++ pairs values
      /\ Point.mk (St.currentX s') (St.currentY s')
         = last (pairs values) (Point.mk (St.currentX s) (St.currentY s)).
Proof.
  intros Hn. induction n as [|n IH]; intros fuel first s values Hlen Hfuel Hrest.
  - destruct values as [|vx [|vy [|v values]]]; try discriminate.
    destruct fuel as [|fuel]; [lia|]. cbn [map app] in Hrest.
    destruct (lineTo_pass curveSegments arcSegments first s vx vy rest' Hrest)
      as (s1 & Hexec & Hr1 & Hp1 & Hx1 & Hy1).
    cbn [commandLoop]. rewrite Hexec. cbn [bind]. eval_cmdIs.
    change (isMoveTo (str "L")) with false. cbn [andb].
    unfold nextIsNumber. cbn [St.rest St.setLastCommand]. rewrite Hr1.
    unfold startsWithNumber in Hn. rewrite Hn.
    eexists. split; [reflexivity|]. cbn. rewrite Hx1, Hy1. auto.
  - destruct values as [|vx [|vy values]]; try discriminate.
    destruct fuel as [|fuel]; [lia|]. cbn [map app] in Hrest.
    destruct (lineTo_pass curveSegments arcSegments first s vx vy _ Hrest)
      as (s1 & Hexec & Hr1 & Hp1 & Hx1 & Hy1).
    cbn [commandLoop]. rewrite Hexec. cbn [bind].
    change (isMoveTo (str "L")) with false. cbn [andb].
    assert (Hnext : nextIsNumber (St.setLastCommand (str "L") s1) = true).
    { unfold nextIsNumber. cbn [St.rest St.setLastCommand]. rewrite Hr1.
      destruct values; [cbn [List.length] in Hlen; lia | reflexivity]. }
    rewrite Hnext.
    destruct (IH fuel false (St.setLastCommand (str "L") s1) values)
      as (s' & Hloop & Hr & Hp & Hc).
    + cbn [List.length] in Hlen. lia.
    + lia.
    + exact Hr1.
    + exists s'. split; [exact Hloop|]. split; [exact Hr|].
      cbn [St.absolutePoints St.currentX St.currentY St.setLastCommand] in Hp, Hc.
      rewrite Hp1, <- app_assoc in Hp. split; [exact Hp|].
      rewrite Hc, Hx1, Hy1. cbn [pairs].
      destruct values as [|a [|b values]]; try reflexivity.
      cbn [pairs]. rewrite (last_cons_default _ _ (Point.mk vx vy)
                              (Point.mk (St.currentX s) (St.currentY s))).
      reflexivity.
Qed.

(** A single [L] followed by [n] coordinate pairs draws the polyline through
    the [n] points: the pairs are appended as points in their order, nothing
    else is, and the cursor ends on the last of them. *)
Theorem lineTo_polyline (curveSegments arcSegments fuel : nat)
    (isFirstCoordSet : bool) (s : St.t) (values : list float) (rest' : list Token) :
  St.rest s = map Number values ++ rest' ->
  startsWithNumber rest' = false ->
  (0 < List.length values)%nat -> Nat.even (List.length values) = true ->
  (List.length values < 2 * fuel)%nat ->
  exists s',
    commandLoop fuel curveSegments arcSegments (str "L") isFirstCoordSet s = Ret s'
    /\ St.rest s' = rest'
    /\ St.absolutePoints s' = St.absolutePoints s ++ pairs values
    /\ List.length (pairs values) = (List.length values / 2)%nat
    /\ Point.mk (St.currentX s') (St.currentY s')
       = last (pairs values) (Point.mk (St.currentX s) (St.currentY s)).
Proof.
  intros Hrest Hn Hpos Heven Hfuel.
  apply Nat.even_spec in Heven as [k Hk].
  destruct k as [|k]; [lia|].
  destruct (lineTo_loop curveSegments arcSegments rest' Hn k fuel isFirstCoordSet s values
              Hk ltac:(lia) Hrest) as (s' & Hloop & Hr & Hp & Hc).
  exists s'. repeat split; try assumption.
  rewrite Hk. clear - Hk. rewrite Nat.mul_comm, Nat.div_mul by lia.
  revert values Hk. induction (S k) as [|n IH]; intros values Hk.
  - destruct values; [reflexivity | discriminate].
  - destruct values as [|a [|b values]]; try (cbn in Hk; lia).
    cbn [pairs List.length]. f_equal. apply IH. cbn [List.length] in Hk. lia.
Qed.

(** ** The converter panel *)

Lemma trimStart_keeps (s : jsstring) (c : N) :
  isWhiteSpace c = false -> In c s -> In c (trimStart s).
Proof.
  intros Hc. induction s as [|a s IH]; [tauto|]. cbn [trimStart].
  destruct (isWhiteSpace a) eqn:Ha; [|tauto].
  intros [<- | Hin]; [congruence | auto].
Qed.

Lemma trim_keeps (s : jsstring) (c : N) :
  isWhiteSpace c = false -> In c s -> In c (trim s).
Proof.
  intros Hc Hin. unfold trim, trimEnd.
  apply -> in_rev. apply (trimStart_keeps _ _ Hc). apply -> in_rev.
  now apply trimStart_keeps.
Qed.

Lemma convertPath_returns (fuel : nat) (path : jsstring) (quality : Quality.t)
    (panel panel' : Panel.t) :
  isEmpty (trim path) = false ->
  convertPath fuel path quality panel = Ret panel' ->
  Panel.svgPath panel' = Panel.svgPath panel
  /\ Panel.polygonQuality panel' = Panel.polygonQuality panel
  /\ ((exists text,
         convertSvgPathToClipPath path = Ret text
         /\ Panel.clipPathPath panel' = text /\ Panel.pathError panel' = [])
      \/ (exists message,
            convertSvgPathToClipPath path = Throw message
            /\ Panel.clipPathPath panel' = [] /\ Panel.pathError panel' = message))
  /\ ((exists text,
         convertSvgPathToPolygon fuel path (qualityMap quality) = Ret text
         /\ Panel.clipPathPolygon panel' = text /\ Panel.polygonError panel' = [])
      \/ (exists message,
            convertSvgPathToPolygon fuel path (qualityMap quality) = Throw message
            /\ Panel.clipPathPolygon panel' = []
            /\ Panel.polygonError panel' = message)).
Proof.
  intros Hblank H. unfold convertPath in H. rewrite Hblank in H.
  destruct (convertSvgPathToClipPath path) as [text|message|] eqn:Hpath;
    try discriminate; cbn [bind] in H;
    destruct (convertSvgPathToPolygon fuel path (qualityMap quality))
      as [polygon|failure|] eqn:Hpolygon; try discriminate;
    inversion H; cbn; repeat split; eauto 8.
Qed.

(** The two checks that both converters start with. *)
Lemma converters_agree_on_checks (fuel : nat) (path : jsstring)
    (options : PolygonConversionOptions) (message : jsstring) :
  convertSvgPathToClipPath path = Throw message ->
  convertSvgPathToPolygon fuel path options = Throw message.
Proof.
  unfold convertSvgPathToClipPath, convertSvgPathToPolygon.
  destruct (isEmpty path || isEmpty (trim path)); [auto|].
  destruct (negb (isValidSvgPath (trim path))); [auto | discriminate].
Qed.

Lemma clipPath_text_not_empty (path text : jsstring) :
  convertSvgPathToClipPath path = Ret text -> text <> [].
Proof.
  unfold convertSvgPathToClipPath.
  destruct (isEmpty path || isEmpty (trim path)); [discriminate|].
  destruct (negb (isValidSvgPath (trim path))); [discriminate|].
  intros H. inversion H. discriminate.
Qed.

(** The two outputs of the panel are independent. After an input that is
    not blank, the [path()] output and its error are what
    [convertSvgPathToClipPath] alone gives, whether the polygon conversion
    returns or throws, and the polygon output and its error are what
    [convertSvgPathToPolygon] gives with the options of the quality preset. A
    path error always comes with the same polygon error, so a polygon is
    never shown without the [path()] output. A blank input clears all four;
    the text typed is kept and the quality is left as it is. *)
Theorem outputs_are_independent (fuel : nat) (path : jsstring)
    (panel panel' : Panel.t) :
  handlePathChange fuel path panel = Ret panel' ->
  Panel.svgPath panel' = path
  /\ Panel.polygonQuality panel' = Panel.polygonQuality panel
  /\ (isEmpty (trim path) = true ->
      Panel.clipPathPath panel' = [] /\ Panel.pathError panel' = []
      /\ Panel.clipPathPolygon panel' = [] /\ Panel.polygonError panel' = [])
  /\ (isEmpty (trim path) = false ->
      ((exists text,
          convertSvgPathToClipPath path = Ret text
          /\ Panel.clipPathPath panel' = text /\ Panel.pathError panel' = [])
       \/ (exists message,
             convertSvgPathToClipPath path = Throw message
             /\ Panel.clipPathPath panel' = [] /\ Panel.pathError panel' = message))
      /\ ((exists text,
             convertSvgPathToPolygon fuel path
               (qualityMap (Panel.polygonQuality panel)) = Ret text
             /\ Panel.clipPathPolygon panel' = text /\ Panel.polygonError panel' = [])
          \/ (exists message,
                convertSvgPathToPolygon fuel path
                  (qualityMap (Panel.polygonQuality panel)) = Throw message
                /\ Panel.clipPathPolygon panel' = []
                /\ Panel.polygonError panel' = message)))
  /\ (Panel.pathError panel' <> [] ->
      Panel.polygonError panel' = Panel.pathError panel'
      /\ Panel.clipPathPath panel' = [] /\ Panel.clipPathPolygon panel' = [])
  /\ (Panel.clipPathPolygon panel' <> [] ->
      Panel.clipPathPath panel' <> [] /\ Panel.pathError panel' = []
      /\ Panel.polygonError panel' = []).
Proof.
  unfold handlePathChange. intros H.
  destruct (isEmpty (trim path)) eqn:Hblank.
  - unfold convertPath in H. rewrite Hblank in H. inversion H. cbn.
    repeat split; try reflexivity; try discriminate; intros E; now contradiction E.
  - destruct (convertPath_returns _ _ _ _ _ Hblank H) as (Hs & Hq & Hpath & Hpolygon).
    split; [exact Hs|]. split; [exact Hq|]. split; [discriminate|].
    split; [intros _; split; assumption|]. split.
    + intros Herr. destruct Hpath as [(text & _ & _ & E) | (message & Hthrow & Hp & E)];
        [now contradiction Herr|].
      apply (converters_agree_on_checks fuel path
               (qualityMap (Panel.polygonQuality panel))) in Hthrow.
      destruct Hpolygon as [(text & Hret & _) | (failure & Hthrow' & Hg & E')];
        [congruence|].
      repeat split; congruence.
    + intros Hshown.
      destruct Hpolygon as [(polygon & Hret & Hg & E') | (failure & _ & Hg & _)];
        [|now contradiction Hshown].
      destruct Hpath as [(text & Hpath & Hp & E) | (message & Hthrow & _)].
      * repeat split; try assumption. rewrite Hp.
        exact (clipPath_text_not_empty _ _ Hpath).
      * apply (converters_agree_on_checks fuel path
                 (qualityMap (Panel.polygonQuality panel))) in Hthrow.
        congruence.
Qed.

Lemma moveTo_letter_never_returns (fuel : nat) (path : jsstring)
    (options : PolygonConversionOptions) (c : N) (text : jsstring) :
  In c path -> isMoveTo [c] = true ->
  convertSvgPathToPolygon fuel path options <> Ret text.
Proof.
  intros Hin Hm H. apply convert_returns in H as (points & H).
  apply extract_returns in H as (tokens & s & Htok & Hloop & _).
  assert (Hw : isWhiteSpace c = false)
    by (destruct (isMoveTo_cases _ Hm) as [Hc | Hc]; inversion Hc; reflexivity).
  assert (Hl : isCommandLetter c = true)
    by (destruct (isMoveTo_cases _ Hm) as [Hc | Hc]; inversion Hc; reflexivity).
  assert (Hc : In [c] (commandsOf tokens)).
  { rewrite (tokenizeLoop_commands _ _ _ _ _ Htok). cbn [commandsOf flat_map app].
    apply in_map_iff. exists c. split; [reflexivity|].
    apply filter_In. split; [|exact Hl]. now apply trim_keeps. }
  unfold commandsOf in Hc. apply in_flat_map in Hc as ([c'|v] & Ht & Hc);
    [|destruct Hc].
  destruct Hc as [-> | []].
  pose proof (tokenLoop_returns _ _ _ _ _ Hloop [c] Ht) as Hnone. congruence.
Qed.

(** An input with the letter [M] or [m] anywhere in it gets the [path()]
    output and no polygon, whatever the quality: when the handler returns,
    the [path()] output holds the trimmed input, there is no path error, the
    polygon output is blank and the polygon error is a failure of the
    polygon conversion. *)
Theorem moveTo_shows_path_only (fuel : nat) (path : jsstring)
    (panel panel' : Panel.t) :
  In (ch "M") path \/ In (ch "m") path ->
  handlePathChange fuel path panel = Ret panel' ->
  Panel.clipPathPath panel' = str "clip-path: path('" ++ trim path ++ str "');"
  /\ Panel.pathError panel' = []
  /\ Panel.clipPathPolygon panel' = []
  /\ exists inner,
       Panel.polygonError panel' = str "Failed to convert path to polygon: " ++ inner.
Proof.
  intros Hin H.
  assert (Hc : exists c, In c path /\ isMoveTo [c] = true /\ isWhiteSpace c = false
                         /\ isCommandLetter c = true).
  { destruct Hin as [Hin | Hin]; eexists; (split; [exact Hin|]);
      repeat split; reflexivity. }
  destruct Hc as (c & Hc & Hm & Hw & Hl).
  pose proof (trim_keeps _ _ Hw Hc) as Htrim.
  unfold handlePathChange in H.
  destruct (convertPath_returns _ _ _ _ _ (isEmpty_false _ c Htrim) H)
    as (_ & _ & Hpath & Hpolygon).
  rewrite (clipPath_of_valid path (ex_intro _ c (conj Htrim Hl))) in Hpath.
  destruct Hpath as [(text & Hret & Hp & E) | (message & Hthrow & _)];
    [|discriminate].
  injection Hret as Ht. rewrite <- Ht in Hp. split; [exact Hp|]. split; [exact E|].
  destruct Hpolygon as [(polygon & Hret' & _) | (failure & Hconv & Hg & E')].
  { destruct (moveTo_letter_never_returns _ _ _ c polygon Hc Hm Hret'). }
  split; [exact Hg|]. rewrite E'.
  unfold convertSvgPathToPolygon in Hconv.
  rewrite (isEmpty_false _ c Htrim), (isEmpty_false _ c Hc) in Hconv.
  cbn [orb] in Hconv.
  replace (isValidSvgPath (trim path)) with true in Hconv
    by (symmetry; apply isValidSvgPath_iff; eauto).
  cbn [negb] in Hconv.
  destruct (bind _ _) as [t|m|]; inversion Hconv. exists m. reflexivity.
Qed.

(** Changing the quality after an input leaves the panel as the same
    input leaves it when that quality is already set: both outputs are
    computed again from the text kept in the panel. *)
Theorem quality_change_recomputes (fuel : nat) (path : jsstring)
    (quality : Quality.t) (panel panel1 : Panel.t) :
  handlePathChange fuel path panel = Ret panel1 ->
  handleQualityChange fuel quality panel1
  = handlePathChange fuel path (Panel.setPolygonQuality quality panel).
Proof.
  unfold handlePathChange, handleQualityChange. intros H.
  destruct (isEmpty (trim path)) eqn:Hblank.
  - unfold convertPath in H |- *. rewrite Hblank in H |- *. injection H as <-.
    cbn -[trim]. rewrite Hblank. reflexivity.
  - destruct (convertPath_returns _ _ _ _ _ Hblank H) as (Hs & _).
    cbn -[trim] in Hs. cbv zeta. rewrite Hs, Hblank. cbn [negb].
    clear H. unfold convertPath. rewrite Hblank.
    cbn [Panel.polygonQuality Panel.setPolygonQuality Panel.setSvgPath].
    destruct (convertSvgPathToClipPath path) as [text|message|]; cbn [bind];
      try reflexivity;
      destruct (convertSvgPathToPolygon fuel path (qualityMap quality));
      try reflexivity;
      cbv [Panel.setPolygonError Panel.setClipPathPolygon Panel.setPathError
           Panel.setClipPathPath Panel.setSvgPath Panel.setPolygonQuality
           Panel.svgPath Panel.clipPathPath Panel.clipPathPolygon Panel.pathError
           Panel.polygonError Panel.polygonQuality];
      fold (Panel.svgPath panel1); rewrite Hs; reflexivity.
Qed.

(** ** Relative commands *)

(** The absolute command that a relative one stands for with the cursor at
    [(cx, cy)], and its operands: every offset is taken from the cursor as
    it is before the command, the radii, the rotation and the flags of an
    arc are kept. *)
Definition absoluteForm (command : jsstring) (cx cy : float) (values : list float)
    : option (jsstring * list float) :=
  match values with
  | [d] =>
      if cmdIs command "h" then Some (str "H", [cx + d])
      else if cmdIs command "v" then Some (str "V", [cy + d])
      else None
  | [dx; dy] =>
      if cmdIs command "m" then Some (str "M", [cx + dx; cy + dy])
      else if cmdIs command "l" then Some (str "L", [cx + dx; cy + dy])
      else if cmdIs command "t" then Some (str "T", [cx + dx; cy + dy])
      else None
  | [dx1; dy1; dx; dy] =>
      if cmdIs command "s" then Some (str "S", [cx + dx1; cy + dy1; cx + dx; cy + dy])
      else if cmdIs command "q" then Some (str "Q", [cx + dx1; cy + dy1; cx + dx; cy + dy])
      else None
  | [dx1; dy1; dx2; dy2; dx; dy] =>
      if cmdIs command "c"
      then Some (str "C", [cx + dx1; cy + dy1; cx + dx2; cy + dy2; cx + dx; cy + dy])
      else None
  | [rx; ry; rotation; large; sweep; dx; dy] =>
      if cmdIs command "a"
      then Some (str "A", [rx; ry; rotation; large; sweep; cx + dx; cy + dy])
      else None
  | _ => None
  end.

(** A relative command does what its absolute form does on the operands
    moved by the cursor: same points, same cursor, same control point, same
    tokens left. *)
Theorem relative_is_absolute (curveSegments arcSegments : nat) (isFirstCoordSet : bool)
    (s : St.t) (command upper : jsstring) (values absolute : list float)
    (rest' : list Token) :
  St.rest s = map Number values ++ rest' ->
  absoluteForm command (St.currentX s) (St.currentY s) values = Some (upper, absolute) ->
  execCommand curveSegments arcSegments command isFirstCoordSet s
  = execCommand curveSegments arcSegments upper isFirstCoordSet
      (St.setTokens (St.i s) (map Number absolute ++ rest') s).
Proof.
  intros Hrest Hform. unfold absoluteForm in Hform.
  destruct values as [|v1 [|v2 [|v3 [|v4 [|v5 [|v6 [|v7 [|v8 values]]]]]]]];
    try discriminate;
    repeat match type of Hform with
           | (if cmdIs command ?l then _ else _) = _ =>
               let E := fresh "E" in
               destruct (cmdIs command l) eqn:E;
               [apply cmdIs_eq in E; subst command; inversion Hform; subst upper absolute;
                cbn [map app] in Hrest |-*
               |]
           end;
    try discriminate.
  all: unfold execCommand; eval_cmdIs.
  all: unfold mbind at 1; unfold getNumber at 1; rewrite Hrest; cbn; reflexivity.
Qed.

(** ** Two decimals *)

(** [v] is one of the 10001 Numbers [k / 100], [k] an integer of [0, 10000]. *)
Definition isHundredth (v : float) : Prop :=
  exists k : Z, (0 <= k <= 10000)%Z /\ (v =? Num.of_Z k / 100) = true.

Lemma float_eqb_refl (x : float) : Prim2SF x <> S754_nan -> (x =? x) = true.
Proof.
  intros H. rewrite eqb_spec.
  destruct (Prim2SF x) as [s|s| |s m e]; [destruct s; reflexivity .. | |].
  - now contradiction H.
  - unfold SFeqb, SFcompare. rewrite Z.compare_refl.
    destruct s; rewrite Pos.compare_cont_refl; reflexivity.
Qed.

(** [Math.round] of a Number of [0, 10000] is an integer of [0, 10000], or
    the [-0] it was given. *)
Lemma Math_round_integer (b : float) :
  Num.is_finite b = true -> (0 <= frank b <= frank 10000)%Z ->
  exists k : Z,
    (0 <= k <= 10000)%Z
    /\ (Num.Math_round b = Num.of_Z k \/ Prim2SF (Num.Math_round b) = S754_zero true).
Proof.
  intros Hf Hr. unfold Num.Math_round.
  destruct (Prim2SF b) as [s|s| |s m e] eqn:Hb.
  - exists 0%Z. split; [lia|].
    destruct s; [right; exact Hb | left; apply Prim2SF_inj; rewrite Hb; reflexivity].
  - unfold Num.is_finite in Hf. rewrite Hb in Hf. discriminate.
  - unfold Num.is_finite in Hf. rewrite Hb in Hf. discriminate.
  - pose proof (Prim2SF_valid b) as Hv. rewrite Hb in Hv.
    pose proof (bounded_spec m e Hv) as (Hex & Hd & Hnorm).
    pose proof (mag_bounds m e Hv) as Hmag. unfold mag in Hmag.
    assert (Hfb : frank b = rank (S754_finite s m e)) by (unfold frank; now rewrite Hb).
    cbn [rank] in Hfb. rewrite Hfb in Hr.
    destruct s; [lia|].
    destruct (Z.leb_spec 0 e) as [He|He].
    + exfalso. rewrite frank_ten_thousand in Hr.
      pose proof (digits2_pos_bounds m) as [Hlo _].
      rewrite (Hnorm ltac:(lia)) in Hlo. change (2 ^ (53 - 1))%Z with 4503599627370496%Z in Hlo.
      assert (Hp : (2 ^ 1074 <= 2 ^ (e + 1074))%Z) by (apply pow2_le; lia).
      pose proof (pow2_pos 1074 ltac:(lia)) as HK.
      revert Hr Hp HK. generalize (2 ^ (e + 1074))%Z (2 ^ 1074)%Z. intros A K Hr Hp HK. nia.
    + cbv zeta.
      pose proof (pow2_pos (- e) ltac:(lia)) as Hden.
      assert (Hm : (Z.pos m <= 10000 * 2 ^ (- e))%Z).
      { assert (Hsplit : (2 ^ 1074 = 2 ^ (- e) * 2 ^ (e + 1074))%Z)
          by (rewrite <- pow2_split by lia; f_equal; lia).
        rewrite frank_ten_thousand, Hsplit in Hr.
        pose proof (pow2_pos (e + 1074) ltac:(lia)) as Hp.
        revert Hr Hp. generalize (2 ^ (e + 1074))%Z (2 ^ (- e))%Z. intros A B Hr Hp. nia. }
      assert (Hn : (0 <= (2 * Z.pos m + 2 ^ (- e)) / (2 * 2 ^ (- e)) <= 10000)%Z).
      { split; [apply Z.div_pos; lia|].
        apply Z.lt_succ_r. apply Z.div_lt_upper_bound; lia. }
      revert Hn. generalize ((2 * Z.pos m + 2 ^ (- e)) / (2 * 2 ^ (- e)))%Z. intros n Hn.
      exists n. split; [exact Hn|]. left.
      destruct (Z.eqb_spec n 0) as [->|Hne]; reflexivity.
Qed.

Lemma round2_hundredths (a : float) :
  Num.is_finite (a * 100) = true -> (0 <= frank (a * 100) <= frank 10000)%Z ->
  isHundredth (round2 a).
Proof.
  intros Hf Hr. unfold round2.
  destruct (Math_round_range _ Hf Hr) as [Hfc Hc].
  destruct (Math_round_integer _ Hf Hr) as (k & Hk & [Hint | Hz]).
  - rewrite Hint in *. exists k. split; [exact Hk|]. apply float_eqb_refl.
    assert (H100 : (0 < frank 100)%Z).
    { rewrite frank_hundred. pose proof (pow2_pos 1074 ltac:(lia)). lia. }
    exact (proj1 (float_div_rounds _ 100 Hfc eq_refl (proj1 Hc) H100)).
  - exists 0%Z. split; [lia|]. rewrite eqb_spec, div_spec, Hz. reflexivity.
Qed.

(** The normalized coordinate before the rounding, times 100, is a Number
    of [0, 10000]. *)
Lemma scaled_range (v lo hi : float) :
  Num.is_finite v = true -> Num.is_finite lo = true -> Num.is_finite hi = true ->
  Num.is_finite (hi - lo) = true -> (0 <? hi - lo) = true ->
  (frank lo <= frank v <= frank hi)%Z ->
  Num.is_finite (normalizeCoord v lo (hi - lo) * 100) = true
  /\ (0 <= frank (normalizeCoord v lo (hi - lo) * 100) <= frank 10000)%Z.
Proof.
  intros Hv Hlo Hhi Hw Hpos Hr. unfold normalizeCoord. rewrite Hpos.
  assert (Hf1 : Num.is_finite 1 = true) by reflexivity.
  assert (Hf100 : Num.is_finite 100 = true) by reflexivity.
  assert (Hf10000 : Num.is_finite 10000 = true) by reflexivity.
  (* the extent *)
  pose proof (float_sub_rounds hi lo Hhi Hlo ltac:(lia)) as Rw.
  assert (Hwpos : (0 < frank (hi - lo))%Z).
  { rewrite ltb_frank in Hpos by (apply finite_not_nan; first [reflexivity|assumption]).
    apply Z.ltb_lt in Hpos. exact Hpos. }
  (* v - lo *)
  pose proof (float_sub_rounds v lo Hv Hlo ltac:(lia)) as Rd.
  assert (Hd0 : (0 <= frank (v - lo))%Z)
    by (apply (rounds_nonneg _ _ _ Rd); lia).
  assert (Hdw : (frank (v - lo) <= frank (hi - lo))%Z).
  { destruct Rd as [_ Rd], Rw as [_ Rw].
    apply (rnd_mono _ 1 _ _ 1 _ ltac:(lia) ltac:(lia) Rd Rw). lia. }
  assert (Hfd : Num.is_finite (v - lo) = true)
    by (apply (rounds_is_finite _ _ _ (hi - lo) Rd Hw); [lia|lia|exact Hdw]).
  clear Rd Rw.
  revert Hw Hwpos Hd0 Hdw Hfd. generalize (v - lo) (hi - lo). intros d w Hw Hwpos Hd0 Hdw Hfd.
  (* ... / extent *)
  pose proof (float_div_rounds d w Hfd Hw Hd0 Hwpos) as Rq.
  (* ... * 100 *)
  assert (Hq : Num.is_finite (d / w) = true /\ (0 <= frank (d / w) <= frank 1)%Z).
  { pose proof (pow2_pos 1074 ltac:(lia)) as HK. pose proof frank_one as H1.
    revert Rq H1 HK. generalize (2 ^ 1074)%Z. intros K Rq H1 HK.
    assert (Hq0 : (0 <= frank (d / w))%Z) by (apply (rounds_nonneg _ _ _ Rq); nia).
    assert (Hq1 : (frank (d / w) <= frank 1)%Z)
      by (apply (rounds_le _ _ _ 1 Rq Hf1); nia).
    split; [|lia]. apply (rounds_is_finite _ _ _ 1 Rq Hf1); nia. }
  clear Rq. revert Hq. generalize (d / w). intros q [Hfq Hq].
  pose proof (float_mul_rounds q 100 Hfq Hf100 ltac:(lia) ltac:(reflexivity)) as Ra.
  assert (Ha : Num.is_finite (q * 100) = true /\ (0 <= frank (q * 100) <= frank 100)%Z).
  { pose proof (pow2_pos 1074 ltac:(lia)) as HK.
    pose proof frank_one as H1. pose proof frank_hundred as H100.
    revert Ra H1 H100 HK. generalize (2 ^ 1074)%Z. intros K Ra H1 H100 HK.
    assert (Ha0 : (0 <= frank (q * 100))%Z) by (apply (rounds_nonneg _ _ _ Ra); nia).
    assert (Ha1 : (frank (q * 100) <= frank 100)%Z)
      by (apply (rounds_le _ _ _ 100 Ra Hf100); nia).
    split; [|lia]. apply (rounds_is_finite _ _ _ 100 Ra Hf100); nia. }
  clear Ra. revert Ha. generalize (q * 100). intros a [Hfa Ha].
  (* Math.round(... * 100) *)
  pose proof (float_mul_rounds a 100 Hfa Hf100 ltac:(lia) ltac:(reflexivity)) as Rb.
  assert (Hb : Num.is_finite (a * 100) = true /\ (0 <= frank (a * 100) <= frank 10000)%Z).
  { pose proof (pow2_pos 1074 ltac:(lia)) as HK.
    pose proof frank_hundred as H100. pose proof frank_ten_thousand as H10000.
    revert Rb H100 H10000 HK. generalize (2 ^ 1074)%Z. intros K Rb H100 H10000 HK.
    assert (Hb0 : (0 <= frank (a * 100))%Z) by (apply (rounds_nonneg _ _ _ Rb); nia).
    assert (Hb1 : (frank (a * 100) <= frank 10000)%Z)
      by (apply (rounds_le _ _ _ 10000 Rb Hf10000); nia).
    split; [|lia]. apply (rounds_is_finite _ _ _ 10000 Rb Hf10000); nia. }
  exact Hb.
Qed.

Lemma normalizeAxis_hundredths (vs : list float) :
  axisExtent vs <> infinity ->
  forall r, In r (normalizeAxis vs) -> isHundredth r.
Proof.
  intros Hinf r Hin. unfold normalizeAxis in Hin.
  apply in_map_iff in Hin as (v & <- & Hv).
  destruct (0 <? axisExtent vs) eqn:Hpos.
  - assert (Hfin : Num.is_finite (axisExtent vs) = true).
    { unfold Num.is_finite. rewrite ltb_spec in Hpos.
      destruct (Prim2SF (axisExtent vs)) as [s|s| |s m e] eqn:He;
        try reflexivity; try (vm_compute in Hpos; discriminate).
      destruct s; [vm_compute in Hpos; discriminate|].
      exfalso. apply Hinf. apply Prim2SF_inj. rewrite He. reflexivity. }
    destruct (finite_extent vs Hfin) as (Hlo & Hhi & _ & _).
    destruct (fold_min_frank vs infinity (finite_not_nan _ Hlo) v Hv) as [Hn Hge].
    destruct (fold_max_frank vs neg_infinity (finite_not_nan _ Hhi) v Hv) as [_ Hle].
    fold (axisMin vs) in Hge. fold (axisMax vs) in Hle.
    pose proof (frank_finite _ Hlo). pose proof (frank_finite _ Hhi).
    assert (Hfv : Num.is_finite v = true) by (apply frank_is_finite; [assumption|lia]).
    destruct (scaled_range v (axisMin vs) (axisMax vs) Hfv Hlo Hhi Hfin Hpos ltac:(lia))
      as [Hfs Hs].
    now apply round2_hundredths.
  - unfold normalizeCoord. rewrite Hpos. exists 5000%Z. split; [lia|].
    vm_compute. reflexivity.
Qed.

(** The percentages of a polygon have two decimals at most: on an axis whose
    extent in path space is not [Infinity], every normalized coordinate is
    equal to one of the Numbers [k / 100] with [k] an integer from 0 to
    10000. *)
Theorem normalized_hundredths (fuel : nat) (path : jsstring)
    (options : PolygonConversionOptions) (points : list Point.t) :
  extractPointsFromPath fuel path options = Ret points ->
  exists absolutePoints,
    absolutePointsOf fuel path options = Ret absolutePoints
    /\ (axisExtent (map Point.x absolutePoints) <> infinity ->
        forall p, In p points -> isHundredth (Point.x p))
    /\ (axisExtent (map Point.y absolutePoints) <> infinity ->
        forall p, In p points -> isHundredth (Point.y p)).
Proof.
  intros H. apply extract_normalizes in H as (a & Ha & _ & ->).
  exists a. destruct (normalize_axes a) as [Hx Hy].
  split; [assumption|]. split; intros Hinf p Hp.
  - apply (normalizeAxis_hundredths _ Hinf). rewrite <- Hx. now apply in_map.
  - apply (normalizeAxis_hundredths _ Hinf). rewrite <- Hy. now apply in_map.
Qed.
(** ** Intervals of Numbers

    Rounding to nearest is monotone, so a sum, a difference or a product of
    Numbers known up to an interval lies between the results at the ends of
    the intervals. *)

(** [|x - center| <= tol], as the code would test it with [<=]. *)
Definition within (tol center x : float) : bool :=
  (center - tol <=? x) && (x <=? center + tol).





















(** ** The arc of the example

    The arc from (0,0) to (100,100) with radii 50, no rotation, the small
    arc, swept in the positive direction.  The end points are 141.42 apart,
    more than the two radii together, so the code scales the radii by
    [sqrt 2]; all the values the code computes before it asks the engine
    for an angle are determined, and are the constants below. *)

(** [(y1p - cyp) / ry] and [(x1p - cxp) / rx], the arguments of the first
    [Math.atan2]: -0.70710678981822206 and -0.70710677255487286 *)
Definition exampleStartSine : float := -0x1.6a09e6b218fd9p-1.
Definition exampleStartCosine : float := -0x1.6a09e61dce7bfp-1.
(** [(-y1p - cyp) / ry] and [(-x1p - cxp) / rx], those of the second:
    0.70710677255487286 and 0.70710678981822206 *)
Definition exampleEndSine : float := 0x1.6a09e61dce7bfp-1.
Definition exampleEndCosine : float := 0x1.6a09e6b218fd9p-1.
(** The angles of these two directions: -2.3561944779853135 and
    0.785398151190417 *)
Definition exampleStartAngle : float := -0x1.2d97c7d8fb3a3p+1.
Definition exampleEndAngle : float := 0x1.921fb4db6745dp-1.




Definition angleWindow : float := 4 / 1000000000.




(** ** What a flattened segment emits *)


End Engine.

(** * The theorems at concrete inputs *)

Local Open Scope float_scope.

Definition sampleConvert : nat -> jsstring -> PolygonConversionOptions -> result jsstring :=
  convertSvgPathToPolygon SampleEngine.cos SampleEngine.sin SampleEngine.atan2
    SampleEngine.toString.

Definition sampleExtract : nat -> jsstring -> PolygonConversionOptions -> result (list Point.t) :=
  extractPointsFromPath SampleEngine.cos SampleEngine.sin SampleEngine.atan2.

(** The square written with linetos, as text. *)
Example square_by_lineto_text :
  sampleConvert 6 (str "L 10 10 L 90 10 L 90 90 L 10 90 L 10 10") defaultOptions
  = Ret (str "clip-path: polygon(0% 0%, 100% 0%, 100% 100%, 0% 100%, 0% 0%);").
Proof. vm_compute. reflexivity. Qed.

(** C4 at three inputs: a path between blanks, a blank input and a number. *)
Lemma clipPath_passthrough_witness :
  convertSvgPathToClipPath (str "  M0,0 L5,5 ")
  = Ret (str "clip-path: path('M0,0 L5,5');")
  /\ (exists message, convertSvgPathToClipPath (str "   ") = Throw message)
  /\ (exists message, convertSvgPathToClipPath (str "12 34") = Throw message).
Proof.
  split; [|split].
  - apply (proj1 (clipPath_passthrough (str "  M0,0 L5,5 "))).
    exists (ch "M"). vm_compute. auto.
  - apply (proj1 (proj2 (clipPath_passthrough (str "   ")))). reflexivity.
  - apply (proj2 (proj2 (clipPath_passthrough (str "12 34")))).
    intros c Hin Hc. vm_compute in Hin, Hc.
    repeat (destruct Hin as [<- | Hin];
            [repeat (destruct Hc as [Hc | Hc]; [discriminate|]); exact Hc|]).
    exact Hin.
Defined.

(** C2 at three inputs: ["Z 1 M 0 0"] does not end; the square with a moveto
    never converts, and throws; ["L 1 Z 1 M 0 0"], where the [Z] comes after
    an incomplete group, throws. *)
Lemma moveTo_never_converts_witness :
  sampleConvert 1000 (str "Z 1 M 0 0") defaultOptions = Spin
  /\ (forall text,
        sampleConvert 14 (str "M 10 10 L 90 10 L 90 90 L 10 90 Z") defaultOptions
        <> Ret text)
  /\ (exists message,
        sampleConvert 14 (str "M 10 10 L 90 10 L 90 90 L 10 90 Z") defaultOptions
        = Throw message)
  /\ (exists message,
        sampleConvert 8 (str "L 1 Z 1 M 0 0") defaultOptions = Throw message).
Proof.
  split.
  - apply (moveTo_never_converts SampleEngine.cos SampleEngine.sin SampleEngine.atan2
             SampleEngine.toString 1000 (str "Z 1 M 0 0") defaultOptions
             [Command (str "Z"); Number 1; Command (str "M"); Number 0; Number 0]).
    + vm_compute. reflexivity.
    + left. right. right. left. reflexivity.
    + reflexivity.
  - destruct (moveTo_never_converts SampleEngine.cos SampleEngine.sin SampleEngine.atan2
                SampleEngine.toString 14 (str "M 10 10 L 90 10 L 90 90 L 10 90 Z")
                defaultOptions
                [Command (str "M"); Number 10; Number 10;
                 Command (str "L"); Number 90; Number 10;
                 Command (str "L"); Number 90; Number 90;
                 Command (str "L"); Number 10; Number 90; Command (str "Z")])
      as (Hnever & _ & Hthrows).
    + vm_compute. reflexivity.
    + left. left. reflexivity.
    + split; [exact Hnever|]. split.
      * apply Hthrows; [reflexivity | vm_compute; lia].
      * apply (moveTo_never_converts SampleEngine.cos SampleEngine.sin
                 SampleEngine.atan2 SampleEngine.toString 8 (str "L 1 Z 1 M 0 0")
                 defaultOptions
                 [Command (str "L"); Number 1; Command (str "Z"); Number 1;
                  Command (str "M"); Number 0; Number 0]).
        -- vm_compute. reflexivity.
        -- left. do 4 right. left. reflexivity.
        -- reflexivity.
        -- vm_compute. lia.
Defined.

(** ["Z 1 M 0 0"] tokenizes and holds an [M], yet the conversion throws
    nothing: it never ends, whatever the engine and the number of
    iterations. *)
Lemma close_then_number_never_throws :
  tokenizePath (trim (str "Z 1 M 0 0"))
  = Ret [Command (str "Z"); Number 1; Command (str "M"); Number 0; Number 0]
  /\ forall cos sin atan2 toString fuel,
       convertSvgPathToPolygon cos sin atan2 toString fuel (str "Z 1 M 0 0")
         defaultOptions = Spin.
Proof.
  split; [vm_compute; reflexivity|]. intros.
  eapply convert_close_number_spins; [| vm_compute; reflexivity |];
    vm_compute; reflexivity.
Qed.

(** C6 at three corners of the square. *)
Lemma normalized_span_witness :
  exists absolutePoints,
    absolutePointsOf SampleEngine.cos SampleEngine.sin SampleEngine.atan2 4
      (str "L 10 10 L 90 10 L 90 90") defaultOptions = Ret absolutePoints
    /\ absolutePoints <> []
    /\ List.length [Point.mk 0 0; Point.mk 100 0; Point.mk 100 100]
       = List.length absolutePoints
    /\ axisSpans (map Point.x absolutePoints) [0; 100; 100]
    /\ axisSpans (map Point.y absolutePoints) [0; 0; 100].
Proof.
  apply (normalized_span SampleEngine.cos SampleEngine.sin SampleEngine.atan2 4
           (str "L 10 10 L 90 10 L 90 90") defaultOptions
           [Point.mk 0 0; Point.mk 100 0; Point.mk 100 100]).
  vm_compute. reflexivity.
Defined.

(** C6 as stated fails on ["L 1e999 0 L 0 0 L 1 1"]: the extent of the x
    axis is positive (it is infinite), yet no point is normalized to 100 on
    that axis: the greatest coordinate becomes NaN. *)
Lemma infinite_extent_not_spanned :
  (forall cos sin atan2 fuel,
      absolutePointsOf cos sin atan2 (4 + fuel) (str "L 1e999 0 L 0 0 L 1 1")
        defaultOptions
      = Ret [Point.mk infinity 0; Point.mk 0 0; Point.mk 1 1])
  /\ (forall cos sin atan2 fuel,
        extractPointsFromPath cos sin atan2 (4 + fuel) (str "L 1e999 0 L 0 0 L 1 1")
          defaultOptions
        = Ret [Point.mk nan 0; Point.mk 0 0; Point.mk 0 100])
  /\ (0 <? axisExtent [infinity; 0; 1]) = true
  /\ forallb (fun v => negb (v =? 100)) [nan; 0; 0] = true.
Proof.
  split; [|split; [|split]]; intros; vm_compute; reflexivity.
Qed.

(** C8 at a cursor away from the subpath start. *)
Lemma close_path_step_witness :
  exists s',
    execCommand SampleEngine.cos SampleEngine.sin SampleEngine.atan2 8 16 (str "Z") false
      (St.mk 3 [] 7 9 1 2 0 0 (str "L") [Point.mk 1 2; Point.mk 7 9]) = Ret (tt, s')
    /\ St.subpathStartX s' = 1
    /\ St.subpathStartY s' = 2
    /\ (false = true -> s' = St.mk 3 [] 7 9 1 2 0 0 (str "L") [Point.mk 1 2; Point.mk 7 9])
    /\ (false = false ->
        St.absolutePoints s' = [Point.mk 1 2; Point.mk 7 9] ++ [Point.mk 1 2]
        /\ St.currentX s' = 1 /\ St.currentY s' = 2).
Proof.
  apply (close_path_step SampleEngine.cos SampleEngine.sin SampleEngine.atan2 8 16
           (str "Z") false
           (St.mk 3 [] 7 9 1 2 0 0 (str "L") [Point.mk 1 2; Point.mk 7 9])).
  left. reflexivity.
Defined.

(** C9 at an arc whose first radius is zero. *)
Lemma degenerate_arc_is_a_line_witness :
  (forall x1 y1 largeArcFlag sweepFlag segments,
      approximateArc SampleEngine.cos SampleEngine.sin SampleEngine.atan2
        x1 y1 0 5 0 largeArcFlag sweepFlag 3 4 segments = [Point.mk 3 4])
  /\ (exists s',
        execCommand SampleEngine.cos SampleEngine.sin SampleEngine.atan2 8 16 (str "A")
          false (St.mk 1 (map Number [0; 5; 0; 0; 1; 3; 4]) 1 1 0 0 0 0 [] [])
        = Ret (tt, s')
        /\ St.absolutePoints s' = [] ++ [Point.mk 3 4]
        /\ St.currentX s' = 3 /\ St.currentY s' = 4)
  /\ (exists s',
        execCommand SampleEngine.cos SampleEngine.sin SampleEngine.atan2 8 16 (str "a")
          false (St.mk 1 (map Number [0; 5; 0; 0; 1; 3; 4]) 1 1 0 0 0 0 [] [])
        = Ret (tt, s')
        /\ St.absolutePoints s' = [] ++ [Point.mk (1 + 3) (1 + 4)]
        /\ St.currentX s' = 1 + 3 /\ St.currentY s' = 1 + 4).
Proof.
  apply (degenerate_arc_is_a_line SampleEngine.cos SampleEngine.sin SampleEngine.atan2
           8 16 false
           (St.mk 1 (map Number [0; 5; 0; 0; 1; 3; 4]) 1 1 0 0 0 0 [] [])
           0 5 0 0 1 3 4 []).
  - left. reflexivity.
  - reflexivity.
Defined.



(** A cubic from (0,0) to (10,0), flattened with four segments. *)
Definition beforeCubic : St.t :=
  St.mk 1 (map Number [0; 10; 10; 10; 10; 0]) 0 0 0 0 0 0 [] [].

Lemma cubic_flattening_samples_witness :
  exists s' emitted,
    execCommand SampleEngine.cos SampleEngine.sin SampleEngine.atan2 4 16 (str "C")
      true beforeCubic = Ret (tt, s')
    /\ St.absolutePoints s' = [] ++ emitted
    /\ List.length emitted = 4%nat
    /\ (forall k, (k < 4)%nat ->
          nth_error emitted k
          = Some (cubicBezier 0 0 0 10 10 10 10 0 (Num.of_nat (S k) / Num.of_nat 4)))
    /\ St.currentX s' = 10 /\ St.currentY s' = 0.
Proof.
  apply (cubic_flattening_samples SampleEngine.cos SampleEngine.sin SampleEngine.atan2
           4 16 true beforeCubic 0 10 10 10 10 0 []).
  reflexivity.
Defined.

Lemma cubic_flattening_ends_at_endpoint_witness :
  exists s' emitted last,
    execCommand SampleEngine.cos SampleEngine.sin SampleEngine.atan2 4 16 (str "C")
      true beforeCubic = Ret (tt, s')
    /\ St.absolutePoints s' = [] ++ emitted
    /\ List.length emitted = 4%nat
    /\ nth_error emitted (4 - 1) = Some last
    /\ (Point.x last =? 10) = true /\ (Point.y last =? 0) = true.
Proof.
  apply (cubic_flattening_ends_at_endpoint SampleEngine.cos SampleEngine.sin
           SampleEngine.atan2 4 16 true beforeCubic 0 10 10 10 10 0 []).
  - reflexivity.
  - lia.
  - reflexivity.
  - reflexivity.
Defined.

Lemma arc_flattening_count_witness :
  List.length
    (approximateArc SampleEngine.cos SampleEngine.sin SampleEngine.atan2
       0 0 50 50 0 false true 100 100 16)
  = 16%nat.
Proof.
  apply (arc_flattening_count SampleEngine.cos SampleEngine.sin SampleEngine.atan2
           0 0 50 50 0 false true 100 100 16); reflexivity.
Defined.

Lemma close_then_number_hangs_witness :
  sampleConvert 1000 (str "Z 1 M 0 0") defaultOptions = Spin.
Proof.
  apply (close_then_number_hangs SampleEngine.cos SampleEngine.sin SampleEngine.atan2
           SampleEngine.toString 1000 (str "Z 1 M 0 0") defaultOptions (str "Z") 1
           [Command (str "M"); Number 0; Number 0]).
  - vm_compute. reflexivity.
  - left. reflexivity.
Defined.

(** ** The further properties at concrete inputs *)

Definition lineThenClose : list Token :=
  [Command (str "L"); Number 3; Number 4; Command (str "Z")].

Lemma tokenizer_keeps_commands_witness :
  tokenizePath (str "L3,4Z") = Ret lineThenClose
  /\ commandsOf lineThenClose = [str "L"; str "Z"].
Proof.
  split; [vm_compute; reflexivity|].
  apply (tokenizer_keeps_commands (str "L3,4Z") lineThenClose).
  vm_compute. reflexivity.
Defined.

Lemma tokenizer_numbers_witness :
  is_nan 15 = false
  /\ exists prefix numStr suffix,
       str "L1.5e1 0" = prefix ++ numStr ++ suffix
       /\ forallb isNumberChar numStr = true
       /\ 15 = parseFloat numStr.
Proof.
  apply (tokenizer_numbers (str "L1.5e1 0") [Command (str "L"); Number 15; Number 0] 15).
  - vm_compute. reflexivity.
  - right. left. reflexivity.
Defined.

Lemma tokenizer_separator_splits_witness :
  tokenizePath (str "L3" ++ ch "," :: str "4Z") = Ret ([Command (str "L"); Number 3]
                                                      ++ [Number 4; Command (str "Z")]).
Proof.
  apply (tokenizer_separator_splits (str "L3") (str "4Z") (ch ",")).
  - reflexivity.
  - vm_compute. reflexivity.
  - vm_compute. reflexivity.
Defined.

Lemma interpreter_accepts_witness :
  (exists s',
     tokenLoop SampleEngine.cos SampleEngine.sin SampleEngine.atan2 5 8 16
       (St.init lineThenClose) = Ret s')
  <-> wellFormed lineThenClose = true.
Proof.
  apply (interpreter_accepts SampleEngine.cos SampleEngine.sin SampleEngine.atan2
           8 16 5 lineThenClose).
  vm_compute. lia.
Defined.

Lemma operands_incomplete_witness :
  exists context,
    tokenLoop SampleEngine.cos SampleEngine.sin SampleEngine.atan2 8 8 16
      (St.init ([Command (str "L"); Number 1; Number 2]
                ++ Command (str "C") :: map Number [1; 2; 3] ++ [Command (str "Z")]))
    = Throw (str "Expected number for " ++ context).
Proof.
  apply (operands_incomplete SampleEngine.cos SampleEngine.sin SampleEngine.atan2
           8 16 8 _ [Command (str "L"); Number 1; Number 2] (str "C") [1; 2; 3]
           [Command (str "Z")]).
  - reflexivity.
  - reflexivity.
  - reflexivity.
  - reflexivity.
  - vm_compute. lia.
  - reflexivity.
  - reflexivity.
  - vm_compute. lia.
Defined.

Definition missingOperand : jsstring :=
  str "Failed to convert path to polygon: Expected number for L command y-coordinate".

Lemma conversion_errors_witness :
  sampleConvert 5 (str "L 1") defaultOptions = Throw missingOperand
  /\ (missingOperand = str "SVG path cannot be empty"
      \/ missingOperand = str "Invalid SVG path format"
      \/ exists inner,
           missingOperand = str "Failed to convert path to polygon: " ++ inner
           /\ (tokenizeError (trim (str "L 1")) inner
               \/ inner = str "Expected command, got number at token 0"
               \/ (exists context, inner = str "Expected number for " ++ context)
               \/ inner = str "No points extracted from path"
               \/ inner = str "Path must contain at least 3 points to create a polygon"))
  /\ forall command,
       missingOperand
       <> str "Failed to convert path to polygon: Unsupported command: " ++ command.
Proof.
  split; [vm_compute; reflexivity|].
  apply (conversion_errors SampleEngine.cos SampleEngine.sin SampleEngine.atan2
           SampleEngine.toString 5 (str "L 1") defaultOptions missingOperand).
  vm_compute. reflexivity.
Defined.

Definition afterLineThenClose : St.t :=
  St.mk 4 [] 0 0 0 0 0 0 (str "Z") [Point.mk 3 4; Point.mk 0 0].

Lemma subpath_start_stays_origin_witness :
  (St.subpathStartX afterLineThenClose = 0 /\ St.subpathStartY afterLineThenClose = 0)
  /\ (forall before command,
        lineThenClose = before ++ [Command command] -> isClose command = true ->
        (St.currentX afterLineThenClose =? 0) = true
        /\ (St.currentY afterLineThenClose =? 0) = true).
Proof.
  apply (subpath_start_stays_origin SampleEngine.cos SampleEngine.sin SampleEngine.atan2
           8 16 5 lineThenClose afterLineThenClose).
  vm_compute. reflexivity.
Defined.

Definition beforeQuadratic : St.t :=
  St.mk 1 (map Number [5; 10; 10; 0]) 0 0 0 0 0 0 [] [].

Lemma quadratic_flattening_witness :
  exists s' emitted,
    execCommand SampleEngine.cos SampleEngine.sin SampleEngine.atan2 4 16 (str "Q")
      true beforeQuadratic = Ret (tt, s')
    /\ St.absolutePoints s' = [] ++ emitted
    /\ List.length emitted = 4%nat
    /\ (forall k, (k < 4)%nat ->
          nth_error emitted k
          = Some (quadraticBezier 0 0 5 10 10 0 (Num.of_nat (S k) / Num.of_nat 4)))
    /\ (St.currentX s' = 10 /\ St.currentY s' = 0)
    /\ (St.lastControlX s' = 5 /\ St.lastControlY s' = 10)
    /\ ((0 < 4)%nat -> (Z.of_nat 4 < 2 ^ 53)%Z ->
        forallb Num.is_finite [0; 0; 5; 10; 10; 0] = true ->
        exists last,
          nth_error emitted (4 - 1) = Some last
          /\ (Point.x last =? 10) = true /\ (Point.y last =? 0) = true).
Proof.
  apply (quadratic_flattening SampleEngine.cos SampleEngine.sin SampleEngine.atan2
           4 16 true beforeQuadratic 5 10 10 0 []).
  reflexivity.
Defined.

Definition beforeLines : St.t :=
  St.mk 1 (map Number [10; 0; 10; 10; 0; 10] ++ [Command (str "Z")]) 0 0 0 0 0 0 [] [].

Lemma lineTo_polyline_witness :
  exists s',
    commandLoop SampleEngine.cos SampleEngine.sin SampleEngine.atan2 4 8 16 (str "L")
      true beforeLines = Ret s'
    /\ St.rest s' = [Command (str "Z")]
    /\ St.absolutePoints s' = [] ++ pairs [10; 0; 10; 10; 0; 10]
    /\ List.length (pairs [10; 0; 10; 10; 0; 10]) = (6 / 2)%nat
    /\ Point.mk (St.currentX s') (St.currentY s')
       = last (pairs [10; 0; 10; 10; 0; 10]) (Point.mk 0 0).
Proof.
  apply (lineTo_polyline SampleEngine.cos SampleEngine.sin SampleEngine.atan2
           8 16 4 true beforeLines [10; 0; 10; 10; 0; 10] [Command (str "Z")]).
  - reflexivity.
  - reflexivity.
  - vm_compute. lia.
  - reflexivity.
  - vm_compute. lia.
Defined.

Definition samplePanel : nat -> jsstring -> Panel.t -> result Panel.t :=
  handlePathChange SampleEngine.cos SampleEngine.sin SampleEngine.atan2
    SampleEngine.toString.

Definition sampleQuality : nat -> Quality.t -> Panel.t -> result Panel.t :=
  handleQualityChange SampleEngine.cos SampleEngine.sin SampleEngine.atan2
    SampleEngine.toString.

Definition squareByLineTo : jsstring := str " L 10 10 L 90 10 L 90 90 L 10 90 ".

Definition afterSquareByLineTo : Panel.t :=
  Panel.mk squareByLineTo
    (str "clip-path: path('L 10 10 L 90 10 L 90 90 L 10 90');")
    (str "clip-path: polygon(0% 0%, 100% 0%, 100% 100%, 0% 100%);")
    [] [] Quality.medium.

(** The panel on the square written with linetos, and on a blank input. *)
Example panel_on_square :
  samplePanel 6 squareByLineTo Panel.init = Ret afterSquareByLineTo
  /\ samplePanel 6 (str "  ")
       (Panel.mk (str "L") (str "a") (str "b") (str "c") (str "d") Quality.high)
     = Ret (Panel.mk (str "  ") [] [] [] [] Quality.high).
Proof. split; vm_compute; reflexivity. Qed.

Lemma outputs_are_independent_witness :
  Panel.svgPath afterSquareByLineTo = squareByLineTo
  /\ Panel.polygonQuality afterSquareByLineTo = Quality.medium
  /\ Panel.clipPathPath afterSquareByLineTo <> []
  /\ Panel.pathError afterSquareByLineTo = []
  /\ Panel.polygonError afterSquareByLineTo = [].
Proof.
  destruct (outputs_are_independent SampleEngine.cos SampleEngine.sin SampleEngine.atan2
              SampleEngine.toString 6 squareByLineTo Panel.init afterSquareByLineTo)
    as (Hs & Hq & _ & _ & _ & Hshown).
  - vm_compute. reflexivity.
  - split; [exact Hs|]. split; [exact Hq|]. apply Hshown. discriminate.
Defined.

Definition squareWithMoveTo : jsstring := str "M 10 10 L 90 10 L 90 90 L 10 90 Z".

Definition moveToFailure : jsstring :=
  str "Failed to convert path to polygon: Expected number for M command x-coordinate".

Definition afterSquareWithMoveTo : Panel.t :=
  Panel.mk squareWithMoveTo
    (str "clip-path: path('M 10 10 L 90 10 L 90 90 L 10 90 Z');") [] [] moveToFailure
    Quality.medium.

Lemma moveTo_shows_path_only_witness :
  samplePanel 20 squareWithMoveTo Panel.init = Ret afterSquareWithMoveTo
  /\ Panel.clipPathPath afterSquareWithMoveTo
     = str "clip-path: path('" ++ trim squareWithMoveTo ++ str "');"
  /\ Panel.pathError afterSquareWithMoveTo = []
  /\ Panel.clipPathPolygon afterSquareWithMoveTo = []
  /\ exists inner,
       Panel.polygonError afterSquareWithMoveTo
       = str "Failed to convert path to polygon: " ++ inner.
Proof.
  split; [vm_compute; reflexivity|].
  apply (moveTo_shows_path_only SampleEngine.cos SampleEngine.sin SampleEngine.atan2
           SampleEngine.toString 20 squareWithMoveTo Panel.init afterSquareWithMoveTo).
  - left. vm_compute. auto.
  - vm_compute. reflexivity.
Defined.

Lemma quality_change_recomputes_witness :
  sampleQuality 6 Quality.high afterSquareByLineTo
  = samplePanel 6 squareByLineTo (Panel.setPolygonQuality Quality.high Panel.init).
Proof.
  apply (quality_change_recomputes SampleEngine.cos SampleEngine.sin SampleEngine.atan2
           SampleEngine.toString 6 squareByLineTo Quality.high Panel.init
           afterSquareByLineTo).
  vm_compute. reflexivity.
Defined.

Definition beforeRelative : St.t :=
  St.mk 1 (map Number [1; 2; 3; 4; 5; 6]) 10 20 0 0 0 0 (str "L") [Point.mk 10 20].

Lemma relative_is_absolute_witness :
  execCommand SampleEngine.cos SampleEngine.sin SampleEngine.atan2 8 16 (str "c") true
    beforeRelative
  = execCommand SampleEngine.cos SampleEngine.sin SampleEngine.atan2 8 16 (str "C") true
      (St.setTokens 1 (map Number [11; 22; 13; 24; 15; 26] ++ []) beforeRelative).
Proof.
  apply (relative_is_absolute SampleEngine.cos SampleEngine.sin SampleEngine.atan2
           8 16 true beforeRelative (str "c") (str "C") [1; 2; 3; 4; 5; 6]
           [11; 22; 13; 24; 15; 26] []).
  - reflexivity.
  - reflexivity.
Defined.

Lemma conversion_answers_witness :
  (exists text, sampleConvert 5 (str "L3,4Z") defaultOptions = Ret text)
  \/ (exists message, sampleConvert 5 (str "L3,4Z") defaultOptions = Throw message).
Proof.
  apply (conversion_answers SampleEngine.cos SampleEngine.sin SampleEngine.atan2
           SampleEngine.toString 5 (str "L3,4Z") defaultOptions lineThenClose).
  - vm_compute. reflexivity.
  - reflexivity.
  - vm_compute. lia.
Defined.

Lemma normalized_hundredths_witness :
  exists absolutePoints,
    absolutePointsOf SampleEngine.cos SampleEngine.sin SampleEngine.atan2 4
      (str "L 10 10 L 40 10 L 20 90") defaultOptions = Ret absolutePoints
    /\ (axisExtent (map Point.x absolutePoints) <> infinity ->
        forall p, In p [Point.mk 0 0; Point.mk 100 0; Point.mk (3333 / 100) 100] ->
                  isHundredth (Point.x p))
    /\ (axisExtent (map Point.y absolutePoints) <> infinity ->
        forall p, In p [Point.mk 0 0; Point.mk 100 0; Point.mk (3333 / 100) 100] ->
                  isHundredth (Point.y p)).
Proof.
  apply (normalized_hundredths SampleEngine.cos SampleEngine.sin SampleEngine.atan2 4
           (str "L 10 10 L 40 10 L 20 90") defaultOptions
           [Point.mk 0 0; Point.mk 100 0; Point.mk (3333 / 100) 100]).
  vm_compute. reflexivity.
Defined.

(** An engine that answers from a table at the angles of the example and
    as the sample engine elsewhere. *)
Module TableEngine.
Local Open Scope float_scope.

Definition cos (theta : float) : float :=
  if within angleWindow exampleEndAngle theta then exampleEndCosine
  else SampleEngine.cos theta.

Definition sin (theta : float) : float :=
  if within angleWindow exampleEndAngle theta then exampleEndSine
  else SampleEngine.sin theta.

Definition atan2 (y x : float) : float :=
  if (y =? exampleStartSine) && (x =? exampleStartCosine) then exampleStartAngle
  else if (y =? exampleEndSine) && (x =? exampleEndCosine) then exampleEndAngle
  else SampleEngine.atan2 y x.

End TableEngine.


(** The state in which the command of ["A 50 50 0 0 1 100 100"] runs. *)
Definition beforeExampleArc : St.t :=
  St.mk 1 (map Number [50; 50; 0; 0; 1; 100; 100]) 0 0 0 0 0 0 [] [].

Example example_arc_tokens :
  tokenizePath (str "A 50 50 0 0 1 100 100")
  = Ret (Command (str "A") :: St.rest beforeExampleArc).
Proof. vm_compute. reflexivity. Qed.


